(** * SilverSage client script (static/js/main.js): lockout countdown,
      form-submit gating, password toggle, field validator, file-size guard,
      flash messages, submit listeners, dropdown menus, volunteer checkbox

    A shallow embedding of the parts of [static/js/main.js] (and of its
    [final_v2] variant) that carry behaviour worth stating, with the
    properties proved about them.

    Conventions of the embedding.
    - A JavaScript string is its sequence of UTF-16 code units: [list N].
      Literals of the source are written with [lit "..."].
    - A JavaScript Number is modelled on its integer-valued fragment:
      [NaN] or an exact integer.  Doubles represent integers exactly up to
      2^53, so the embedding agrees with the script for magnitudes up to
      [MAX_SAFE_INTEGER]; statements that range over all parsed numbers
      carry that bound.
    - The regular expression of the countdown handler is run by a small
      backtracking matcher (leftmost start, alternatives left to right,
      greedy [+] giving characters back one at a time, numbered capture
      groups), which is how [String.prototype.match] evaluates it.
    - Timers ([setInterval], [setTimeout]) are pending entries of the page
      state; an event fires one of them.  Wall-clock time is not modelled:
      properties hold for every order in which pending timers fire. *)

From Stdlib Require Import ZArith NArith QArith Ascii String List Lia Bool.
From stdpp Require Import gmap strings list.
Close Scope Q_scope.
Open Scope Z_scope.

(** ** Strings *)

Module JsString.

(** One UTF-16 code unit. *)
Definition char : Type := N.

Fixpoint lit (s : string) : list char :=
  match s with
  | EmptyString => []
  | String a rest => N_of_ascii a :: lit rest
  end.

(** [\d] of a RegExp without the [u] flag, and a decimal digit of
    [parseInt]: U+0030 .. U+0039. *)
Definition is_digit (c : char) : bool := ((48 <=? c) && (c <=? 57))%N.

(** [\s] of a RegExp, and the StrWhiteSpaceChar of [parseInt] and of
    [String.prototype.trim]: WhiteSpace and LineTerminator code points. *)
Definition is_space (c : char) : bool :=
  (((9 <=? c) && (c <=? 13)) || (c =? 32) || (c =? 160) || (c =? 5760)
   || ((8192 <=? c) && (c <=? 8202)) || (c =? 8232) || (c =? 8233)
   || (c =? 8239) || (c =? 8287) || (c =? 12288) || (c =? 65279))%N.

Fixpoint drop_while (p : char -> bool) (s : list char) : list char :=
  match s with
  | c :: rest => if p c then drop_while p rest else s
  | [] => []
  end.

Fixpoint take_while (p : char -> bool) (s : list char) : list char :=
  match s with
  | c :: rest => if p c then c :: take_while p rest else []
  | [] => []
  end.

(** [s.startsWith(l)], returning what follows [l]. *)
Fixpoint strip_prefix (l s : list char) : option (list char) :=
  match l, s with
  | [], _ => Some s
  | a :: l', b :: s' => if (a =? b)%N then strip_prefix l' s' else None
  | _ :: _, [] => None
  end.

(** [String.prototype.trim]. *)
Definition trim (s : list char) : list char :=
  rev (drop_while is_space (rev (drop_while is_space s))).

(** The value, in base ten, of a run of decimal digits. *)
Definition digit_value (c : char) : Z := Z.of_N c - 48.

Definition decimal (ds : list char) : Z :=
  fold_left (fun acc c => acc * 10 + digit_value c) ds 0.

(** A non-empty run of characters of one class. *)
Definition run_of (cls : char -> bool) (w : list char) : bool :=
  match w with
  | [] => false
  | _ :: _ => forallb cls w
  end.

Definition starts_with (cls : char -> bool) (s : list char) : bool :=
  match s with
  | c :: _ => cls c
  | [] => false
  end.

End JsString.
Import JsString.

(** ** Numbers and values *)

Inductive Number : Type :=
| NaN
| Int (z : Z).

Definition MAX_SAFE_INTEGER : Z := 2 ^ 53 - 1.

Definition num_mul (a b : Number) : Number :=
  match a, b with
  | Int x, Int y => Int (x * y)
  | _, _ => NaN
  end.

Definition num_add (a b : Number) : Number :=
  match a, b with
  | Int x, Int y => Int (x + y)
  | _, _ => NaN
  end.

(** A variable declared by [let x;] holds [undefined] until assigned. *)
Inductive jsval : Type :=
| Undefined
| Num (n : Number).

(** ToBoolean on the values above, and on an optional string (a capture
    group that did not take part in the match is [undefined]). *)
Definition truthy (v : jsval) : bool :=
  match v with
  | Undefined => false
  | Num NaN => false
  | Num (Int z) => negb (z =? 0)
  end.

Definition truthy_str (o : option (list char)) : bool :=
  match o with
  | Some (_ :: _) => true
  | _ => false
  end.

(** [v > 0]: false for [undefined] (ToNumber gives NaN) and for NaN. *)
Definition gt_zero (v : jsval) : bool :=
  match v with
  | Num (Int z) => 0 <? z
  | _ => false
  end.

(** ** parseInt(string), radix omitted *)

Definition hex_value (c : char) : option Z :=
  if is_digit c then Some (Z.of_N c - 48)
  else if ((97 <=? c) && (c <=? 102))%N then Some (Z.of_N c - 87)
  else if ((65 <=? c) && (c <=? 70))%N then Some (Z.of_N c - 55)
  else None.

Definition radix_value (radix : Z) (c : char) : option Z :=
  if radix =? 16 then hex_value c
  else if is_digit c then Some (digit_value c) else None.

Definition is_radix_digit (radix : Z) (c : char) : bool :=
  match radix_value radix c with Some _ => true | None => false end.

Definition radix_number (radix : Z) (ds : list char) : Z :=
  fold_left (fun acc c => acc * radix + default 0 (radix_value radix c)) ds 0.

Definition parseInt (input : list char) : Number :=
  let s1 := drop_while is_space input in
  (* an optional sign *)
  let '(sign, s2) :=
    match s1 with
    | c :: rest =>
        if (c =? 45)%N then (-1, rest)
        else if (c =? 43)%N then (1, rest)
        else (1, s1)
    | [] => (1, s1)
    end in
  (* a 0x or 0X prefix selects radix 16, otherwise the radix is 10 *)
  let '(radix, s3) :=
    match s2 with
    | c0 :: c1 :: rest =>
        if ((c0 =? 48) && ((c1 =? 120) || (c1 =? 88)))%N then (16, rest)
        else (10, s2)
    | _ => (10, s2)
    end in
  match take_while (is_radix_digit radix) s3 with
  | [] => NaN
  | ds => Int (sign * radix_number radix ds)
  end.

(** ** Regular expressions: a backtracking matcher with capture groups *)

Module RegExp.

Inductive regex : Type :=
| RLit (l : list char)              (* a run of literal characters *)
| RPlus (cls : char -> bool)        (* C+ for a character class C, greedy *)
| RSeq (r1 r2 : regex)
| RAlt (r1 r2 : regex)
| RGroup (n : nat) (r : regex)      (* capture group number n *)
| REnd.                             (* $ without the m flag: end of input *)

(** [C+]: take as many characters of the class as there are, then give
    them back one at a time while the rest of the pattern fails. *)
Fixpoint plus_bt {R : Type} (cls : char -> bool) (s : list char)
    (k : list char -> option R) : option R :=
  match s with
  | c :: rest =>
      if cls c then
        match plus_bt cls rest k with
        | Some res => Some res
        | None => k rest
        end
      else None
  | [] => None
  end.

(** [rmatch r s caps k]: match [r] at the head of [s], then hand what is
    left of [s] and the captures to the continuation [k]; when [k] fails
    the next way of matching [r] is tried. *)
Fixpoint rmatch {R : Type} (r : regex) (s : list char)
    (caps : gmap nat (list char))
    (k : list char -> gmap nat (list char) -> option R) : option R :=
  match r with
  | RLit l =>
      match strip_prefix l s with
      | Some rest => k rest caps
      | None => None
      end
  | RPlus cls => plus_bt cls s (fun rest => k rest caps)
  | RSeq r1 r2 => rmatch r1 s caps (fun s1 c1 => rmatch r2 s1 c1 k)
  | RAlt r1 r2 =>
      match rmatch r1 s caps k with
      | Some res => Some res
      | None => rmatch r2 s caps k
      end
  | RGroup n r1 =>
      rmatch r1 s caps
        (fun rest c1 => k rest (<[n := take (length s - length rest) s]> c1))
  | REnd =>
      match s with
      | [] => k [] caps
      | _ :: _ => None
      end
  end.

(** One attempt of the pattern at the head of [s]. *)
Definition match_here (r : regex) (s : list char) : option (gmap nat (list char)) :=
  rmatch r s ∅ (fun _ caps => Some caps).

(** [s.match(r)] for a pattern without the [g] flag: the first start
    index, from 0 to the length of [s], at which the pattern matches;
    [None] is the [null] result. *)
Fixpoint exec (r : regex) (s : list char) : option (gmap nat (list char)) :=
  match match_here r s with
  | Some caps => Some caps
  | None =>
      match s with
      | [] => None
      | _ :: rest => exec r rest
      end
  end.

End RegExp.
Import RegExp.

Infix ">>>" := RSeq (at level 60, right associativity).

(** The pattern of the countdown handler:
    [/(\d+)\s+minute\(s\)\s+and\s+(\d+)\s+second\(s\)|(\d+)\s+second\(s\)/] *)
Definition timeRegex : regex :=
  RAlt
    (RGroup 1 (RPlus is_digit) >>> RPlus is_space >>> RLit (lit "minute(s)") >>>
     RPlus is_space >>> RLit (lit "and") >>> RPlus is_space >>>
     RGroup 2 (RPlus is_digit) >>> RPlus is_space >>> RLit (lit "second(s)"))
    (RGroup 3 (RPlus is_digit) >>> RPlus is_space >>> RLit (lit "second(s)")).

(** Lines 124-132 of the handler: the total computed from a match. *)
Definition totalSecondsOf (timeMatch : gmap nat (list char)) : jsval :=
  if truthy_str (timeMatch !! 1%nat) && truthy_str (timeMatch !! 2%nat) then
    Num (num_add (num_mul (parseInt (default [] (timeMatch !! 1%nat))) (Int 60))
                 (parseInt (default [] (timeMatch !! 2%nat))))
  else if truthy_str (timeMatch !! 3%nat) then
    Num (parseInt (default [] (timeMatch !! 3%nat)))
  else Undefined.

(** The duration parser of the handler: [None] when the pattern does not
    match ([timeMatch] is [null]). *)
Definition parseDuration (message : list char) : option jsval :=
  totalSecondsOf <$> exec timeRegex message.


(** ** Number to string, padStart, formatTime *)

Definition digit_char (d : Z) : char := Z.to_N (48 + d).

(** The decimal digits of a non-negative integer, most significant first.
    [fuel] bounds the number of digits. *)
Fixpoint digits_of (fuel : nat) (n : Z) (acc : list char) : list char :=
  match fuel with
  | O => acc
  | S fuel' =>
      let acc' := digit_char (n mod 10) :: acc in
      if n <? 10 then acc' else digits_of fuel' (n / 10) acc'
  end.

Definition digits_fuel (n : Z) : nat := S (Z.to_nat (Z.log2 n)).

(** Number.prototype.toString on an integer: sign and decimal digits. *)
Definition toString (z : Z) : list char :=
  if z <? 0 then 45%N :: digits_of (digits_fuel (- z)) (- z) []
  else digits_of (digits_fuel z) z [].

(** [s.padStart(targetLength, padString)]. *)
Definition padStart (targetLength : nat) (padString s : list char) : list char :=
  let fillLen := (targetLength - length s)%nat in
  take fillLen (concat (replicate fillLen padString)) ++ s.

(** [formatTime(seconds)]: [Math.floor(seconds / 60)] is the floor
    quotient, [seconds % 60] the remainder with the sign of [seconds]. *)
Definition formatTime (seconds : Z) : list char :=
  let minutes := seconds / 60 in
  let remainingSeconds := Z.rem seconds 60 in
  if 0 <? minutes then
    toString minutes ++ lit ":" ++ padStart 2 (lit "0") (toString remainingSeconds)
  else
    toString remainingSeconds ++ lit "s".

(** ** Progress percentage

    [((originalSeconds - totalSeconds) / originalSeconds) * 100].  The
    quotient of two Numbers is not an integer in general: the value is kept
    as the exact rational (in lowest terms) that the double approximates.
    A zero divisor gives NaN or an infinity: [NotFinite]. *)
Inductive percentage : Type :=
| NotFinite
| Percent (q : Q).

Definition progressPercentage (originalSeconds totalSeconds : Z) : percentage :=
  if originalSeconds =? 0 then NotFinite
  else Percent (Qred (inject_Z (originalSeconds - totalSeconds)
                        / inject_Z originalSeconds * inject_Z 100)%Q).

(** ** The lockout page

    The page state holds the elements the countdown and the submit gate
    read or write, and the script's pending timers.  The HTML template is
    not part of the sources; the page is taken to render at most one
    element of class [lockout-alert], and the ids [lockout-timer] and
    [progress-bar] and the classes [lockout-countdown] and
    [lockout-submission-warning] to occur only on the elements the script
    itself creates.  The other handlers of the script (auto-hide of
    [.alert] elements after five seconds, dropdown menus, animations) are
    not part of this state. *)

Module Lockout.

(** The notification rendered with class [lockout-alert]. *)
Record AlertEl : Type := {
  classList : gset string;
  reason : option (list char);    (* textContent of its .lockout-reason child *)
  background : option string;     (* style.background *)
  borderColor : option string     (* style.borderColor *)
}.

(** What the [div.lockout-countdown] currently holds (its innerHTML). *)
Inductive CountdownContent : Type :=
| CountdownMarkup     (* header, #lockout-timer, #progress-bar, info line *)
| ExpiredMarkup.      (* the "Account Unlocked!" notice and its button *)

(** The closure of [startLockoutCountdown]: its parameter [totalSeconds],
    which the interval callback decrements, the constant
    [originalSeconds], and whether the interval [countdown] is still
    scheduled. *)
Record Countdown : Type := {
  totalSeconds : Z;
  originalSeconds : Z;
  active : bool
}.

Inductive TimeoutAction : Type :=
| RemoveWarning (warning : nat)   (* remove that warning if still attached *)
| ResetAnimation.                 (* loginForm.style.animation = '' *)

Record Timeout : Type := {
  delay : Z;                      (* milliseconds *)
  action : TimeoutAction
}.

Record Page : Type := {
  alertEl : option AlertEl;
  countdownEl : option CountdownContent;
  timerEl : option (list char);            (* span#lockout-timer: textContent *)
  barEl : option (option percentage);      (* div#progress-bar: style.width, in % *)
  loginForm : option string;               (* form[action=""]: style.animation *)
  warningEl : option nat;                  (* the attached submission warning *)
  nextId : nat;                            (* identities of created warnings *)
  ticker : option Countdown;
  timeouts : list Timeout
}.

Definition set_alertEl (a : option AlertEl) (p : Page) : Page :=
  {| alertEl := a; countdownEl := countdownEl p; timerEl := timerEl p;
     barEl := barEl p; loginForm := loginForm p; warningEl := warningEl p;
     nextId := nextId p; ticker := ticker p; timeouts := timeouts p |}.

Definition set_countdownEl (c : option CountdownContent) (p : Page) : Page :=
  {| alertEl := alertEl p; countdownEl := c; timerEl := timerEl p;
     barEl := barEl p; loginForm := loginForm p; warningEl := warningEl p;
     nextId := nextId p; ticker := ticker p; timeouts := timeouts p |}.

Definition set_timerEl (t : option (list char)) (p : Page) : Page :=
  {| alertEl := alertEl p; countdownEl := countdownEl p; timerEl := t;
     barEl := barEl p; loginForm := loginForm p; warningEl := warningEl p;
     nextId := nextId p; ticker := ticker p; timeouts := timeouts p |}.

Definition set_barEl (b : option (option percentage)) (p : Page) : Page :=
  {| alertEl := alertEl p; countdownEl := countdownEl p; timerEl := timerEl p;
     barEl := b; loginForm := loginForm p; warningEl := warningEl p;
     nextId := nextId p; ticker := ticker p; timeouts := timeouts p |}.

Definition set_loginForm (f : option string) (p : Page) : Page :=
  {| alertEl := alertEl p; countdownEl := countdownEl p; timerEl := timerEl p;
     barEl := barEl p; loginForm := f; warningEl := warningEl p;
     nextId := nextId p; ticker := ticker p; timeouts := timeouts p |}.

Definition set_warningEl (w : option nat) (p : Page) : Page :=
  {| alertEl := alertEl p; countdownEl := countdownEl p; timerEl := timerEl p;
     barEl := barEl p; loginForm := loginForm p; warningEl := w;
     nextId := nextId p; ticker := ticker p; timeouts := timeouts p |}.

Definition set_nextId (n : nat) (p : Page) : Page :=
  {| alertEl := alertEl p; countdownEl := countdownEl p; timerEl := timerEl p;
     barEl := barEl p; loginForm := loginForm p; warningEl := warningEl p;
     nextId := n; ticker := ticker p; timeouts := timeouts p |}.

Definition set_ticker (c : option Countdown) (p : Page) : Page :=
  {| alertEl := alertEl p; countdownEl := countdownEl p; timerEl := timerEl p;
     barEl := barEl p; loginForm := loginForm p; warningEl := warningEl p;
     nextId := nextId p; ticker := c; timeouts := timeouts p |}.

Definition set_timeouts (ts : list Timeout) (p : Page) : Page :=
  {| alertEl := alertEl p; countdownEl := countdownEl p; timerEl := timerEl p;
     barEl := barEl p; loginForm := loginForm p; warningEl := warningEl p;
     nextId := nextId p; ticker := ticker p; timeouts := ts |}.

(** [document.querySelector('.lockout-alert')] *)
Definition query_lockout_alert (p : Page) : option AlertEl :=
  match alertEl p with
  | Some a => if bool_decide ("lockout-alert" ∈ classList a) then Some a else None
  | None => None
  end.

(** [showLockoutExpired()] *)
Definition showLockoutExpired (p : Page) : Page :=
  let lockoutAlert := query_lockout_alert p in
  let p1 :=
    match countdownEl p with
    | Some _ => set_countdownEl (Some ExpiredMarkup) p
    | None => p
    end in
  match lockoutAlert with
  | Some a =>
      set_alertEl
        (Some {| classList := (classList a ∖ {["lockout-alert"]}) ∪ {["alert-success"]};
                 reason := reason a;
                 background := Some "linear-gradient(135deg, #f0fff4, #c6f6d5)";
                 borderColor := Some "#68d391" |}) p1
  | None => p1
  end.

(** [startLockoutCountdown(totalSeconds)]: the interval is scheduled every
    1000 ms.  The two elements looked up by id are the page fields
    [timerEl] and [barEl]; an element found at start stays alive in the
    closure, so the guards of the callback read these fields. *)
Definition startLockoutCountdown (total : Z) (p : Page) : Page :=
  set_ticker (Some {| totalSeconds := total; originalSeconds := total;
                      active := true |}) p.

(** The interval callback of [startLockoutCountdown]. *)
Definition countdownCallback (c : Countdown) (p : Page) : Page :=
  let total' := totalSeconds c - 1 in
  let p1 := set_ticker (Some {| totalSeconds := total';
                                originalSeconds := originalSeconds c;
                                active := active c |}) p in
  let p2 :=
    match timerEl p1 with
    | Some _ => set_timerEl (Some (formatTime total')) p1
    | None => p1
    end in
  let p3 :=
    match barEl p2 with
    | Some _ =>
        set_barEl (Some (Some (progressPercentage (originalSeconds c) total'))) p2
    | None => p2
    end in
  if total' <=? 0 then
    (* clearInterval(countdown); showLockoutExpired(); *)
    showLockoutExpired
      (set_ticker (Some {| totalSeconds := total';
                           originalSeconds := originalSeconds c;
                           active := false |}) p3)
  else p3.

(** The DOMContentLoaded handler of the countdown (lines 112-162). *)
Definition countdownOnLoad (p : Page) : Page :=
  match query_lockout_alert p with
  | Some lockoutAlert =>
      match reason lockoutAlert with
      | Some message =>
          match exec timeRegex message with
          | Some timeMatch =>
              let total := totalSecondsOf timeMatch in
              if truthy total && gt_zero total then
                match total with
                | Num (Int z) =>
                    startLockoutCountdown z
                      (set_barEl (Some None)
                         (set_timerEl (Some (formatTime z))
                            (set_countdownEl (Some CountdownMarkup) p)))
                | _ => p
                end
              else p
          | None => p
          end
      | None => p
      end
  | None => p
  end.

(** The submit handler of the login form (lines 232-268): the page after
    it, and whether it called [preventDefault]. *)
Definition loginSubmit (p : Page) : bool * Page :=
  match query_lockout_alert p with
  | Some lockoutAlert =>
      if negb (bool_decide ("alert-success" ∈ classList lockoutAlert)) then
        let p1 := set_loginForm (Some "shake 0.5s ease-in-out") p in
        let p2 :=
          match warningEl p1 with
          | Some _ => p1
          | None =>
              let warning := nextId p1 in
              set_timeouts
                (timeouts p1 ++ [{| delay := 5000; action := RemoveWarning warning |}])
                (set_nextId (S warning) (set_warningEl (Some warning) p1))
          end in
        (true,
         set_timeouts (timeouts p2 ++ [{| delay := 500; action := ResetAnimation |}]) p2)
      else (false, p)
  | None => (false, p)
  end.

Definition runTimeout (t : Timeout) (p : Page) : Page :=
  match action t with
  | RemoveWarning warning =>
      match warningEl p with
      | Some w => if (w =? warning)%nat then set_warningEl None p else p
      | None => p
      end
  | ResetAnimation =>
      match loginForm p with
      | Some _ => set_loginForm (Some "") p
      | None => p
      end
  end.

(** What can happen after the page has loaded. *)
Inductive event : Type :=
| TickFires                 (* the interval of the countdown comes due *)
| SubmitLogin               (* a submit event on the login form *)
| TimeoutFires (i : nat).   (* the i-th pending timeout comes due *)

(** A cleared interval never fires; a submit handler exists only when
    the page has a login form. *)
Definition step (p : Page) (e : event) : Page :=
  match e with
  | TickFires =>
      match ticker p with
      | Some c => if active c then countdownCallback c p else p
      | None => p
      end
  | SubmitLogin =>
      match loginForm p with
      | Some _ => snd (loginSubmit p)
      | None => p
      end
  | TimeoutFires i =>
      match timeouts p !! i with
      | Some t => runTimeout t (set_timeouts (delete i (timeouts p)) p)
      | None => p
      end
  end.

Definition run (evs : list event) (p : Page) : Page := fold_left step evs p.

(** The page as the server renders it: nothing created by the script yet. *)
Definition rendered (alert : option AlertEl) (form : option string) : Page :=
  {| alertEl := alert; countdownEl := None; timerEl := None; barEl := None;
     loginForm := form; warningEl := None; nextId := O; ticker := None;
     timeouts := [] |}.

(** A lockout alert as rendered, carrying [message]. *)
Definition lockedAlert (message : list char) : AlertEl :=
  {| classList := {["lockout-alert"]}; reason := Some message;
     background := None; borderColor := None |}.

(** A page rendered with that alert and a login form. *)
Definition lockedPage (message : list char) : Page :=
  rendered (Some (lockedAlert message)) (Some "").

(** The states of the countdown controller. *)
Inductive phase : Type := Idle | Running | Expired.

Definition phaseOf (p : Page) : phase :=
  match ticker p with
  | None => Idle
  | Some c => if active c then Running else Expired
  end.

End Lockout.

(** ** Password visibility toggle

    Elements live in a store indexed by identity; a property or attribute
    read or written by the script is an entry of the element's [props].
    [img] is the element's first [img] descendant, the result of
    [querySelector('img')] on it. *)

Module PasswordToggle.

Record Element : Type := {
  props : gmap string string;
  img : option nat
}.

Definition set_prop (k v : string) (e : Element) : Element :=
  {| props := <[k := v]> (props e); img := img e |}.

Definition get_prop (n : nat) (k : string) (d : gmap nat Element) : option string :=
  d !! n ≫= fun e => props e !! k.

(** [togglePasswordField(field, toggle)] of static/js/main.js *)
Definition togglePasswordField (field toggle : nat) (d : gmap nat Element)
    : gmap nat Element :=
  let icon := d !! toggle ≫= img in
  if bool_decide (get_prop field "type" d = Some "password") then
    let d1 := alter (set_prop "type" "text") field d in
    let d2 :=
      match icon with
      | Some i =>
          alter (set_prop "alt" "Hide password") i
            (alter (set_prop "src" "/static/uploads/eye-slash.png") i d1)
      | None => d1
      end in
    alter (set_prop "title" "Hide password") toggle
      (alter (set_prop "aria-label" "Hide password") toggle d2)
  else
    let d1 := alter (set_prop "type" "password") field d in
    let d2 :=
      match icon with
      | Some i =>
          alter (set_prop "alt" "Show password") i
            (alter (set_prop "src" "/static/uploads/eye.png") i d1)
      | None => d1
      end in
    alter (set_prop "title" "Show password") toggle
      (alter (set_prop "aria-label" "Show password") toggle d2).

(** [toggleSpecificPasswordWithImages(field, toggle)] of
    final_v2/static/js/main.js *)
Definition toggleSpecificPasswordWithImages (field toggle : nat)
    (d : gmap nat Element) : gmap nat Element :=
  let icon := d !! toggle ≫= img in
  if bool_decide (get_prop field "type" d = Some "password") then
    let d1 := alter (set_prop "type" "text") field d in
    let d2 :=
      match icon with
      | Some i =>
          alter (set_prop "alt" "Hide password") i
            (alter (set_prop "src" "/static/uploads/eye-slash.png") i d1)
      | None => d1
      end in
    alter (set_prop "title" "Hide password") toggle
      (alter (set_prop "aria-label" "Hide password") toggle d2)
  else
    let d1 := alter (set_prop "type" "password") field d in
    let d2 :=
      match icon with
      | Some i =>
          alter (set_prop "alt" "Show password") i
            (alter (set_prop "src" "/static/uploads/eye.png") i d1)
      | None => d1
      end in
    alter (set_prop "title" "Show password") toggle
      (alter (set_prop "aria-label" "Show password") toggle d2).

(** A password input, its toggle button and the button's icon, as the
    load handler of static/js/main.js creates them. *)
Definition samplePage : gmap nat Element :=
  {[ 0%nat := {| props := {[ "type" := "password" ]}; img := None |};
     1%nat := {| props := {[ "type" := "button"; "aria-label" := "Show password";
                             "title" := "Show password" ]};
                 img := Some 2%nat |};
     2%nat := {| props := {[ "src" := "/static/uploads/eye.png";
                             "alt" := "Show password" ]};
                 img := None |} ]}.

End PasswordToggle.

(** ** Field validator *)

Module Validator.

Record Field : Type := {
  value : list char;        (* field.value *)
  type : string;            (* field.type *)
  id : string;              (* field.id *)
  required : bool;          (* field.hasAttribute('required') *)
  errorClass : bool;        (* field.classList.contains('error') *)
  parent : nat              (* field.parentNode *)
}.

(** The fields of the document in document order, and for each parent
    node the texts of the [.field-error] elements below it, in document
    order. *)
Record Doc : Type := {
  fields : list Field;
  errors : gmap nat (list (list char))
}.

Definition set_errorClass (b : bool) (f : Field) : Field :=
  {| value := value f; type := type f; id := id f; required := required f;
     errorClass := b; parent := parent f |}.

(** [/^[^\s@]+@[^\s@]+\.[^\s@]+$/]; a pattern that starts with [^] can
    match at start index 0 only, so [test] is one attempt at the head. *)
Definition not_space_or_at (c : char) : bool :=
  negb (is_space c) && negb (c =? 64)%N.

Definition emailRegex : regex :=
  RPlus not_space_or_at >>> RLit (lit "@") >>> RPlus not_space_or_at >>>
  RLit (lit ".") >>> RPlus not_space_or_at >>> REnd.

Definition emailRegex_test (s : list char) : bool :=
  match match_here emailRegex s with
  | Some _ => true
  | None => false
  end.

(** [document.getElementById(name)]: the first element with that id. *)
Definition getElementById (name : string) (doc : Doc) : option Field :=
  snd <$> list_find (fun f => id f = name) (fields doc).

(** [showFieldError(field, message)] *)
Definition showFieldError (i : nat) (message : list char) (doc : Doc) : Doc :=
  match fields doc !! i with
  | Some field =>
      {| fields := <[i := set_errorClass true field]> (fields doc);
         errors := <[parent field := default [] (errors doc !! parent field) ++ [message]]>
                     (errors doc) |}
  | None => doc
  end.

(** The head of [validateField]: drop the [error] class and remove the
    first [.field-error] found under the parent. *)
Definition clearFieldError (i : nat) (doc : Doc) : Doc :=
  match fields doc !! i with
  | Some field =>
      {| fields := <[i := set_errorClass false field]> (fields doc);
         errors := match errors doc !! parent field with
                   | Some (_ :: rest) => <[parent field := rest]> (errors doc)
                   | _ => errors doc
                   end |}
  | None => doc
  end.

(** One rule of [validateField]: an [if] block that, when its condition
    holds, sets [isValid] to false and calls [showFieldError]. *)
Definition rule (i : nat) (cond : bool) (message : list char)
    (st : bool * Doc) : bool * Doc :=
  if cond then (false, showFieldError i message (snd st)) else st.

(** [validateField(field)], [field] being the [i]-th field: the value of
    [isValid] that is returned, and the document after the call. *)
Definition validateField (i : nat) (doc : Doc) : bool * Doc :=
  match fields doc !! i with
  | None => (true, doc)
  | Some field =>
      let v := trim (value field) in
      let nonempty := negb (bool_decide (v = [])) in
      let st0 := (true, clearFieldError i doc) in
      let st1 :=
        rule i (required field && negb nonempty)
          (lit "This field is required") st0 in
      let st2 :=
        rule i (bool_decide (type field = "email") && nonempty
                && negb (emailRegex_test v))
          (lit "Please enter a valid email address") st1 in
      let st3 :=
        rule i (bool_decide (id field = "register_password") && nonempty
                && (length v <? 8)%nat)
          (lit "Password must be at least 8 characters long") st2 in
      rule i (bool_decide (id field = "confirm_password") && nonempty
              && match getElementById "register_password" (snd st3) with
                 | Some passwordField => negb (bool_decide (v = value passwordField))
                 | None => false
                 end)
        (lit "Passwords do not match") st3
  end.

(** The email shape, stated apart from the matcher: a local part, "@",
    a domain, "." and a last part, each a non-empty run of characters
    that are neither white space nor "@". *)
Definition emailShape (v : list char) : Prop :=
  exists a b c,
    run_of not_space_or_at a = true /\ run_of not_space_or_at b = true
    /\ run_of not_space_or_at c = true
    /\ v = a ++ lit "@" ++ b ++ lit "." ++ c.

(** The rules as the contract of the validator lists them, each with the
    condition under which it fails and its message: from the trimmed value
    [v], the kind of the field (type, id, required) and the value of the
    companion password field, if there is one. *)
Definition rules (v : list char) (type id : string) (required : bool)
    (companion : option (list char)) : list (bool * list char) :=
  [ (required && bool_decide (v = []),
     lit "This field is required");
    (bool_decide (type = "email") && negb (bool_decide (v = []))
     && negb (emailRegex_test v),
     lit "Please enter a valid email address");
    (bool_decide (id = "register_password") && negb (bool_decide (v = []))
     && (length v <? 8)%nat,
     lit "Password must be at least 8 characters long");
    (bool_decide (id = "confirm_password") && negb (bool_decide (v = []))
     && match companion with
        | Some password => negb (bool_decide (v = password))
        | None => false
        end,
     lit "Passwords do not match") ].

(** Valid when no rule fails; the messages are those of the failed rules. *)
Definition verdict (v : list char) (type id : string) (required : bool)
    (companion : option (list char)) : bool :=
  forallb (fun r => negb (fst r)) (rules v type id required companion).

Definition messages (v : list char) (type id : string) (required : bool)
    (companion : option (list char)) : list (list char) :=
  map snd (List.filter fst (rules v type id required companion)).

(** The texts of the error elements under the parent of a field. *)
Definition shownUnder (doc : Doc) (f : Field) : list (list char) :=
  default [] (errors doc !! parent f).

(** [doc'] is [doc] with, at most, the error mark of its [i]-th field
    [field] set to [b] and other error messages shown. *)
Definition markedAs (i : nat) (doc : Doc) (field : Field) (b : bool)
    (doc' : Doc) : Prop :=
  fields doc' = <[i := set_errorClass b field]> (fields doc).

(** A registration form: e-mail, password and confirmation, each in its
    own parent. *)
Definition sampleForm (email password confirm : list char) : Doc :=
  {| fields :=
       [ {| value := email; type := "email"; id := "email"; required := true;
            errorClass := false; parent := 10%nat |};
         {| value := password; type := "password"; id := "register_password";
            required := true; errorClass := false; parent := 11%nat |};
         {| value := confirm; type := "password"; id := "confirm_password";
            required := true; errorClass := false; parent := 12%nat |} ];
     errors := ∅ |}.

End Validator.

(** ** File size guard *)

Module FileInput.

Record File : Type := { size : Z }.

(** An [input type="file"]: its selected files and its [value]. *)
Record Input : Type := {
  files : list File;
  value : list char
}.

(** The [change] listener: whether [alert] was called, and the input
    afterwards.  Assigning [''] to the [value] of a file input empties
    its list of selected files. *)
Definition onChange (target : Input) : bool * Input :=
  match files target with
  | file :: _ =>
      if 5 * 1024 * 1024 <? size file then (true, {| files := []; value := [] |})
      else (false, target)
  | [] => (false, target)
  end.

End FileInput.

(** ** The two duration shapes, stated apart from the matcher *)

(** "<m> minute(s) and <s> second(s)": digits [m] and [s], separated from
    the words by the runs of white space [w1] .. [w4]. *)
Definition minutesSecondsShape (m w1 w2 w3 s w4 : list char) : list char :=
  m ++ w1 ++ lit "minute(s)" ++ w2 ++ lit "and" ++ w3 ++ s ++ w4 ++ lit "second(s)".

(** "<s> second(s)" *)
Definition secondsShape (s w : list char) : list char :=
  s ++ w ++ lit "second(s)".

(** A duration as the message spells it. *)
Inductive duration : Type :=
| MinutesSeconds (m w1 w2 w3 s w4 : list char)
| SecondsOnly (s w : list char).

Definition wellFormed (d : duration) : bool :=
  match d with
  | MinutesSeconds m w1 w2 w3 s w4 =>
      run_of is_digit m && run_of is_space w1 && run_of is_space w2
      && run_of is_space w3 && run_of is_digit s && run_of is_space w4
  | SecondsOnly s w => run_of is_digit s && run_of is_space w
  end.

Definition durationText (d : duration) : list char :=
  match d with
  | MinutesSeconds m w1 w2 w3 s w4 => minutesSecondsShape m w1 w2 w3 s w4
  | SecondsOnly s w => secondsShape s w
  end.

(** The number of seconds a duration denotes. *)
Definition durationSeconds (d : duration) : Z :=
  match d with
  | MinutesSeconds m _ _ _ s _ => decimal m * 60 + decimal s
  | SecondsOnly s _ => decimal s
  end.

(** A text begins with a duration. *)
Definition startsWithDuration (t : list char) : Prop :=
  exists d rest, wellFormed d = true /\ t = durationText d ++ rest.

(** A message contains a duration when one of the shapes occurs in it. *)
Definition containsDuration (message : list char) : Prop :=
  exists pre d post,
    wellFormed d = true /\ message = pre ++ durationText d ++ post.

(** What a pattern matches, without reference to the order in which the
    matcher tries things: [matches r s rest] when [r] matches a prefix of
    [s] and [rest] is what follows it. *)
Inductive matches : regex -> list char -> list char -> Prop :=
| M_lit l rest : matches (RLit l) (l ++ rest) rest
| M_plus cls w rest : run_of cls w = true -> matches (RPlus cls) (w ++ rest) rest
| M_seq r1 r2 s s1 s2 :
    matches r1 s s1 -> matches r2 s1 s2 -> matches (RSeq r1 r2) s s2
| M_alt_l r1 r2 s rest : matches r1 s rest -> matches (RAlt r1 r2) s rest
| M_alt_r r1 r2 s rest : matches r2 s rest -> matches (RAlt r1 r2) s rest
| M_group n r s rest : matches r s rest -> matches (RGroup n r) s rest
| M_end : matches REnd [] [].

(** No attempt of the pattern succeeds at a start index inside [pre], the
    text in front of [rest]. *)
Fixpoint no_match_before (r : regex) (pre rest : list char) : bool :=
  match pre with
  | [] => true
  | _ :: pre' =>
      match match_here r (pre ++ rest) with
      | Some _ => false
      | None => no_match_before r pre' rest
      end
  end.

(** ** Invariants of the lockout page *)

Import Lockout.

(** The counter of a countdown started with [T] seconds. *)
Definition countdownInv (T : Z) (p : Page) : Prop :=
  exists c, ticker p = Some c /\ originalSeconds c = T
            /\ 0 <= totalSeconds c <= T
            /\ (active c = true -> 0 < totalSeconds c)
            /\ (active c = false -> totalSeconds c = 0).

(** The alert is in the "locked" category: it carries [lockout-alert] and
    not [alert-success]. *)
Definition locked (p : Page) : Prop :=
  exists a, alertEl p = Some a /\ "lockout-alert" ∈ classList a
            /\ "alert-success" ∉ classList a.

(** The alert has been recategorized: it no longer carries
    [lockout-alert]. *)
Definition unlocked (p : Page) : Prop :=
  forall a, alertEl p = Some a -> "lockout-alert" ∉ classList a.

(** The category of the alert follows the phase of the countdown. *)
Definition gateInv (p : Page) : Prop :=
  match phaseOf p with
  | Expired => unlocked p
  | _ => locked p
  end.

(** An attached warning has its removal timer pending. *)
Definition warningInv (p : Page) : Prop :=
  forall w, warningEl p = Some w ->
            {| delay := 5000; action := RemoveWarning w |} ∈ timeouts p.

(** No division by zero has been, or will be, performed for the bar. *)
Definition divisorInv (p : Page) : Prop :=
  (forall c, ticker p = Some c -> 0 < originalSeconds c)
  /\ barEl p <> Some (Some NotFinite).

(** The submit handler created a warning element in going from [p] to
    [p']. *)
Definition warningInserted (p p' : Page) : Prop :=
  exists w, warningEl p' = Some w /\ (nextId p <= w)%nat.

(** A page locked for 45 seconds on which one submit attempt has just been
    blocked: its warning is still shown. *)
Definition afterFirstAttempt : Page :=
  run [SubmitLogin] (countdownOnLoad (lockedPage (lit "45 second(s)"))).

(** Two pages that show the same countdown widget: they may differ in
    the login form, the submission warning and the pending timeouts. *)
Definition sameWidget (p q : Page) : Prop :=
  alertEl q = alertEl p /\ countdownEl q = countdownEl p
  /\ timerEl q = timerEl p /\ barEl q = barEl p /\ ticker q = ticker p.

(** ** Further invariants of the lockout page *)

(** What the countdown block displays agrees with the counter: the timer
    text is the formatted counter, and the bar has no width before the
    first tick and the elapsed percentage afterwards. *)
Definition displayInv (p : Page) : Prop :=
  forall c, ticker p = Some c ->
    timerEl p = Some (formatTime (totalSeconds c))
    /\ ((barEl p = Some None /\ totalSeconds c = originalSeconds c)
        \/ barEl p = Some (Some (progressPercentage (originalSeconds c)
                                   (totalSeconds c)))).

(** The warnings that pending removal timers refer to, in timer order. *)
Fixpoint removalTargets (ts : list Timeout) : list nat :=
  match ts with
  | [] => []
  | t :: rest =>
      match action t with
      | RemoveWarning w => w :: removalTargets rest
      | ResetAnimation => removalTargets rest
      end
  end.

(** Exactly the attached warning has a removal timer, and only one. *)
Definition removalInv (p : Page) : Prop :=
  removalTargets (timeouts p)
  = match warningEl p with
    | Some w => [w]
    | None => []
    end.

(** A form that is shaking has its reset pending. *)
Definition shakeInv (p : Page) : Prop :=
  loginForm p = Some "shake 0.5s ease-in-out" ->
  {| delay := 500; action := ResetAnimation |} ∈ timeouts p.

(** ** The validator's listeners

    The load handler attaches to every required input, textarea and
    select of a form a [blur] listener that validates the control, and an
    [input] listener that validates it only when it carries the [error]
    class.  An [Input] event is an edit by the user: the value of the
    control changes, then the listener runs. *)

Module FieldEvents.
Import Validator.

Definition set_value (v : list char) (f : Field) : Field :=
  {| value := v; type := type f; id := id f; required := required f;
     errorClass := errorClass f; parent := parent f |}.

Inductive event : Type :=
| Blur (i : nat)
| Input (i : nat) (v : list char).

Definition onBlur (i : nat) (doc : Doc) : Doc :=
  match fields doc !! i with
  | Some field => if required field then snd (validateField i doc) else doc
  | None => doc
  end.

Definition onInput (i : nat) (doc : Doc) : Doc :=
  match fields doc !! i with
  | Some field =>
      if required field && errorClass field then snd (validateField i doc) else doc
  | None => doc
  end.

Definition edit (i : nat) (v : list char) (doc : Doc) : Doc :=
  {| fields := alter (set_value v) i (fields doc); errors := errors doc |}.

Definition step (doc : Doc) (e : event) : Doc :=
  match e with
  | Blur i => onBlur i doc
  | Input i v => onInput i (edit i v doc)
  end.

Definition run (evs : list event) (doc : Doc) : Doc := fold_left step evs doc.

(** No control carries the [error] class, as on a freshly rendered form. *)
Definition unmarked (doc : Doc) : Prop :=
  forall f, f ∈ fields doc -> errorClass f = false.

End FieldEvents.

(** ** The submit listeners of every form

    Two load handlers attach a [submit] listener to each form of the page:
    the first checks the form's [required] controls, the second puts the
    submit button in a loading state and restores it 10 seconds later.
    Listeners of one form run in the order of their registration, and
    [preventDefault] in one of them does not keep the next ones from
    running.  The required controls are form controls: their [value] is a
    string. *)

Module FormSubmit.

Record Control : Type := {
  value : list char;              (* field.value *)
  borderColor : option string     (* field.style.borderColor *)
}.

Definition set_borderColor (c : string) (f : Control) : Control :=
  {| value := value f; borderColor := Some c |}.

(** The callback of [requiredFields.forEach]: the controls visited so
    far, and [hasErrors]. *)
Definition visit (st : list Control * bool) (field : Control)
    : list Control * bool :=
  if bool_decide (trim (value field) = []) then
    (fst st ++ [set_borderColor "var(--danger-color)" field], true)
  else
    (fst st ++ [set_borderColor "var(--border-color)" field], snd st).

Definition requiredCheck (requiredFields : list Control) : list Control * bool :=
  fold_left visit requiredFields ([], false).

(** The first submit control of a form, with the attribute
    [data-original-text]. *)
Record Button : Type := {
  innerHTML : string;
  disabled : bool;
  dataOriginalText : option string
}.

Record Form : Type := {
  requiredFields : list Control;
  submitBtn : option Button;
  restores : nat                  (* pending timeouts of 10000 ms *)
}.

(** What the listeners of one [submit] event did. *)
Record Dispatch : Type := {
  form : Form;
  defaultPrevented : bool;
  alerts : list string
}.

(** At load: [submitBtn.setAttribute('data-original-text', submitBtn.innerHTML)]. *)
Definition onLoad (f : Form) : Form :=
  {| requiredFields := requiredFields f;
     submitBtn :=
       (fun b => {| innerHTML := innerHTML b; disabled := disabled b;
                    dataOriginalText := Some (innerHTML b) |}) <$> submitBtn f;
     restores := restores f |}.

(** The listener of the required check, on an event whose default may
    already have been prevented. *)
Definition checkListener (d : Dispatch) : Dispatch :=
  let st := requiredCheck (requiredFields (form d)) in
  {| form := {| requiredFields := fst st; submitBtn := submitBtn (form d);
                restores := restores (form d) |};
     defaultPrevented := defaultPrevented d || snd st;
     alerts := if snd st then alerts d ++ ["Please fill in all required fields."]
               else alerts d |}.

(** The listener of the loading state. *)
Definition loadingListener (d : Dispatch) : Dispatch :=
  match submitBtn (form d) with
  | Some b =>
      {| form := {| requiredFields := requiredFields (form d);
                    submitBtn := Some {| innerHTML := "Processing...";
                                         disabled := true;
                                         dataOriginalText := dataOriginalText b |};
                    restores := S (restores (form d)) |};
         defaultPrevented := defaultPrevented d;
         alerts := alerts d |}
  | None => d
  end.

(** One [submit] event on a form other than the login form. *)
Definition submit (f : Form) : Dispatch :=
  loadingListener
    (checkListener {| form := f; defaultPrevented := false; alerts := [] |}).

(** The callback of the timeout:
    [getAttribute('data-original-text') || 'Submit']. *)
Definition restore (f : Form) : Form :=
  {| requiredFields := requiredFields f;
     submitBtn :=
       (fun b => {| innerHTML := match dataOriginalText b with
                                 | Some t => if bool_decide (t = "") then "Submit" else t
                                 | None => "Submit"
                                 end;
                    disabled := false;
                    dataOriginalText := dataOriginalText b |}) <$> submitBtn f;
     restores := restores f |}.

Inductive event : Type :=
| Submit            (* a submit event on the form *)
| RestoreFires.     (* a pending timeout of 10000 ms comes due *)

Definition step (f : Form) (e : event) : Form :=
  match e with
  | Submit => form (submit f)
  | RestoreFires =>
      match restores f with
      | S n =>
          restore {| requiredFields := requiredFields f; submitBtn := submitBtn f;
                     restores := n |}
      | O => f
      end
  end.

Definition run (evs : list event) (f : Form) : Form := fold_left step evs f.


(** A value that [trim] empties: every character is white space. *)
Definition blank (v : list char) : bool := forallb is_space v.

(** The border the check leaves on a required control. *)
Definition mark (c : Control) : Control :=
  set_borderColor
    (if blank (value c) then "var(--danger-color)" else "var(--border-color)") c.

End FormSubmit.

(** ** Flash messages

    The first load handler collects the elements of class [alert] and
    starts, for each, a timeout of 5000 ms that fades it and starts a
    second timeout of 500 ms that takes it off the display.  An element is
    named by its position in the document at load; the callbacks hold on to
    the elements they were created for. *)

Module Flash.

Record Element : Type := {
  classList : gset string;
  transition : option string;     (* style.transition *)
  opacity : option string;        (* style.opacity *)
  display : option string         (* style.display *)
}.

Inductive Callback : Type :=
| Fade (alert : nat)              (* the callback of the outer setTimeout *)
| Hide (alert : nat).             (* the callback of the inner setTimeout *)

Record Timeout : Type := {
  delay : Z;                      (* milliseconds *)
  callback : Callback
}.

Record Page : Type := {
  elements : list Element;
  timeouts : list Timeout         (* pending, in the order they were set *)
}.

(** [document.querySelectorAll('.' + cls)], as positions from [i] on. *)
Fixpoint querySelectorAll (cls : string) (els : list Element) (i : nat) : list nat :=
  match els with
  | [] => []
  | e :: rest =>
      if bool_decide (cls ∈ classList e)
      then i :: querySelectorAll cls rest (S i)
      else querySelectorAll cls rest (S i)
  end.

Definition onLoad (p : Page) : Page :=
  {| elements := elements p;
     timeouts :=
       timeouts p
       ++ ((fun alert => {| delay := 5000; callback := Fade alert |})
             <$> querySelectorAll "alert" (elements p) 0) |}.

Definition fade (e : Element) : Element :=
  {| classList := classList e; transition := Some "opacity 0.5s ease-out";
     opacity := Some "0"; display := display e |}.

Definition hide (e : Element) : Element :=
  {| classList := classList e; transition := transition e;
     opacity := opacity e; display := Some "none" |}.

Definition runCallback (c : Callback) (p : Page) : Page :=
  match c with
  | Fade alert =>
      {| elements := alter fade alert (elements p);
         timeouts := timeouts p ++ [{| delay := 500; callback := Hide alert |}] |}
  | Hide alert =>
      {| elements := alter hide alert (elements p); timeouts := timeouts p |}
  end.

(** The [k]-th pending timeout comes due. *)
Definition step (p : Page) (k : nat) : Page :=
  match timeouts p !! k with
  | Some t =>
      runCallback (callback t)
        {| elements := elements p; timeouts := delete k (timeouts p) |}
  | None => p
  end.

Definition run (ks : list nat) (p : Page) : Page := fold_left step ks p.

(** The page as the server renders it. *)
Definition rendered (els : list Element) : Page :=
  {| elements := els; timeouts := [] |}.

Definition isAlert (e : Element) : bool := bool_decide ("alert" ∈ classList e).

(** The callbacks still to run. *)
Definition pending (p : Page) : list Callback := callback <$> timeouts p.

(** Where one alert stands: waiting for its fade, faded and waiting to be
    hidden, or hidden; an element that is no alert is as rendered and no
    timeout refers to it. *)
Definition flashInv (els : list Element) (p : Page) : Prop :=
  NoDup (pending p)
  /\ length (elements p) = length els
  /\ (forall i, (length els <= i)%nat ->
        (Fade i ∉ pending p) /\ (Hide i ∉ pending p))
  /\ forall i e, els !! i = Some e ->
       if isAlert e then
         (elements p !! i = Some e
          /\ (Fade i ∈ pending p) /\ (Hide i ∉ pending p))
         \/ (elements p !! i = Some (fade e)
             /\ (Fade i ∉ pending p) /\ (Hide i ∈ pending p))
         \/ (elements p !! i = Some (hide (fade e))
             /\ (Fade i ∉ pending p) /\ (Hide i ∉ pending p))
       else
         elements p !! i = Some e
         /\ (Fade i ∉ pending p) /\ (Hide i ∉ pending p).

(** Two steps are left for a fade, one for a hide. *)
Definition stepsLeft (p : Page) : nat :=
  sum_list_with (fun t => match callback t with Fade _ => 2%nat | Hide _ => 1%nat end)
    (timeouts p).

End Flash.

(** ** The volunteer checkbox of the admin form *)

Module Volunteer.

Record Page : Type := {
  volunteerCheckbox : option bool;        (* #is_volunteer: checked *)
  approveGroup : option (option string);  (* #approve-volunteer-group: style.display *)
  approveCheckbox : option bool           (* #approve_volunteer: checked *)
}.

Definition toggleApproveOption (p : Page) : Page :=
  match volunteerCheckbox p with
  | Some true =>
      {| volunteerCheckbox := volunteerCheckbox p;
         approveGroup := Some (Some "block");
         approveCheckbox := approveCheckbox p |}
  | Some false =>
      {| volunteerCheckbox := volunteerCheckbox p;
         approveGroup := Some (Some "none");
         approveCheckbox := (fun _ => false) <$> approveCheckbox p |}
  | None => p
  end.

(** Whether the handler found both elements, and so ran the function and
    attached the listener. *)
Definition wired (p : Page) : bool :=
  match volunteerCheckbox p, approveGroup p with
  | Some _, Some _ => true
  | _, _ => false
  end.

Definition onLoad (p : Page) : Page :=
  if wired p then toggleApproveOption p else p.

Inductive event : Type :=
| ChangeVolunteer     (* the user flips #is_volunteer; its change event fires *)
| ClickApprove.       (* the user flips #approve_volunteer *)

Definition step (p : Page) (e : event) : Page :=
  match e with
  | ChangeVolunteer =>
      let p1 := {| volunteerCheckbox := negb <$> volunteerCheckbox p;
                   approveGroup := approveGroup p;
                   approveCheckbox := approveCheckbox p |} in
      if wired p1 then toggleApproveOption p1 else p1
  | ClickApprove =>
      {| volunteerCheckbox := volunteerCheckbox p;
         approveGroup := approveGroup p;
         approveCheckbox := negb <$> approveCheckbox p |}
  end.

Definition run (evs : list event) (p : Page) : Page := fold_left step evs p.

End Volunteer.

(** ** Dropdown menus

    For every element of class [dropdown] the load handler looks up its
    toggle and its menu and keeps two variables, [hoverTimeout] and
    [isHovering]; when both toggle and menu exist it attaches mouse and
    touch listeners.  A click outside every dropdown closes all menus.
    Timers are named by the identifier [setTimeout] returns; identifiers
    are not reused.  A dropdown is named by its position among the
    dropdowns of the page, and each dropdown has its own menu. *)

Module Dropdown.

(** The inline style of a menu. *)
Record Style : Type := {
  display : option string;
  opacity : option string;
  visibility : option string
}.

Record Item : Type := {
  hasToggle : bool;               (* dropdown.querySelector('.dropdown-toggle') *)
  menu : option Style;            (* dropdown.querySelector('.dropdown-menu') *)
  hoverTimeout : option nat;      (* let hoverTimeout *)
  isHovering : bool               (* let isHovering *)
}.

Inductive Callback : Type :=
| HoverDue (d : nat)      (* the callback of 2000 ms set by a mouseleave *)
| HideIfIdle (d : nat)    (* the callback of 300 ms it sets in turn *)
| HideNow (d : nat).      (* the callback of 300 ms of a touch or an outside click *)

Record Timer : Type := {
  delay : Z;                      (* milliseconds *)
  callback : Callback
}.

Record Page : Type := {
  dropdowns : list Item;
  timers : gmap nat Timer;        (* pending *)
  nextTimer : nat
}.

Definition setTimeout (c : Callback) (ms : Z) (p : Page) : nat * Page :=
  (nextTimer p,
   {| dropdowns := dropdowns p;
      timers := <[nextTimer p := {| delay := ms; callback := c |}]> (timers p);
      nextTimer := S (nextTimer p) |}).

Definition clearTimeout (id : option nat) (p : Page) : Page :=
  match id with
  | Some i =>
      {| dropdowns := dropdowns p; timers := delete i (timers p);
         nextTimer := nextTimer p |}
  | None => p
  end.

Definition update (d : nat) (f : Item -> Item) (p : Page) : Page :=
  {| dropdowns := alter f d (dropdowns p); timers := timers p;
     nextTimer := nextTimer p |}.

Definition set_menu (f : Style -> Style) (it : Item) : Item :=
  {| hasToggle := hasToggle it; menu := f <$> menu it;
     hoverTimeout := hoverTimeout it; isHovering := isHovering it |}.

Definition set_isHovering (b : bool) (it : Item) : Item :=
  {| hasToggle := hasToggle it; menu := menu it;
     hoverTimeout := hoverTimeout it; isHovering := b |}.

Definition set_hoverTimeout (id : nat) (it : Item) : Item :=
  {| hasToggle := hasToggle it; menu := menu it;
     hoverTimeout := Some id; isHovering := isHovering it |}.

(** display block, opacity 1, visibility visible *)
Definition show (m : Style) : Style :=
  {| display := Some "block"; opacity := Some "1"; visibility := Some "visible" |}.

(** opacity 0, visibility hidden *)
Definition fadeOut (m : Style) : Style :=
  {| display := display m; opacity := Some "0"; visibility := Some "hidden" |}.

(** display none *)
Definition remove (m : Style) : Style :=
  {| display := Some "none"; opacity := opacity m; visibility := visibility m |}.

(** display none, opacity 0, visibility hidden *)
Definition close (m : Style) : Style :=
  {| display := Some "none"; opacity := Some "0"; visibility := Some "hidden" |}.

(** [if (toggle && menu)]: the dropdown got its listeners. *)
Definition listening (it : Item) : bool :=
  hasToggle it && match menu it with Some _ => true | None => false end.

(** [mouseenter] on the dropdown *)
Definition dropdownEnter (d : nat) (p : Page) : Page :=
  match dropdowns p !! d with
  | Some it =>
      if listening it then
        update d (fun it => set_menu show (set_isHovering true it))
          (clearTimeout (hoverTimeout it) p)
      else p
  | None => p
  end.

(** [mouseleave], on the dropdown and on the menu: the two listeners have
    the same body. *)
Definition mouseleave (d : nat) (p : Page) : Page :=
  match dropdowns p !! d with
  | Some it =>
      if listening it then
        let p1 := update d (set_isHovering false) p in
        let (id, p2) := setTimeout (HoverDue d) 2000 p1 in
        update d (set_hoverTimeout id) p2
      else p
  | None => p
  end.

(** [mouseenter] on the menu *)
Definition menuEnter (d : nat) (p : Page) : Page :=
  match dropdowns p !! d with
  | Some it =>
      if listening it then
        update d (set_isHovering true) (clearTimeout (hoverTimeout it) p)
      else p
  | None => p
  end.

(** The loop of [touchstart] over the other dropdowns; [false] when it
    stopped on a TypeError, [otherMenu] being null. *)
Fixpoint closeOthers (d : nat) (others : list nat) (p : Page) : Page * bool :=
  match others with
  | [] => (p, true)
  | o :: rest =>
      if (o =? d)%nat then closeOthers d rest p
      else
        match dropdowns p !! o ≫= menu with
        | Some _ => closeOthers d rest (update o (set_menu close) p)
        | None => (p, false)
        end
  end.

(** [touchstart] on the toggle *)
Definition touchstart (d : nat) (p : Page) : Page :=
  match dropdowns p !! d with
  | Some it =>
      if listening it then
        let (p1, completed) := closeOthers d (seq 0 (length (dropdowns p))) p in
        if completed then
          match dropdowns p1 !! d ≫= menu with
          | Some m =>
              if bool_decide (display m = Some "block") then
                snd (setTimeout (HideNow d) 300 (update d (set_menu fadeOut) p1))
              else update d (set_menu show) p1
          | None => p1
          end
        else p1
      else p
  | None => p
  end.

(** The loop of the click listener of the document; it stops on a
    TypeError when a dropdown has no menu. *)
Fixpoint closeAll (ds : list nat) (p : Page) : Page :=
  match ds with
  | [] => p
  | d :: rest =>
      match dropdowns p !! d ≫= menu with
      | Some _ =>
          closeAll rest
            (snd (setTimeout (HideNow d) 300 (update d (set_menu fadeOut) p)))
      | None => p
      end
  end.

(** A click whose target is inside no dropdown. *)
Definition clickOutside (p : Page) : Page :=
  closeAll (seq 0 (length (dropdowns p))) p.

Definition runCallback (c : Callback) (p : Page) : Page :=
  match c with
  | HoverDue d =>
      match dropdowns p !! d with
      | Some it =>
          if isHovering it then p
          else snd (setTimeout (HideIfIdle d) 300 (update d (set_menu fadeOut) p))
      | None => p
      end
  | HideIfIdle d =>
      match dropdowns p !! d with
      | Some it => if isHovering it then p else update d (set_menu remove) p
      | None => p
      end
  | HideNow d => update d (set_menu remove) p
  end.

Inductive event : Type :=
| DropdownEnter (d : nat)
| DropdownLeave (d : nat)
| MenuEnter (d : nat)
| MenuLeave (d : nat)
| TouchStart (d : nat)
| ClickOutside
| TimerFires (id : nat).

Definition step (p : Page) (e : event) : Page :=
  match e with
  | DropdownEnter d => dropdownEnter d p
  | DropdownLeave d => mouseleave d p
  | MenuEnter d => menuEnter d p
  | MenuLeave d => mouseleave d p
  | TouchStart d => touchstart d p
  | ClickOutside => clickOutside p
  | TimerFires id =>
      match timers p !! id with
      | Some t =>
          runCallback (callback t)
            {| dropdowns := dropdowns p; timers := delete id (timers p);
               nextTimer := nextTimer p |}
      | None => p
      end
  end.

Definition run (evs : list event) (p : Page) : Page := fold_left step evs p.

(** The page at load: for each dropdown whether it has a toggle, and the
    style of its menu if it has one. *)
Definition rendered (ds : list (bool * option Style)) : Page :=
  {| dropdowns :=
       (fun x => {| hasToggle := fst x; menu := snd x; hoverTimeout := None;
                    isHovering := false |}) <$> ds;
     timers := ∅; nextTimer := 0 |}.

(** The callbacks that act on dropdown [d]. *)
Definition actsOn (d : nat) (c : Callback) : bool :=
  match c with
  | HoverDue d' | HideIfIdle d' | HideNow d' => (d' =? d)%nat
  end.

(** The pointer stays inside dropdown [d]: it does not leave it, and there
    is no touch and no click elsewhere. *)
Definition pointerStays (d : nat) (e : event) : bool :=
  match e with
  | DropdownLeave d' | MenuLeave d' => negb (d' =? d)%nat
  | TouchStart _ | ClickOutside => false
  | _ => true
  end.

(** The pointer stays away from dropdown [d], and its toggle is not
    touched. *)
Definition pointerAway (d : nat) (e : event) : bool :=
  match e with
  | DropdownEnter d' | MenuEnter d' | TouchStart d' => negb (d' =? d)%nat
  | _ => true
  end.

(** No pointer enters a dropdown, as on a touch screen. *)
Definition noHover (e : event) : bool :=
  match e with
  | DropdownEnter _ => false
  | _ => true
  end.

(** Identifiers not yet handed out name no timer, and the identifier a
    dropdown remembers names, if anything, a hover timer of its own. *)
Definition timersInv (p : Page) : Prop :=
  (forall id, (nextTimer p <= id)%nat -> timers p !! id = None)
  /\ forall d it id,
       dropdowns p !! d = Some it -> hoverTimeout it = Some id ->
       (id < nextTimer p)%nat
       /\ forall t, timers p !! id = Some t -> callback t = HoverDue d.

(** After the pointer has left dropdown [d]: a hover timer of [d] is
    pending, or the menu has faded and is off the display or about to be
    taken off. *)
Definition leavingInv (d : nat) (p : Page) : Prop :=
  exists it m,
    dropdowns p !! d = Some it /\ isHovering it = false /\ menu it = Some m
    /\ ((exists id t, timers p !! id = Some t /\ callback t = HoverDue d)
        \/ (opacity m = Some "0" /\ visibility m = Some "hidden"
            /\ (display m = Some "none"
                \/ exists id t, timers p !! id = Some t
                                /\ (callback t = HideIfIdle d
                                    \/ callback t = HideNow d)))).

(** The dropdowns whose menu is displayed as a block. *)
Definition isOpen (it : Item) : bool :=
  match menu it with
  | Some m => bool_decide (display m = Some "block")
  | None => false
  end.

Definition openMenus (p : Page) : list Item := List.filter isOpen (dropdowns p).

(** At most one menu is displayed as a block. *)
Definition atMostOneOpen (p : Page) : Prop :=
  forall i j it1 it2 m1 m2,
    dropdowns p !! i = Some it1 -> menu it1 = Some m1 -> display m1 = Some "block" ->
    dropdowns p !! j = Some it2 -> menu it2 = Some m2 -> display m2 = Some "block" ->
    i = j.

(** While the pointer is inside dropdown [d]: the menu is shown, and no
    timer that hides it unconditionally is pending. *)
Definition hoveringInv (d : nat) (p : Page) : Prop :=
  (exists it, dropdowns p !! d = Some it /\ isHovering it = true
              /\ hasToggle it = true
              /\ menu it = Some {| display := Some "block"; opacity := Some "1";
                                   visibility := Some "visible" |})
  /\ forall id t, timers p !! id = Some t -> callback t <> HideNow d.

End Dropdown.

(** * Properties *)

(** ** The definitions on small inputs *)

Example parseInt_plain : parseInt (lit "125") = Int 125.
Proof. reflexivity. Qed.

Example parseInt_suffix : parseInt (lit "  -42px") = Int (-42).
Proof. reflexivity. Qed.

Example parseInt_hex : parseInt (lit "0x1F") = Int 31.
Proof. reflexivity. Qed.

Example parseInt_nan : parseInt (lit "abc") = NaN.
Proof. reflexivity. Qed.

Example parse_125 :
  parseDuration (lit "2 minute(s) and 5 second(s)") = Some (Num (Int 125)).
Proof. vm_compute. reflexivity. Qed.

Example parse_45 : parseDuration (lit "45 second(s)") = Some (Num (Int 45)).
Proof. vm_compute. reflexivity. Qed.

Example parse_sentence :
  parseDuration (lit "Attempt 3 failed. Try again in 1 minute(s) and 30 second(s).")
  = Some (Num (Int 90)).
Proof. vm_compute. reflexivity. Qed.

Example parse_none : parseDuration (lit "Account locked by an administrator") = None.
Proof. vm_compute. reflexivity. Qed.

Example formatTime_65 : formatTime 65 = lit "1:05".
Proof. reflexivity. Qed.

Example formatTime_9 : formatTime 9 = lit "9s".
Proof. reflexivity. Qed.

Example formatTime_3600 : formatTime 3600 = lit "60:00".
Proof. reflexivity. Qed.

Example trim_both : trim (lit "  ann@example.org ") = lit "ann@example.org".
Proof. reflexivity. Qed.

Example email_accepts : Validator.emailRegex_test (lit "ann@mail.example.org") = true.
Proof. vm_compute. reflexivity. Qed.

Example email_rejects : Validator.emailRegex_test (lit "ann@example") = false.
Proof. vm_compute. reflexivity. Qed.

(** The length rule applies to the registration password only: a login
    password of three characters is valid. *)
Example login_password_short :
  fst (Validator.validateField 0
         {| Validator.fields :=
              [ {| Validator.value := lit "abc"; Validator.type := "password";
                   Validator.id := "login_password"; Validator.required := true;
                   Validator.errorClass := false; Validator.parent := 10%nat |} ];
            Validator.errors := ∅ |}) = true.
Proof. vm_compute. reflexivity. Qed.

(** A second validation replaces the message of the first. *)
Example revalidation_replaces_message :
  Validator.shownUnder
    (snd (Validator.validateField 0
            (snd (Validator.validateField 0
                    (Validator.sampleForm [] (lit "hunter22") (lit "hunter22"))))))
    {| Validator.value := []; Validator.type := "email"; Validator.id := "email";
       Validator.required := true; Validator.errorClass := false;
       Validator.parent := 10%nat |}
  = [lit "This field is required"].
Proof. vm_compute. reflexivity. Qed.

(** A page locked for two seconds, from load to expiry. *)
Example scenario_loaded :
  let p := countdownOnLoad
             (lockedPage (lit "Try again in 2 second(s).")) in
  countdownEl p = Some CountdownMarkup
  /\ timerEl p = Some (lit "2s")
  /\ ticker p = Some {| totalSeconds := 2; originalSeconds := 2; active := true |}.
Proof. vm_compute. auto. Qed.

Example scenario_first_tick :
  let p := step (countdownOnLoad
                   (lockedPage (lit "Try again in 2 second(s)."))) TickFires in
  timerEl p = Some (lit "1s")
  /\ barEl p = Some (Some (Percent (50 # 1)%Q))
  /\ fst (loginSubmit p) = true.
Proof. vm_compute. auto. Qed.

Example scenario_expired :
  let p := run [TickFires; TickFires]
             (countdownOnLoad
                (lockedPage (lit "Try again in 2 second(s)."))) in
  countdownEl p = Some ExpiredMarkup
  /\ (classList <$> alertEl p) = Some {["alert-success"]}
  /\ fst (loginSubmit p) = false.
Proof. vm_compute. auto. Qed.

(** ** Strings *)

Lemma strip_prefix_app (l s : list char) : strip_prefix l (l ++ s) = Some s.
Proof.
  induction l as [|a l IH]; simpl; [reflexivity|].
  rewrite N.eqb_refl. exact IH.
Qed.

Lemma strip_prefix_inv (l s rest : list char) :
  strip_prefix l s = Some rest -> s = l ++ rest.
Proof.
  revert s. induction l as [|a l IH]; intros s H; simpl in H.
  - simpl. congruence.
  - destruct s as [|b s]; [discriminate|].
    destruct (N.eqb_spec a b) as [->|]; [|discriminate].
    simpl. f_equal. apply IH, H.
Qed.

Lemma digit_not_space (c : char) : is_digit c = true -> is_space c = false.
Proof.
  unfold is_digit, is_space. intros H.
  apply andb_true_iff in H as [H1 H2].
  apply N.leb_le in H1. apply N.leb_le in H2.
  repeat match goal with
         | |- context [(?a <=? ?b)%N] => destruct (N.leb_spec a b); try lia
         | |- context [(?a =? ?b)%N] => destruct (N.eqb_spec a b); try lia
         end; reflexivity.
Qed.

Lemma space_not_digit (c : char) : is_space c = true -> is_digit c = false.
Proof.
  intros H. destruct (is_digit c) eqn:E; [|reflexivity].
  apply digit_not_space in E. congruence.
Qed.

Lemma run_of_cons_inv (cls : char -> bool) (c : char) (w : list char) :
  run_of cls (c :: w) = true -> cls c = true /\ forallb cls w = true.
Proof. simpl. intros H. apply andb_true_iff in H. exact H. Qed.

Lemma run_of_starts (cls : char -> bool) (w rest : list char) :
  run_of cls w = true -> starts_with cls (w ++ rest) = true.
Proof.
  destruct w as [|c w]; [discriminate|].
  intros H. apply run_of_cons_inv in H as [H _]. exact H.
Qed.

(** ** The matcher on runs and literals *)

Lemma plus_bt_head_fail {R : Type} (cls : char -> bool) (s : list char)
    (k : list char -> option R) :
  starts_with cls s = false -> plus_bt cls s k = None.
Proof. destruct s as [|c s]; simpl; [reflexivity|]. intros ->. reflexivity. Qed.

(** When what follows a run cannot start with a character of the class,
    and the rest of the pattern cannot either, giving characters back never
    helps: the run is taken whole. *)
Lemma plus_bt_det {R : Type} (cls : char -> bool) (w rest : list char)
    (k : list char -> option R) :
  run_of cls w = true ->
  starts_with cls rest = false ->
  (forall c t, cls c = true -> k (c :: t) = None) ->
  plus_bt cls (w ++ rest) k = k rest.
Proof.
  intros Hw Hrest Hk. induction w as [|a w IH]; [discriminate|].
  apply run_of_cons_inv in Hw as [Ha Hall]. simpl. rewrite Ha.
  destruct w as [|b w].
  - simpl. rewrite (plus_bt_head_fail _ _ _ Hrest). reflexivity.
  - rewrite IH by exact Hall.
    destruct (k rest) eqn:Ek; [reflexivity|].
    simpl in Hall. apply andb_true_iff in Hall as [Hb _].
    simpl. apply Hk, Hb.
Qed.

Lemma take_matched (w rest : list char) :
  take (length (w ++ rest) - length rest) (w ++ rest) = w.
Proof.
  rewrite length_app.
  replace (length w + length rest - length rest)%nat with (length w) by lia.
  apply take_app_length.
Qed.

Section Segments.
Context {R : Type}.
Variable K : list char -> gmap nat (list char) -> option R.

Lemma rmatch_plus_then (cls : char -> bool) (r : regex) (w rest : list char)
    (caps : gmap nat (list char)) :
  run_of cls w = true ->
  starts_with cls rest = false ->
  (forall c t, cls c = true -> rmatch r (c :: t) caps K = None) ->
  rmatch (RPlus cls >>> r) (w ++ rest) caps K = rmatch r rest caps K.
Proof.
  intros Hw Hrest Hr. simpl.
  apply (plus_bt_det cls w rest (fun s1 => rmatch r s1 caps K) Hw Hrest Hr).
Qed.

Lemma rmatch_group_then (n : nat) (cls : char -> bool) (r : regex)
    (w rest : list char) (caps : gmap nat (list char)) :
  run_of cls w = true ->
  starts_with cls rest = false ->
  (forall c t caps', cls c = true -> rmatch r (c :: t) caps' K = None) ->
  rmatch (RGroup n (RPlus cls) >>> r) (w ++ rest) caps K
  = rmatch r rest (<[n := w]> caps) K.
Proof.
  intros Hw Hrest Hr. simpl.
  rewrite (plus_bt_det cls w rest
             (fun s1 => rmatch r s1
                          (<[n := take (length (w ++ rest) - length s1) (w ++ rest)]> caps) K)
             Hw Hrest).
  - rewrite take_matched. reflexivity.
  - intros c t Hc. apply Hr, Hc.
Qed.

Lemma rmatch_lit_then (l : list char) (r : regex) (rest : list char)
    (caps : gmap nat (list char)) :
  rmatch (RLit l >>> r) (l ++ rest) caps K = rmatch r rest caps K.
Proof. simpl. rewrite strip_prefix_app. reflexivity. Qed.

Lemma rmatch_lit_last (l rest : list char) (caps : gmap nat (list char)) :
  rmatch (RLit l) (l ++ rest) caps K = K rest caps.
Proof. simpl. rewrite strip_prefix_app. reflexivity. Qed.

(** A pattern that begins with [C+] fails on a text that does not begin
    with a character of [C]. *)
Lemma rmatch_plus_head (cls : char -> bool) (r : regex) (s : list char)
    (caps : gmap nat (list char)) :
  starts_with cls s = false -> rmatch (RPlus cls >>> r) s caps K = None.
Proof. intros H. simpl. apply plus_bt_head_fail, H. Qed.

Lemma rmatch_group_head (n : nat) (cls : char -> bool) (r : regex)
    (s : list char) (caps : gmap nat (list char)) :
  starts_with cls s = false ->
  rmatch (RGroup n (RPlus cls) >>> r) s caps K = None.
Proof. intros H. simpl. apply plus_bt_head_fail, H. Qed.

(** A pattern that begins with a literal fails on a text that begins with
    another character. *)
Lemma rmatch_lit_head (a : char) (l : list char) (r : regex) (c : char)
    (t : list char) (caps : gmap nat (list char)) :
  a <> c -> rmatch (RLit (a :: l) >>> r) (c :: t) caps K = None.
Proof.
  intros H. simpl. destruct (N.eqb_spec a c); [contradiction|reflexivity].
Qed.

Lemma rmatch_lit_last_head (a : char) (l : list char) (c : char)
    (t : list char) (caps : gmap nat (list char)) :
  a <> c -> rmatch (RLit (a :: l)) (c :: t) caps K = None.
Proof.
  intros H. simpl. destruct (N.eqb_spec a c); [contradiction|reflexivity].
Qed.

End Segments.

(** ** The countdown pattern on the two shapes *)

Lemma rmatch_alt {R : Type} (r1 r2 : regex) (s : list char)
    (caps : gmap nat (list char)) (K : list char -> gmap nat (list char) -> option R) :
  rmatch (RAlt r1 r2) s caps K
  = match rmatch r1 s caps K with
    | Some res => Some res
    | None => rmatch r2 s caps K
    end.
Proof. reflexivity. Qed.

Lemma space_run_no_digit (w rest : list char) :
  run_of is_space w = true -> starts_with is_digit (w ++ rest) = false.
Proof.
  destruct w as [|c w]; [discriminate|].
  intros H. apply run_of_cons_inv in H as [H _]. simpl.
  apply space_not_digit, H.
Qed.

Lemma digit_run_no_space (w rest : list char) :
  run_of is_digit w = true -> starts_with is_space (w ++ rest) = false.
Proof.
  destruct w as [|c w]; [discriminate|].
  intros H. apply run_of_cons_inv in H as [H _]. simpl.
  apply digit_not_space, H.
Qed.

Lemma space_neq (a c : char) : is_space a = false -> is_space c = true -> a <> c.
Proof. intros Ha Hc ->. congruence. Qed.

Ltac space_then_digits :=
  intros; apply rmatch_group_head; simpl; apply space_not_digit; assumption.
Ltac digits_then_space :=
  intros; apply rmatch_plus_head; simpl; apply digit_not_space; assumption.
Ltac space_then_word :=
  intros;
  first [ apply rmatch_lit_head | apply rmatch_lit_last_head ];
  eapply space_neq; [reflexivity | eassumption].

Lemma match_here_minutesSeconds (m w1 w2 w3 s w4 post : list char) :
  run_of is_digit m = true -> run_of is_space w1 = true ->
  run_of is_space w2 = true -> run_of is_space w3 = true ->
  run_of is_digit s = true -> run_of is_space w4 = true ->
  match_here timeRegex (minutesSecondsShape m w1 w2 w3 s w4 ++ post)
  = Some (<[2%nat := s]> (<[1%nat := m]> ∅)).
Proof.
  intros Hm H1 H2 H3 Hs H4.
  unfold match_here, timeRegex, minutesSecondsShape.
  rewrite <- !app_assoc. rewrite rmatch_alt.
  rewrite rmatch_group_then;
    [ | assumption | apply space_run_no_digit; assumption | digits_then_space ].
  rewrite rmatch_plus_then; [ | assumption | reflexivity | space_then_word ].
  rewrite rmatch_lit_then.
  rewrite rmatch_plus_then; [ | assumption | reflexivity | space_then_word ].
  rewrite rmatch_lit_then.
  rewrite rmatch_plus_then;
    [ | assumption | apply digit_run_no_space; assumption | space_then_digits ].
  rewrite rmatch_group_then;
    [ | assumption | apply space_run_no_digit; assumption | digits_then_space ].
  rewrite rmatch_plus_then; [ | assumption | reflexivity | space_then_word ].
  rewrite rmatch_lit_last. reflexivity.
Qed.

Lemma match_here_seconds (s w post : list char) :
  run_of is_digit s = true -> run_of is_space w = true ->
  match_here timeRegex (secondsShape s w ++ post) = Some (<[3%nat := s]> ∅).
Proof.
  intros Hs Hw.
  unfold match_here, timeRegex, secondsShape.
  rewrite <- !app_assoc. rewrite rmatch_alt.
  (* the first alternative gets as far as the word after the digits *)
  rewrite rmatch_group_then;
    [ | assumption | apply space_run_no_digit; assumption | digits_then_space ].
  rewrite rmatch_plus_then; [ | assumption | reflexivity | space_then_word ].
  replace (rmatch _ (lit "second(s)" ++ post) _ _) with (@None (gmap nat (list char)))
    by reflexivity.
  rewrite rmatch_group_then;
    [ | assumption | apply space_run_no_digit; assumption | digits_then_space ].
  rewrite rmatch_plus_then; [ | assumption | reflexivity | space_then_word ].
  rewrite rmatch_lit_last. reflexivity.
Qed.

(** The pattern matches nowhere that does not begin with a digit. *)
Lemma match_here_needs_digit (t : list char) :
  starts_with is_digit t = false -> match_here timeRegex t = None.
Proof.
  intros H. unfold match_here, timeRegex. rewrite rmatch_alt.
  rewrite rmatch_group_head by exact H.
  apply rmatch_group_head, H.
Qed.

Lemma exec_skip (r : regex) (pre rest : list char) :
  no_match_before r pre rest = true -> exec r (pre ++ rest) = exec r rest.
Proof.
  induction pre as [|c pre IH]; intros H; [reflexivity|].
  cbn [no_match_before] in H. cbn [app exec] in H |- *.
  destruct (match_here r (c :: pre ++ rest)); [discriminate|].
  apply IH, H.
Qed.

Lemma no_digit_no_match_before (pre rest : list char) :
  forallb (fun c => negb (is_digit c)) pre = true ->
  no_match_before timeRegex pre rest = true.
Proof.
  induction pre as [|c pre IH]; intros H; [reflexivity|].
  simpl in H. apply andb_true_iff in H as [Hc Hall].
  simpl. rewrite match_here_needs_digit.
  - apply IH, Hall.
  - simpl. apply negb_true_iff, Hc.
Qed.

Lemma exec_here (r : regex) (s : list char) (caps : gmap nat (list char)) :
  match_here r s = Some caps -> exec r s = Some caps.
Proof. intros H. destruct s; simpl; rewrite H; reflexivity. Qed.

(** ** parseInt on a run of digits *)

Lemma drop_while_head (p : char -> bool) (s : list char) :
  starts_with p s = false -> drop_while p s = s.
Proof. destruct s as [|c s]; simpl; [reflexivity|]. intros ->. reflexivity. Qed.

Lemma take_while_all (p : char -> bool) (s : list char) :
  forallb p s = true -> take_while p s = s.
Proof.
  induction s as [|c s IH]; simpl; [reflexivity|].
  intros H. apply andb_true_iff in H as [-> H]. f_equal. apply IH, H.
Qed.

Lemma radix_number_decimal (ds : list char) :
  forallb is_digit ds = true -> radix_number 10 ds = decimal ds.
Proof.
  unfold radix_number, decimal. intros H.
  enough (G : forall acc,
             fold_left (fun a c => a * 10 + default 0 (radix_value 10 c)) ds acc
             = fold_left (fun a c => a * 10 + digit_value c) ds acc) by apply G.
  induction ds as [|c ds IH]; intros acc; simpl; [reflexivity|].
  simpl in H. apply andb_true_iff in H as [Hc H].
  rewrite IH by exact H. unfold radix_value. simpl. rewrite Hc. reflexivity.
Qed.

Lemma is_digit_range (c : char) : is_digit c = true -> (48 <= c <= 57)%N.
Proof.
  unfold is_digit. intros H. apply andb_true_iff in H as [H1 H2].
  apply N.leb_le in H1. apply N.leb_le in H2. lia.
Qed.

Lemma parseInt_digits (ds : list char) :
  run_of is_digit ds = true -> parseInt ds = Int (decimal ds).
Proof.
  intros H. unfold parseInt.
  rewrite drop_while_head by (apply (digit_run_no_space ds []) in H;
                              rewrite app_nil_r in H; exact H).
  destruct ds as [|c ds]; [discriminate|].
  apply run_of_cons_inv in H as [Hc Hall].
  pose proof (is_digit_range c Hc) as Rc.
  destruct (N.eqb_spec c 45); [lia|]. destruct (N.eqb_spec c 43); [lia|].
  assert (Hten : forallb (is_radix_digit 10) (c :: ds) = true).
  { apply forallb_forall. intros x Hx.
    assert (Hd : is_digit x = true).
    { destruct Hx as [<-|Hx]; [exact Hc|].
      eapply forallb_forall in Hall; eauto. }
    unfold is_radix_digit, radix_value. simpl. rewrite Hd. reflexivity. }
  assert (Hval : radix_number 10 (c :: ds) = decimal (c :: ds)).
  { apply radix_number_decimal. simpl. rewrite Hc. exact Hall. }
  destruct ds as [|c1 ds].
  - rewrite take_while_all by exact Hten. rewrite Hval.
    f_equal. lia.
  - assert (Rc1 : (48 <= c1 <= 57)%N).
    { apply is_digit_range. simpl in Hall. apply andb_true_iff in Hall. tauto. }
    destruct (N.eqb_spec c1 120); [lia|]. destruct (N.eqb_spec c1 88); [lia|].
    rewrite andb_false_r.
    rewrite take_while_all by exact Hten. rewrite Hval.
    f_equal. lia.
Qed.

Lemma run_of_truthy (cls : char -> bool) (w : list char) :
  run_of cls w = true -> truthy_str (Some w) = true.
Proof. destruct w; [discriminate|reflexivity]. Qed.

Lemma totalSecondsOf_minutesSeconds (m s : list char) :
  run_of is_digit m = true -> run_of is_digit s = true ->
  totalSecondsOf (<[2%nat := s]> (<[1%nat := m]> ∅))
  = Num (Int (decimal m * 60 + decimal s)).
Proof.
  intros Hm Hs. unfold totalSecondsOf.
  rewrite lookup_insert_eq.
  rewrite lookup_insert_ne, lookup_insert_eq by discriminate.
  rewrite (run_of_truthy _ _ Hm), (run_of_truthy _ _ Hs). simpl.
  rewrite !parseInt_digits by assumption. reflexivity.
Qed.

Lemma totalSecondsOf_seconds (s : list char) :
  run_of is_digit s = true ->
  totalSecondsOf (<[3%nat := s]> ∅) = Num (Int (decimal s)).
Proof.
  intros Hs. unfold totalSecondsOf.
  rewrite lookup_insert_eq.
  rewrite lookup_insert_ne, lookup_empty by discriminate.
  rewrite (run_of_truthy _ _ Hs). simpl.
  rewrite parseInt_digits by assumption. reflexivity.
Qed.

(** C1 -- Duration parser.  A message whose first duration is the
    well-formed text [d] (no attempt of the pattern succeeds at a start
    index in front of it) parses to the seconds [d] denotes: m*60+s for
    "<m> minute(s) and <s> second(s)", s for "<s> second(s)".  The total is
    within the range where Number arithmetic is exact. *)
Theorem duration_parser_total (pre : list char) (d : duration) (post : list char) :
  wellFormed d = true ->
  no_match_before timeRegex pre (durationText d ++ post) = true ->
  durationSeconds d <= MAX_SAFE_INTEGER ->
  parseDuration (pre ++ durationText d ++ post) = Some (Num (Int (durationSeconds d))).
Proof.
  intros Hd Hpre _. unfold parseDuration. rewrite exec_skip by exact Hpre.
  destruct d as [m w1 w2 w3 s w4|s w]; simpl in Hd;
    repeat (apply andb_true_iff in Hd as [Hd ?]); cbn [durationText durationSeconds].
  - rewrite (exec_here _ _ _ (match_here_minutesSeconds m w1 w2 w3 s w4 post
                                 ltac:(assumption) ltac:(assumption) ltac:(assumption)
                                 ltac:(assumption) ltac:(assumption) ltac:(assumption))).
    simpl. f_equal. apply totalSecondsOf_minutesSeconds; assumption.
  - rewrite (exec_here _ _ _ (match_here_seconds s w post
                                 ltac:(assumption) ltac:(assumption))).
    simpl. f_equal. apply totalSecondsOf_seconds; assumption.
Qed.

Lemma duration_parser_total_witness :
  parseDuration (lit "Attempt 3 failed. Try again in 2 minute(s) and 5 second(s).")
  = Some (Num (Int 125))
  /\ parseDuration (lit "45 second(s)") = Some (Num (Int 45)).
Proof.
  split.
  - apply (duration_parser_total (lit "Attempt 3 failed. Try again in ")
             (MinutesSeconds (lit "2") (lit " ") (lit " ") (lit " ") (lit "5") (lit " "))
             (lit "."));
      [reflexivity | vm_compute; reflexivity | vm_compute; discriminate].
  - apply (duration_parser_total []
             (SecondsOnly (lit "45") (lit " ")) []);
      [reflexivity | reflexivity | vm_compute; discriminate].
Defined.

(** ** The matcher finds only what the pattern describes *)

Lemma plus_bt_sound {R : Type} (cls : char -> bool) (s : list char)
    (k : list char -> option R) (res : R) :
  plus_bt cls s k = Some res ->
  exists w rest, s = w ++ rest /\ run_of cls w = true /\ k rest = Some res.
Proof.
  induction s as [|c s IH]; simpl; [discriminate|].
  destruct (cls c) eqn:Ec; [|discriminate].
  destruct (plus_bt cls s k) as [res'|] eqn:Ep.
  - intros [= ->]. destruct (IH eq_refl) as (w & rest & -> & Hw & Hk).
    exists (c :: w), rest. split; [reflexivity|]. split; [|exact Hk].
    destruct w as [|b w]; [discriminate|].
    change (cls c && forallb cls (b :: w) = true). rewrite Ec. exact Hw.
  - intros Hk. exists [c], s. split; [reflexivity|]. split; [|exact Hk].
    simpl. rewrite Ec. reflexivity.
Qed.

Lemma rmatch_sound {R : Type} (r : regex) :
  forall (s : list char) (caps : gmap nat (list char))
         (k : list char -> gmap nat (list char) -> option R) (res : R),
    rmatch r s caps k = Some res ->
    exists rest caps', matches r s rest /\ k rest caps' = Some res.
Proof.
  induction r as [l|cls|r1 IH1 r2 IH2|r1 IH1 r2 IH2|n r IH|]; intros s caps k res H; simpl in H.
  - destruct (strip_prefix l s) as [rest|] eqn:E; [|discriminate].
    apply strip_prefix_inv in E as ->. exists rest, caps. split; [constructor|exact H].
  - apply plus_bt_sound in H as (w & rest & -> & Hw & Hk).
    exists rest, caps. split; [constructor; exact Hw|exact Hk].
  - apply IH1 in H as (s1 & c1 & M1 & H).
    apply IH2 in H as (s2 & c2 & M2 & H).
    exists s2, c2. split; [econstructor; eassumption|exact H].
  - destruct (rmatch r1 s caps k) as [res'|] eqn:E.
    + injection H as ->. apply IH1 in E as (rest & c & M & Hk).
      exists rest, c. split; [apply M_alt_l, M|exact Hk].
    + apply IH2 in H as (rest & c & M & Hk).
      exists rest, c. split; [apply M_alt_r, M|exact Hk].
  - apply IH in H as (rest & c & M & Hk).
    eexists rest, _. split; [apply M_group, M|exact Hk].
  - destruct s; [|discriminate]. exists [], caps. split; [constructor|exact H].
Qed.

Lemma matches_lit_inv (l s rest : list char) :
  matches (RLit l) s rest -> s = l ++ rest.
Proof. inversion 1; reflexivity. Qed.

Lemma matches_plus_inv (cls : char -> bool) (s rest : list char) :
  matches (RPlus cls) s rest -> exists w, run_of cls w = true /\ s = w ++ rest.
Proof. inversion 1; subst. eauto. Qed.

Lemma matches_seq_inv (r1 r2 : regex) (s rest : list char) :
  matches (r1 >>> r2) s rest -> exists s1, matches r1 s s1 /\ matches r2 s1 rest.
Proof. inversion 1; subst. eauto. Qed.

Lemma matches_group_inv (n : nat) (r : regex) (s rest : list char) :
  matches (RGroup n r) s rest -> matches r s rest.
Proof. inversion 1; subst. assumption. Qed.

Lemma matches_alt_inv (r1 r2 : regex) (s rest : list char) :
  matches (RAlt r1 r2) s rest -> matches r1 s rest \/ matches r2 s rest.
Proof. inversion 1; subst; auto. Qed.

Ltac next_run M w Hw :=
  let s1 := fresh "s" in
  let M1 := fresh "M" in
  apply matches_seq_inv in M as (s1 & M1 & M);
  try apply matches_group_inv in M1;
  apply matches_plus_inv in M1 as (w & Hw & ->).

Ltac next_word M :=
  let s1 := fresh "s" in
  let M1 := fresh "M" in
  apply matches_seq_inv in M as (s1 & M1 & M);
  apply matches_lit_inv in M1 as ->.

Lemma timeRegex_matches_duration (t rest : list char) :
  matches timeRegex t rest ->
  exists d, wellFormed d = true /\ t = durationText d ++ rest.
Proof.
  unfold timeRegex. intros M.
  apply matches_alt_inv in M as [M|M].
  - next_run M m Hm. next_run M w1 H1. next_word M. next_run M w2 H2.
    next_word M. next_run M w3 H3. next_run M s Hs. next_run M w4 H4.
    apply matches_lit_inv in M as ->.
    exists (MinutesSeconds m w1 w2 w3 s w4). split.
    + cbn [wellFormed]. rewrite Hm, H1, H2, H3, Hs, H4. reflexivity.
    + cbn [durationText]. unfold minutesSecondsShape.
      rewrite <- !app_assoc. reflexivity.
  - next_run M s Hs. next_run M w Hw. apply matches_lit_inv in M as ->.
    exists (SecondsOnly s w). split.
    + cbn [wellFormed]. rewrite Hs, Hw. reflexivity.
    + cbn [durationText]. unfold secondsShape. rewrite <- !app_assoc. reflexivity.
Qed.

Lemma exec_inv (r : regex) (s : list char) (caps : gmap nat (list char)) :
  exec r s = Some caps ->
  exists pre t, s = pre ++ t /\ match_here r t = Some caps.
Proof.
  induction s as [|c s IH]; simpl.
  - destruct (match_here r []) eqn:E; [|discriminate].
    intros [= ->]. exists [], []. split; [reflexivity|exact E].
  - destruct (match_here r (c :: s)) eqn:E.
    + intros [= ->]. exists [], (c :: s). split; [reflexivity|exact E].
    + intros H. apply IH in H as (pre & t & -> & H).
      exists (c :: pre), t. split; [reflexivity|exact H].
Qed.

Lemma exec_finds (r : regex) (pre t : list char) (caps : gmap nat (list char)) :
  match_here r t = Some caps -> is_Some (exec r (pre ++ t)).
Proof.
  intros H. induction pre as [|c pre IH].
  - rewrite app_nil_l, (exec_here _ _ _ H). eauto.
  - simpl. destruct (match_here r (c :: pre ++ t)); [eauto|exact IH].
Qed.

Lemma match_here_Some_starts (t : list char) (caps : gmap nat (list char)) :
  match_here timeRegex t = Some caps -> startsWithDuration t.
Proof.
  unfold match_here. intros E.
  apply rmatch_sound in E as (rest & _ & M & _).
  apply timeRegex_matches_duration in M as (d & Hd & ->).
  exists d, rest. auto.
Qed.

(** One attempt of the pattern fails exactly on the texts that do not
    begin with a duration. *)
Lemma match_here_None_iff (t : list char) :
  match_here timeRegex t = None <-> ~ startsWithDuration t.
Proof.
  split.
  - intros H (d & rest & Hd & ->).
    destruct d as [m w1 w2 w3 s w4|s w]; simpl in Hd;
      repeat (apply andb_true_iff in Hd as [Hd ?]); cbn [durationText] in H.
    + rewrite match_here_minutesSeconds in H by assumption. discriminate.
    + rewrite match_here_seconds in H by assumption. discriminate.
  - intros H. destruct (match_here timeRegex t) as [caps|] eqn:E; [|reflexivity].
    exfalso. apply H. eapply match_here_Some_starts, E.
Qed.

(** [no_match_before] says that no duration begins inside the text in
    front. *)
Lemma no_match_before_spec (pre rest : list char) :
  no_match_before timeRegex pre rest = true
  <-> (forall p1 p2, pre = p1 ++ p2 -> p2 <> [] -> ~ startsWithDuration (p2 ++ rest)).
Proof.
  induction pre as [|c pre IH].
  - split; [|reflexivity]. intros _ p1 p2 E Hne.
    symmetry in E. apply app_eq_nil in E as [_ ->]. contradiction.
  - cbn [no_match_before]. split.
    + intros H p1 p2 E Hne.
      destruct (match_here timeRegex ((c :: pre) ++ rest)) eqn:M; [discriminate|].
      destruct p1 as [|c1 p1]; simpl in E.
      * subst p2. apply match_here_None_iff, M.
      * injection E as -> ->. apply (proj1 IH H p1 p2); auto.
    + intros H.
      destruct (match_here timeRegex ((c :: pre) ++ rest)) eqn:M.
      * exfalso. apply (H [] (c :: pre)); [reflexivity|discriminate|].
        eapply match_here_Some_starts, M.
      * apply IH. intros p1 p2 -> Hne. apply (H (c :: p1) p2); auto.
Qed.

(** The pattern matches somewhere in a message exactly when the message
    contains one of the two shapes. *)
Lemma parseDuration_None_iff (message : list char) :
  parseDuration message = None <-> ~ containsDuration message.
Proof.
  unfold parseDuration. split.
  - intros H (pre & d & post & Hd & ->).
    assert (M : exists caps, match_here timeRegex (durationText d ++ post) = Some caps).
    { destruct d as [m w1 w2 w3 s w4|s w]; simpl in Hd;
        repeat (apply andb_true_iff in Hd as [Hd ?]); cbn [durationText].
      - eexists. apply match_here_minutesSeconds; assumption.
      - eexists. apply match_here_seconds; assumption. }
    destruct M as [caps M].
    destruct (exec_finds timeRegex pre _ _ M) as [c Hc].
    rewrite Hc in H. discriminate.
  - intros H. destruct (exec timeRegex message) as [caps|] eqn:E; [|reflexivity].
    exfalso. apply H.
    apply exec_inv in E as (pre & t & -> & E).
    unfold match_here in E. apply rmatch_sound in E as (rest & _ & M & _).
    apply timeRegex_matches_duration in M as (d & Hd & ->).
    exists pre, d, rest. split; [exact Hd|reflexivity].
Qed.

(** ** The countdown controller *)

Arguments formatTime : simpl never.
Arguments progressPercentage : simpl never.

Lemma ticker_showLockoutExpired (p : Page) :
  ticker (showLockoutExpired p) = ticker p.
Proof.
  unfold showLockoutExpired.
  destruct (query_lockout_alert p), (countdownEl p); reflexivity.
Qed.

Lemma ticker_countdownCallback (c : Countdown) (p : Page) :
  ticker (countdownCallback c p)
  = Some {| totalSeconds := totalSeconds c - 1;
            originalSeconds := originalSeconds c;
            active := if totalSeconds c - 1 <=? 0 then false else active c |}.
Proof.
  unfold countdownCallback. simpl.
  destruct (timerEl p); simpl; destruct (barEl p); simpl;
    destruct (totalSeconds c - 1 <=? 0);
    rewrite ?ticker_showLockoutExpired; reflexivity.
Qed.

Lemma ticker_loginSubmit (p : Page) : ticker (snd (loginSubmit p)) = ticker p.
Proof.
  unfold loginSubmit. destruct (query_lockout_alert p) as [a|]; [|reflexivity].
  destruct (negb _); [|reflexivity]. simpl.
  destruct (warningEl p); reflexivity.
Qed.

Lemma ticker_runTimeout (t : Timeout) (p : Page) : ticker (runTimeout t p) = ticker p.
Proof.
  unfold runTimeout. destruct (action t) as [w|].
  - destruct (warningEl p) as [w'|]; [|reflexivity].
    destruct (w' =? w)%nat; reflexivity.
  - destruct (loginForm p); reflexivity.
Qed.

(** Only the interval callback touches the counter. *)
Lemma ticker_step_other (p : Page) (e : event) :
  e <> TickFires -> ticker (step p e) = ticker p.
Proof.
  destruct e as [| |i]; intros He; [contradiction| |]; simpl.
  - destruct (loginForm p); [apply ticker_loginSubmit|reflexivity].
  - destruct (timeouts p !! i); [rewrite ticker_runTimeout|]; reflexivity.
Qed.

Lemma ticker_step_tick (p : Page) :
  ticker (step p TickFires)
  = match ticker p with
    | Some c =>
        if active c then
          Some {| totalSeconds := totalSeconds c - 1;
                  originalSeconds := originalSeconds c;
                  active := if totalSeconds c - 1 <=? 0 then false else true |}
        else Some c
    | None => None
    end.
Proof.
  simpl. destruct (ticker p) as [c|] eqn:E; [|exact E].
  destruct (active c) eqn:Ea; [|exact E].
  rewrite ticker_countdownCallback, Ea. reflexivity.
Qed.

Lemma countdownInv_step (T : Z) (p : Page) (e : event) :
  countdownInv T p -> countdownInv T (step p e).
Proof.
  intros (c & Hc & Ho & Hr & Hact & Hin).
  destruct e as [| |i].
  - unfold countdownInv. rewrite ticker_step_tick, Hc.
    destruct (active c) eqn:Ea.
    + specialize (Hact eq_refl).
      destruct (Z.leb_spec (totalSeconds c - 1) 0);
        (eexists; split; [reflexivity|]; cbn;
         repeat split; intros; try discriminate; lia).
    + exists c. repeat split; try tauto; try lia. intros; congruence.
  - exists c. rewrite ticker_step_other by discriminate. tauto.
  - exists c. rewrite ticker_step_other by discriminate. tauto.
Qed.

Lemma countdownInv_run (T : Z) (evs : list event) (p : Page) :
  countdownInv T p -> countdownInv T (run evs p).
Proof.
  revert p. induction evs as [|e evs IH]; intros p H; [exact H|].
  apply IH, countdownInv_step, H.
Qed.

Lemma countdownInv_start (T : Z) (p : Page) :
  0 < T -> countdownInv T (startLockoutCountdown T p).
Proof.
  intros HT. eexists. split; [reflexivity|]. cbn.
  repeat split; intros; try discriminate; lia.
Qed.

(** C3 -- CountdownState invariant.  A countdown started with a positive
    number of seconds T keeps, after any sequence of events (ticks, submit
    attempts, timeouts), a counter between 0 and T, and the value captured
    at start stays T.  In the script the counter is [totalSeconds] and the
    captured value [originalSeconds]. *)
Theorem countdown_state_invariant (p0 : Page) (T : Z) (evs : list event) :
  0 < T -> T <= MAX_SAFE_INTEGER ->
  exists c, ticker (run evs (startLockoutCountdown T p0)) = Some c
            /\ originalSeconds c = T
            /\ 0 <= totalSeconds c <= originalSeconds c.
Proof.
  intros HT _.
  destruct (countdownInv_run T evs _ (countdownInv_start T p0 HT))
    as (c & Hc & Ho & Hr & _).
  exists c. rewrite Ho. auto.
Qed.

Lemma countdown_state_invariant_witness :
  exists c, ticker (run [TickFires; SubmitLogin; TickFires; TimeoutFires 0; TickFires]
                      (startLockoutCountdown 2
                         (lockedPage (lit "2 second(s)"))))
            = Some c
            /\ originalSeconds c = 2
            /\ 0 <= totalSeconds c <= originalSeconds c.
Proof.
  apply (countdown_state_invariant
           (lockedPage (lit "2 second(s)")) 2);
    [lia | vm_compute; discriminate].
Defined.

Lemma run_snoc (evs : list event) (e : event) (p : Page) :
  run (evs ++ [e]) p = step (run evs p) e.
Proof. unfold run. rewrite fold_left_app. reflexivity. Qed.

Lemma replicate_snoc {A : Type} (n : nat) (x : A) :
  replicate (S n) x = replicate n x ++ [x].
Proof. induction n as [|n IH]; simpl in *; [reflexivity|]. f_equal. exact IH. Qed.

Lemma unlocked_showLockoutExpired (p : Page) : unlocked (showLockoutExpired p).
Proof.
  unfold showLockoutExpired, unlocked, query_lockout_alert.
  destruct (alertEl p) as [a|] eqn:Ea.
  - destruct (bool_decide ("lockout-alert" ∈ classList a)) eqn:Ed.
    + intros a' Ha'.
      assert (E : classList a' = (classList a ∖ {["lockout-alert"]}) ∪ {["alert-success"]})
        by (destruct (countdownEl p); simpl in Ha'; injection Ha' as <-; reflexivity).
      rewrite E, elem_of_union, elem_of_difference, !elem_of_singleton.
      intros [[_ H]|H]; [apply H; reflexivity|discriminate].
    + apply bool_decide_eq_false in Ed.
      intros a' Ha'.
      assert (E : a' = a)
        by (destruct (countdownEl p); simpl in Ha'; congruence).
      rewrite E. exact Ed.
  - destruct (countdownEl p); simpl; rewrite Ea; discriminate.
Qed.

Lemma countdownEl_showLockoutExpired (p : Page) :
  countdownEl (showLockoutExpired p) = const ExpiredMarkup <$> countdownEl p.
Proof.
  unfold showLockoutExpired.
  destruct (query_lockout_alert p), (countdownEl p) eqn:E; simpl;
    rewrite ?E; reflexivity.
Qed.

(** A tick that leaves more than zero seconds only rewrites the timer text
    and the bar. *)
Lemma countdownCallback_running (c : Countdown) (p : Page) :
  1 < totalSeconds c ->
  countdownEl (countdownCallback c p) = countdownEl p
  /\ alertEl (countdownCallback c p) = alertEl p.
Proof.
  intros H. unfold countdownCallback.
  destruct (Z.leb_spec (totalSeconds c - 1) 0); [lia|].
  simpl. destruct (timerEl p); simpl; destruct (barEl p); simpl; auto.
Qed.

(** The tick that reaches zero cancels the interval and shows the expired
    notice. *)
Lemma countdownCallback_last (c : Countdown) (p : Page) :
  totalSeconds c <= 1 ->
  countdownEl (countdownCallback c p) = const ExpiredMarkup <$> countdownEl p
  /\ unlocked (countdownCallback c p).
Proof.
  intros H. unfold countdownCallback.
  destruct (Z.leb_spec (totalSeconds c - 1) 0); [|lia].
  split; [|apply unlocked_showLockoutExpired].
  rewrite countdownEl_showLockoutExpired. simpl.
  destruct (timerEl p); simpl; destruct (barEl p); reflexivity.
Qed.

Lemma running_ticks (T : Z) (p0 : Page) (n : nat) :
  Z.of_nat n < T ->
  let p := run (replicate n TickFires) (startLockoutCountdown T p0) in
  ticker p = Some {| totalSeconds := T - Z.of_nat n; originalSeconds := T;
                     active := true |}
  /\ countdownEl p = countdownEl p0 /\ alertEl p = alertEl p0.
Proof.
  induction n as [|n IH]; intros Hn.
  - simpl. rewrite Z.sub_0_r. auto.
  - destruct IH as (Ht & Hc & Ha); [lia|].
    cbv zeta. rewrite replicate_snoc, run_snoc.
    set (q := run (replicate n TickFires) (startLockoutCountdown T p0)) in *.
    split.
    + rewrite ticker_step_tick, Ht. cbn.
      destruct (Z.leb_spec (T - Z.of_nat n - 1) 0); [lia|].
      do 2 f_equal. lia.
    + simpl. rewrite Ht. cbn [active].
      destruct (countdownCallback_running
                  {| totalSeconds := T - Z.of_nat n; originalSeconds := T;
                     active := true |} q) as [E1 E2]; [simpl; lia|].
      rewrite E1, E2. auto.
Qed.

Lemma expiring_tick (T : Z) (p0 : Page) (n : nat) :
  Z.of_nat n = T -> 0 < T ->
  let p := run (replicate n TickFires) (startLockoutCountdown T p0) in
  ticker p = Some {| totalSeconds := 0; originalSeconds := T; active := false |}
  /\ countdownEl p = const ExpiredMarkup <$> countdownEl p0
  /\ unlocked p.
Proof.
  intros Hn HT. destruct n as [|n]; [simpl in Hn; lia|].
  destruct (running_ticks T p0 n) as (Ht & Hc & Ha); [lia|].
  cbv zeta. rewrite replicate_snoc, run_snoc.
  set (q := run (replicate n TickFires) (startLockoutCountdown T p0)) in *.
  split.
  - rewrite ticker_step_tick, Ht. cbn.
    destruct (Z.leb_spec (T - Z.of_nat n - 1) 0); [|lia].
    do 2 f_equal. lia.
  - simpl. rewrite Ht. cbn [active].
    destruct (countdownCallback_last
                {| totalSeconds := T - Z.of_nat n; originalSeconds := T;
                   active := true |} q) as [E1 E2]; [simpl; lia|].
    rewrite E1, Hc. auto.
Qed.

(** Once the interval is cancelled, nothing brings it back and the
    callback does not run any more. *)
Lemma expired_stays (c : Countdown) (evs : list event) (p : Page) :
  ticker p = Some c -> active c = false ->
  ticker (run evs p) = Some c.
Proof.
  revert p. induction evs as [|e evs IH]; intros p Hc Ha; [exact Hc|].
  simpl. apply IH; [|exact Ha].
  destruct e as [| |i].
  - rewrite ticker_step_tick, Hc, Ha. reflexivity.
  - rewrite ticker_step_other by discriminate. exact Hc.
  - rewrite ticker_step_other by discriminate. exact Hc.
Qed.

Lemma expired_tick_noop (c : Countdown) (p : Page) :
  ticker p = Some c -> active c = false -> step p TickFires = p.
Proof. intros Hc Ha. simpl. rewrite Hc, Ha. reflexivity. Qed.

(** C2 -- Terminal state.  A countdown started with 125 seconds is Running
    before each of its first 125 ticks; after exactly 125 ticks the counter
    is 0, the interval is cancelled (Expired), the countdown block shows the
    expired notice and the alert no longer carries [lockout-alert]; from
    then on, whatever else happens, a tick changes nothing: neither the
    counter nor any element of the page. *)
Theorem countdown_terminal_state (p0 : Page) :
  let start := startLockoutCountdown 125 p0 in
  let expired := run (replicate 125 TickFires) start in
  (forall n, (n < 125)%nat -> phaseOf (run (replicate n TickFires) start) = Running)
  /\ ticker expired
     = Some {| totalSeconds := 0; originalSeconds := 125; active := false |}
  /\ phaseOf expired = Expired
  /\ countdownEl expired = const ExpiredMarkup <$> countdownEl p0
  /\ unlocked expired
  /\ (forall evs, phaseOf (run evs expired) = Expired
                  /\ step (run evs expired) TickFires = run evs expired).
Proof.
  intros start expired.
  destruct (expiring_tick 125 p0 125) as (Ht & Hc & Hu); [reflexivity|lia|].
  fold start in Ht, Hc, Hu. fold expired in Ht, Hc, Hu.
  split; [|split; [exact Ht|split; [|split; [exact Hc|split; [exact Hu|]]]]].
  - intros n Hn. destruct (running_ticks 125 p0 n) as (Hr & _); [lia|].
    unfold phaseOf. fold start in Hr. rewrite Hr. reflexivity.
  - unfold phaseOf. rewrite Ht. reflexivity.
  - intros evs.
    pose proof (expired_stays _ evs expired Ht eq_refl) as He.
    split.
    + unfold phaseOf. rewrite He. reflexivity.
    + apply (expired_tick_noop _ _ He). reflexivity.
Qed.

Lemma countdown_terminal_state_witness :
  phaseOf (run (replicate 124 TickFires)
             (countdownOnLoad (lockedPage (lit "2 minute(s) and 5 second(s)"))))
  = Running
  /\ phaseOf (run (replicate 125 TickFires)
                (countdownOnLoad (lockedPage (lit "2 minute(s) and 5 second(s)"))))
     = Expired
  /\ countdownEl (run (replicate 125 TickFires)
                    (countdownOnLoad (lockedPage (lit "2 minute(s) and 5 second(s)"))))
     = Some ExpiredMarkup
  /\ step (run [SubmitLogin]
             (run (replicate 125 TickFires)
                (countdownOnLoad (lockedPage (lit "2 minute(s) and 5 second(s)")))))
        TickFires
     = run [SubmitLogin]
         (run (replicate 125 TickFires)
            (countdownOnLoad (lockedPage (lit "2 minute(s) and 5 second(s)")))).
Proof.
  assert (E : countdownOnLoad (lockedPage (lit "2 minute(s) and 5 second(s)"))
              = startLockoutCountdown 125
                  (set_barEl (Some None)
                     (set_timerEl (Some (formatTime 125))
                        (set_countdownEl (Some CountdownMarkup)
                           (lockedPage (lit "2 minute(s) and 5 second(s)"))))))
    by (vm_compute; reflexivity).
  rewrite E.
  destruct (countdown_terminal_state
              (set_barEl (Some None)
                 (set_timerEl (Some (formatTime 125))
                    (set_countdownEl (Some CountdownMarkup)
                       (lockedPage (lit "2 minute(s) and 5 second(s)"))))))
    as (Hr & _ & He & Hc & _ & Hn).
  split; [apply (Hr 124%nat); lia|].
  split; [exact He|]. split; [exact Hc|]. apply (Hn [SubmitLogin]).
Defined.

(** ** Number to string and formatTime *)

Lemma digit_value_char (d : Z) : 0 <= d < 10 -> digit_value (digit_char d) = d.
Proof. intros H. unfold digit_value, digit_char. rewrite Z2N.id by lia. lia. Qed.

Lemma is_digit_char (d : Z) : 0 <= d < 10 -> is_digit (digit_char d) = true.
Proof.
  intros H. unfold is_digit, digit_char.
  apply andb_true_iff. split; apply N.leb_le; lia.
Qed.

Lemma decimal_snoc (l : list char) (c : char) :
  decimal (l ++ [c]) = decimal l * 10 + digit_value c.
Proof. unfold decimal. rewrite fold_left_app. reflexivity. Qed.

Lemma digits_of_acc (fuel : nat) (n : Z) (acc : list char) :
  digits_of fuel n acc = digits_of fuel n [] ++ acc.
Proof.
  revert n acc. induction fuel as [|f IH]; intros n acc; simpl; [reflexivity|].
  destruct (n <? 10); [reflexivity|].
  rewrite (IH _ (_ :: acc)), (IH _ [_]), <- app_assoc. reflexivity.
Qed.

Lemma digits_of_decimal (fuel : nat) (n : Z) :
  0 <= n < 2 ^ Z.of_nat fuel ->
  decimal (digits_of fuel n []) = n
  /\ forallb is_digit (digits_of fuel n []) = true.
Proof.
  revert n. induction fuel as [|f IH]; intros n Hn.
  - simpl in *. split; [|reflexivity]. unfold decimal. simpl. lia.
  - assert (Hd : 0 <= n mod 10 < 10) by (apply Z.mod_pos_bound; lia).
    simpl digits_of. destruct (Z.ltb_spec n 10).
    + rewrite Z.mod_small by lia. split.
      * unfold decimal. simpl. rewrite digit_value_char; lia.
      * simpl. rewrite is_digit_char by lia. reflexivity.
    + rewrite digits_of_acc.
      assert (Hq : 0 <= n / 10 < 2 ^ Z.of_nat f).
      { split; [apply Z.div_pos; lia|].
        rewrite Nat2Z.inj_succ, Z.pow_succ_r in Hn by lia.
        apply Z.div_lt_upper_bound; lia. }
      destruct (IH _ Hq) as [E1 E2]. split.
      * rewrite decimal_snoc, E1, digit_value_char by exact Hd.
        pose proof (Z.div_mod n 10 ltac:(lia)). lia.
      * rewrite forallb_app, E2. simpl. rewrite is_digit_char by exact Hd.
        reflexivity.
Qed.

Lemma digits_of_nonempty (fuel : nat) (n : Z) (acc : list char) :
  digits_of (S fuel) n acc <> [].
Proof.
  simpl. destruct (n <? 10); [discriminate|].
  rewrite digits_of_acc. intros H. apply app_eq_nil in H as [_ H]. discriminate.
Qed.

(** The text of a non-negative integer is its decimal numeral: a run of
    digits whose value is the integer. *)
Lemma toString_decimal (n : Z) :
  0 <= n -> run_of is_digit (toString n) = true /\ decimal (toString n) = n.
Proof.
  intros Hn. unfold toString. destruct (Z.ltb_spec n 0); [lia|].
  assert (Hb : 0 <= n < 2 ^ Z.of_nat (digits_fuel n)).
  { unfold digits_fuel. rewrite Nat2Z.inj_succ, Z2Nat.id by apply Z.log2_nonneg.
    destruct (Z.eq_dec n 0) as [->|]; [simpl; lia|].
    pose proof (Z.log2_spec n ltac:(lia)). lia. }
  destruct (digits_of_decimal _ _ Hb) as [E1 E2]. split; [|exact E1].
  unfold run_of. destruct (digits_of (digits_fuel n) n []) eqn:E; [|exact E2].
  exfalso. exact (digits_of_nonempty _ _ _ E).
Qed.

Lemma parseInt_toString (n : Z) : 0 <= n -> parseInt (toString n) = Int n.
Proof.
  intros Hn. destruct (toString_decimal n Hn) as [H1 H2].
  rewrite parseInt_digits by exact H1. rewrite H2. reflexivity.
Qed.

(** Below 60 the padded text is exactly two digits. *)
Lemma padStart_two_digits (r : Z) :
  0 <= r < 60 ->
  padStart 2 (lit "0") (toString r) = [digit_char (r / 10); digit_char (r mod 10)].
Proof.
  intros Hr.
  assert (E : exists n : nat, (n < 60)%nat /\ r = Z.of_nat n)
    by (exists (Z.to_nat r); lia).
  destruct E as (n & Hn & ->).
  do 60 (destruct n as [|n]; [reflexivity|]). lia.
Qed.

Lemma progress_complete (T : Z) : 0 < T -> progressPercentage T 0 = Percent (100 # 1)%Q.
Proof.
  intros HT. unfold progressPercentage.
  destruct (Z.eqb_spec T 0); [lia|]. f_equal.
  change (100 # 1)%Q with (Qred (100 # 1)%Q). apply Qred_complete.
  rewrite Z.sub_0_r.
  assert (H : ~ (inject_Z T == 0)%Q).
  { unfold Qeq, inject_Z. simpl. lia. }
  change (inject_Z 100) with (100 # 1)%Q. field. exact H.
Qed.

Lemma barEl_showLockoutExpired (p : Page) : barEl (showLockoutExpired p) = barEl p.
Proof.
  unfold showLockoutExpired.
  destruct (query_lockout_alert p), (countdownEl p); reflexivity.
Qed.

Lemma two_digits_value (r : Z) :
  0 <= r < 60 ->
  forallb is_digit [digit_char (r / 10); digit_char (r mod 10)] = true
  /\ decimal [digit_char (r / 10); digit_char (r mod 10)] = r.
Proof.
  intros Hr.
  assert (H1 : 0 <= r / 10 < 10)
    by (split; [apply Z.div_pos; lia|apply Z.div_lt_upper_bound; lia]).
  assert (H2 : 0 <= r mod 10 < 10) by (apply Z.mod_pos_bound; lia).
  split.
  - simpl. rewrite !is_digit_char by assumption. reflexivity.
  - unfold decimal. simpl. rewrite !digit_value_char by assumption.
    pose proof (Z.div_mod r 10 ltac:(lia)). lia.
Qed.

(** C6 -- Display formatting.  For a non-negative number of seconds with
    at least one full minute the text is "M:SS": M the decimal numeral of
    the minutes, SS two digits whose value is the seconds within the
    minute; below one minute it is "Ss", S the decimal numeral of the
    seconds.  65 gives "1:05" and 9 gives "9s".  With no second left the
    percentage is exactly 100, and the tick that reaches zero writes it to
    the bar. *)
Theorem display_formatting :
  (forall seconds, 0 <= seconds <= MAX_SAFE_INTEGER ->
     if 0 <? seconds / 60 then
       exists M SS,
         formatTime seconds = M ++ lit ":" ++ SS
         /\ run_of is_digit M = true /\ decimal M = seconds / 60
         /\ length SS = 2%nat /\ forallb is_digit SS = true
         /\ decimal SS = seconds mod 60
     else
       exists S,
         formatTime seconds = S ++ lit "s"
         /\ run_of is_digit S = true /\ decimal S = seconds)
  /\ formatTime 65 = lit "1:05"
  /\ formatTime 9 = lit "9s"
  /\ (forall T, 0 < T -> progressPercentage T 0 = Percent (100 # 1)%Q)
  /\ (forall p c, ticker p = Some c -> active c = true -> totalSeconds c = 1 ->
                  0 < originalSeconds c -> is_Some (barEl p) ->
                  barEl (step p TickFires) = Some (Some (Percent (100 # 1)%Q))).
Proof.
  split; [|split; [reflexivity|split; [reflexivity|split; [exact progress_complete|]]]].
  - intros seconds [H0 _]. unfold formatTime.
    rewrite Z.rem_mod_nonneg by lia.
    destruct (Z.ltb_spec 0 (seconds / 60)) as [Hm|Hm].
    + assert (Hr : 0 <= seconds mod 60 < 60) by (apply Z.mod_pos_bound; lia).
      rewrite padStart_two_digits by exact Hr.
      destruct (toString_decimal (seconds / 60) ltac:(lia)) as [D1 D2].
      destruct (two_digits_value _ Hr) as [T1 T2].
      eexists _, _. split; [reflexivity|]. auto 6.
    + assert (seconds / 60 = 0)
        by (pose proof (Z.div_pos seconds 60 H0 ltac:(lia)); lia).
      assert (seconds < 60) by (apply Z.div_small_iff in H; lia).
      rewrite Z.mod_small by lia.
      destruct (toString_decimal seconds H0) as [D1 D2].
      eexists. split; [reflexivity|]. auto.
  - intros p c Hc Ha Ht Ho [b Hb]. simpl. rewrite Hc, Ha.
    unfold countdownCallback. rewrite Ht. simpl.
    rewrite barEl_showLockoutExpired.
    destruct (timerEl p); simpl; rewrite Hb; simpl;
      rewrite progress_complete by exact Ho; reflexivity.
Qed.

Lemma display_formatting_witness :
  (exists M SS,
      formatTime 125 = M ++ lit ":" ++ SS
      /\ run_of is_digit M = true /\ decimal M = 2
      /\ length SS = 2%nat /\ forallb is_digit SS = true /\ decimal SS = 5)
  /\ progressPercentage 125 0 = Percent (100 # 1)%Q
  /\ barEl (step (run (replicate 44 TickFires)
                    (countdownOnLoad
                       (rendered (Some (lockedAlert (lit "45 second(s)"))) None)))
              TickFires)
     = Some (Some (Percent (100 # 1)%Q)).
Proof.
  destruct display_formatting as (Hf & _ & _ & Hp & Hb).
  split; [|split].
  - apply (Hf 125). vm_compute. split; discriminate.
  - apply (Hp 125). lia.
  - apply (Hb _ {| totalSeconds := 1; originalSeconds := 45; active := true |});
      [vm_compute; reflexivity | reflexivity | reflexivity | simpl; lia
      | vm_compute; eauto].
Defined.

(** ** Events other than ticks leave the countdown widget alone *)

Lemma sameWidget_loginSubmit (p : Page) : sameWidget p (snd (loginSubmit p)).
Proof.
  unfold sameWidget, loginSubmit.
  destruct (query_lockout_alert p) as [a|]; [|simpl; auto 6].
  destruct (negb _); [|simpl; auto 6]. simpl.
  destruct (warningEl p); simpl; auto 6.
Qed.

Lemma sameWidget_runTimeout (t : Timeout) (p : Page) : sameWidget p (runTimeout t p).
Proof.
  unfold sameWidget, runTimeout. destruct (action t) as [w|].
  - destruct (warningEl p) as [w'|]; [|auto 6].
    destruct (w' =? w)%nat; simpl; auto 6.
  - destruct (loginForm p); simpl; auto 6.
Qed.

Lemma sameWidget_step (p : Page) (e : event) :
  e <> TickFires -> sameWidget p (step p e).
Proof.
  destruct e as [| |i]; intros He; [contradiction| |]; simpl.
  - destruct (loginForm p); [apply sameWidget_loginSubmit|].
    unfold sameWidget; auto 6.
  - destruct (timeouts p !! i) as [t|]; [|unfold sameWidget; auto 6].
    destruct (sameWidget_runTimeout t (set_timeouts (delete i (timeouts p)) p))
      as (H1 & H2 & H3 & H4 & H5).
    unfold sameWidget. rewrite H1, H2, H3, H4, H5. simpl. auto 6.
Qed.

(** A tick leaves the form, the warning and the timeouts alone. *)
Lemma countdownCallback_rest (c : Countdown) (p : Page) :
  warningEl (countdownCallback c p) = warningEl p
  /\ timeouts (countdownCallback c p) = timeouts p
  /\ loginForm (countdownCallback c p) = loginForm p
  /\ nextId (countdownCallback c p) = nextId p.
Proof.
  unfold countdownCallback, showLockoutExpired.
  destruct (totalSeconds c - 1 <=? 0); simpl;
    destruct (timerEl p); simpl; destruct (barEl p); simpl;
    repeat match goal with
      | |- context [match ?x with _ => _ end] => destruct x; simpl
      end; auto.
Qed.

(** ** The submit gate *)

Lemma gateInv_step (p : Page) (e : event) : gateInv p -> gateInv (step p e).
Proof.
  intros H. destruct e as [| |i].
  - unfold gateInv, phaseOf in *. rewrite ticker_step_tick.
    destruct (ticker p) as [c|] eqn:Ec.
    + destruct (active c) eqn:Ea.
      * simpl step. rewrite Ec, Ea.
        destruct (Z.leb_spec (totalSeconds c - 1) 0) as [Hz|Hz]; cbn [active].
        -- unfold countdownCallback.
           destruct (Z.leb_spec (totalSeconds c - 1) 0); [|lia].
           apply unlocked_showLockoutExpired.
        -- unfold countdownCallback.
           destruct (Z.leb_spec (totalSeconds c - 1) 0); [lia|].
           destruct H as (a & Ha & Hl). exists a. split; [|exact Hl].
           simpl. destruct (timerEl p); simpl; destruct (barEl p); exact Ha.
      * rewrite Ea. simpl step. rewrite Ec, Ea. exact H.
    + simpl step. rewrite Ec. exact H.
  - destruct (sameWidget_step p SubmitLogin) as (H1 & _ & _ & _ & H5);
      [discriminate|].
    unfold gateInv, phaseOf, locked, unlocked in *. rewrite H1, H5. exact H.
  - destruct (sameWidget_step p (TimeoutFires i)) as (H1 & _ & _ & _ & H5);
      [discriminate|].
    unfold gateInv, phaseOf, locked, unlocked in *. rewrite H1, H5. exact H.
Qed.

Lemma elem_of_delete_other {A : Type} (l : list A) (i : nat) (x y : A) :
  l !! i = Some y -> x ∈ l -> x <> y -> x ∈ delete i l.
Proof.
  intros Hi Hx Hne.
  rewrite (delete_Permutation l i y Hi) in Hx.
  apply elem_of_cons in Hx as [->|Hx]; [contradiction|exact Hx].
Qed.

Lemma warningInv_step (p : Page) (e : event) : warningInv p -> warningInv (step p e).
Proof.
  intros H. destruct e as [| |i].
  - simpl. destruct (ticker p) as [c|]; [|exact H].
    destruct (active c); [|exact H].
    destruct (countdownCallback_rest c p) as (H1 & H2 & _).
    unfold warningInv. rewrite H1, H2. exact H.
  - simpl. destruct (loginForm p); [|exact H].
    unfold loginSubmit. destruct (query_lockout_alert p); [|exact H].
    destruct (negb _); [|exact H]. simpl.
    destruct (warningEl p) as [w|] eqn:Ew; simpl; intros w'; simpl.
    + rewrite Ew. intros Hw'. apply elem_of_app. left. apply H.
      rewrite Ew. exact Hw'.
    + intros [= <-]. apply elem_of_app. left. apply elem_of_app. right.
      apply list_elem_of_singleton. reflexivity.
  - simpl. destruct (timeouts p !! i) as [t|] eqn:Et; [|exact H].
    unfold runTimeout. destruct t as [d [w|]]; simpl.
    + destruct (warningEl p) as [w'|] eqn:Ew; simpl.
      * destruct (Nat.eqb_spec w' w) as [->|Hne].
        -- intros w''. simpl. discriminate.
        -- intros w''. simpl. rewrite Ew. intros [= <-].
           eapply elem_of_delete_other; [exact Et|apply H, Ew|congruence].
      * intros w''. simpl. rewrite Ew. discriminate.
    + destruct (loginForm p); intros w'; simpl; intros Hw';
        (eapply elem_of_delete_other; [exact Et|apply H, Hw'|discriminate]).
Qed.

Lemma inv_run (I : Page -> Prop) (evs : list event) (p : Page) :
  (forall q e, I q -> I (step q e)) -> I p -> I (run evs p).
Proof.
  intros Hstep. revert p.
  induction evs as [|e evs IH]; intros p H; [exact H|].
  apply IH, Hstep, H.
Qed.

(** What the load handler leaves untouched. *)
Lemma countdownOnLoad_rest (p : Page) :
  alertEl (countdownOnLoad p) = alertEl p
  /\ warningEl (countdownOnLoad p) = warningEl p
  /\ timeouts (countdownOnLoad p) = timeouts p
  /\ loginForm (countdownOnLoad p) = loginForm p.
Proof.
  unfold countdownOnLoad.
  destruct (query_lockout_alert p) as [a|]; [|auto].
  destruct (reason a) as [m|]; [|auto].
  destruct (exec timeRegex m) as [tm|]; [|auto].
  destruct (truthy _ && gt_zero _); [|auto].
  destruct (totalSecondsOf tm) as [|[|z]]; auto.
Qed.

(** The load handler starts a countdown with a positive number of seconds
    or does nothing. *)
Lemma countdownOnLoad_cases (p : Page) :
  countdownOnLoad p = p
  \/ exists z, 0 < z
       /\ countdownOnLoad p
          = startLockoutCountdown z
              (set_barEl (Some None)
                 (set_timerEl (Some (formatTime z))
                    (set_countdownEl (Some CountdownMarkup) p))).
Proof.
  unfold countdownOnLoad.
  destruct (query_lockout_alert p) as [a|]; [|auto].
  destruct (reason a) as [m|]; [|auto].
  destruct (exec timeRegex m) as [tm|]; [|auto].
  destruct (totalSecondsOf tm) as [|[|z]]; simpl; auto.
  destruct (Z.ltb_spec 0 z); [|rewrite andb_false_r; auto].
  destruct (negb (z =? 0)); simpl; eauto.
Qed.

Lemma gateInv_loaded (alert : AlertEl) (form : option string) :
  "lockout-alert" ∈ classList alert -> "alert-success" ∉ classList alert ->
  gateInv (countdownOnLoad (rendered (Some alert) form)).
Proof.
  intros Hl Hs. set (p := rendered (Some alert) form).
  assert (L : locked (countdownOnLoad p)).
  { exists alert. destruct (countdownOnLoad_rest p) as (-> & _). auto. }
  unfold gateInv, phaseOf.
  destruct (countdownOnLoad_cases p) as [E|(z & Hz & E)];
    rewrite E in L |- *; simpl; exact L.
Qed.

Lemma warningInv_loaded (alert : option AlertEl) (form : option string) :
  warningInv (countdownOnLoad (rendered alert form)).
Proof.
  unfold warningInv. destruct (countdownOnLoad_rest (rendered alert form))
    as (_ & -> & _). simpl. discriminate.
Qed.

Lemma locked_query (p : Page) :
  locked p ->
  exists a, query_lockout_alert p = Some a /\ "alert-success" ∉ classList a.
Proof.
  intros (a & Ha & Hl & Hs). exists a. split; [|exact Hs].
  unfold query_lockout_alert. rewrite Ha, bool_decide_eq_true_2 by exact Hl.
  reflexivity.
Qed.

Lemma unlocked_query (p : Page) : unlocked p -> query_lockout_alert p = None.
Proof.
  intros H. unfold query_lockout_alert.
  destruct (alertEl p) as [a|] eqn:E; [|reflexivity].
  rewrite bool_decide_eq_false_2 by (apply H, E). reflexivity.
Qed.

Lemma removeWarning_removes (w : nat) (d : Z) (p : Page) :
  warningEl p = Some w ->
  warningEl (runTimeout {| delay := d; action := RemoveWarning w |} p) = None.
Proof.
  intros H. unfold runTimeout. simpl. rewrite H, Nat.eqb_refl. reflexivity.
Qed.

(** C7 -- Form-submit gating (amended).  On a page loaded with a lockout
    alert and a login form, after any sequence of events: while the
    countdown has not expired (idle with the lock, or running) the submit
    handler calls preventDefault, and afterwards a warning is attached whose
    removal timer of 5000 ms is pending and removes it when it fires; the
    handler creates that warning when none was attached, and otherwise
    leaves the one already shown.  Once the countdown has expired the
    handler does nothing and does not prevent the submission. *)
Theorem submit_gating (alert : AlertEl) (form : string) (evs : list event) :
  "lockout-alert" ∈ classList alert -> "alert-success" ∉ classList alert ->
  let p := run evs (countdownOnLoad (rendered (Some alert) (Some form))) in
  (phaseOf p <> Expired ->
     fst (loginSubmit p) = true
     /\ exists w,
          warningEl (snd (loginSubmit p)) = Some w
          /\ {| delay := 5000; action := RemoveWarning w |} ∈ timeouts (snd (loginSubmit p))
          /\ warningEl (runTimeout {| delay := 5000; action := RemoveWarning w |}
                          (snd (loginSubmit p))) = None
          /\ (warningEl p = None -> warningInserted p (snd (loginSubmit p))))
  /\ (phaseOf p = Expired -> loginSubmit p = (false, p)).
Proof.
  intros Hl Hs p.
  assert (G : gateInv p)
    by (apply inv_run; [exact gateInv_step|apply gateInv_loaded; assumption]).
  assert (W : warningInv p)
    by (apply inv_run; [exact warningInv_step|apply warningInv_loaded]).
  unfold gateInv in G. split.
  - intros Hph.
    assert (L : locked p) by (destruct (phaseOf p); [exact G|exact G|contradiction]).
    destruct (locked_query p L) as (a & Hq & Ha).
    unfold loginSubmit. rewrite Hq, bool_decide_eq_false_2 by exact Ha. simpl.
    split; [reflexivity|].
    destruct (warningEl p) as [w|] eqn:Ew; simpl.
    + exists w. rewrite Ew. split; [reflexivity|]. split; [|split].
      * apply elem_of_app. left. apply W, Ew.
      * apply removeWarning_removes. simpl. exact Ew.
      * discriminate.
    + exists (nextId p). split; [reflexivity|]. split; [|split].
      * apply elem_of_app. left. apply elem_of_app. right.
        apply list_elem_of_singleton. reflexivity.
      * apply removeWarning_removes. reflexivity.
      * intros _. exists (nextId p). simpl. split; [reflexivity|lia].
  - intros Hph. rewrite Hph in G.
    unfold loginSubmit. rewrite (unlocked_query p G). reflexivity.
Qed.

Lemma submit_gating_witness :
  fst (loginSubmit (run [TickFires] (countdownOnLoad (lockedPage (lit "2 second(s)")))))
  = true
  /\ loginSubmit (run [TickFires; TickFires]
                    (countdownOnLoad (lockedPage (lit "2 second(s)"))))
     = (false, run [TickFires; TickFires]
                 (countdownOnLoad (lockedPage (lit "2 second(s)")))).
Proof.
  split.
  - apply (submit_gating (lockedAlert (lit "2 second(s)")) "" [TickFires]);
      [vm_compute; reflexivity | vm_compute; discriminate | vm_compute; discriminate].
  - apply (submit_gating (lockedAlert (lit "2 second(s)")) "" [TickFires; TickFires]);
      [vm_compute; reflexivity | vm_compute; discriminate | vm_compute; reflexivity].
Defined.

(** C7, as stated, fails on a second attempt: with the warning of a first
    blocked attempt still shown, the next attempt is blocked as well but
    no warning is inserted. *)
Lemma submit_gating_counterexample :
  phaseOf afterFirstAttempt = Running
  /\ fst (loginSubmit afterFirstAttempt) = true
  /\ ~ warningInserted afterFirstAttempt (snd (loginSubmit afterFirstAttempt)).
Proof.
  split; [vm_compute; reflexivity|]. split; [vm_compute; reflexivity|].
  intros (w & Hw & Hle).
  assert (E : warningEl (snd (loginSubmit afterFirstAttempt)) = Some 0%nat)
    by (vm_compute; reflexivity).
  assert (N : nextId afterFirstAttempt = 1%nat) by (vm_compute; reflexivity).
  rewrite E in Hw. injection Hw as <-. rewrite N in Hle. lia.
Qed.

(** ** The zero-duration guard *)

Lemma progressPercentage_finite (orig total : Z) :
  0 < orig -> progressPercentage orig total <> NotFinite.
Proof.
  intros H. unfold progressPercentage.
  destruct (Z.eqb_spec orig 0); [lia|discriminate].
Qed.

Lemma barEl_countdownCallback (c : Countdown) (p : Page) :
  barEl (countdownCallback c p)
  = match barEl p with
    | Some _ => Some (Some (progressPercentage (originalSeconds c) (totalSeconds c - 1)))
    | None => None
    end.
Proof.
  unfold countdownCallback.
  destruct (totalSeconds c - 1 <=? 0); rewrite ?barEl_showLockoutExpired; simpl;
    destruct (timerEl p); simpl; destruct (barEl p) eqn:Eb; simpl;
    rewrite ?Eb; reflexivity.
Qed.

Lemma divisorInv_step (p : Page) (e : event) : divisorInv p -> divisorInv (step p e).
Proof.
  intros [Hc Hb]. destruct e as [| |i].
  - split.
    + intros c'. rewrite ticker_step_tick.
      destruct (ticker p) as [c|] eqn:Ec; [|discriminate].
      specialize (Hc c eq_refl).
      destruct (active c); intros [= <-]; exact Hc.
    + simpl. destruct (ticker p) as [c|] eqn:Ec; [|exact Hb].
      destruct (active c); [|exact Hb].
      rewrite barEl_countdownCallback.
      destruct (barEl p); [|discriminate].
      intros [= E]. exact (progressPercentage_finite _ _ (Hc c eq_refl) E).
  - destruct (sameWidget_step p SubmitLogin) as (_ & _ & _ & H4 & H5);
      [discriminate|].
    unfold divisorInv. rewrite H4, H5. auto.
  - destruct (sameWidget_step p (TimeoutFires i)) as (_ & _ & _ & H4 & H5);
      [discriminate|].
    unfold divisorInv. rewrite H4, H5. auto.
Qed.

Lemma divisorInv_loaded (alert : option AlertEl) (form : option string) :
  divisorInv (countdownOnLoad (rendered alert form)).
Proof.
  destruct (countdownOnLoad_cases (rendered alert form)) as [E|(z & Hz & E)];
    rewrite E; split; simpl; try discriminate.
  intros c [= <-]. exact Hz.
Qed.

(** A page on which no countdown was started stays that way. *)
Lemma idle_step (p : Page) (e : event) :
  ticker p = None -> sameWidget p (step p e).
Proof.
  intros H. destruct e as [| |i].
  - simpl. rewrite H. unfold sameWidget. auto 6.
  - apply sameWidget_step. discriminate.
  - apply sameWidget_step. discriminate.
Qed.

Lemma idle_run (evs : list event) (p : Page) :
  ticker p = None -> sameWidget p (run evs p).
Proof.
  revert p. induction evs as [|e evs IH]; intros p H.
  - unfold sameWidget. simpl. auto 6.
  - destruct (idle_step p e H) as (H1 & H2 & H3 & H4 & H5).
    destruct (IH (step p e)) as (G1 & G2 & G3 & G4 & G5); [congruence|].
    unfold sameWidget. simpl. rewrite G1, G2, G3, G4, G5. auto 6.
Qed.

(** The same invariant on the pages the load handler produces, whatever
    the message. *)
Lemma loaded_countdown_invariant (alert : option AlertEl) (form : option string)
    (evs : list event) (c : Countdown) :
  ticker (run evs (countdownOnLoad (rendered alert form))) = Some c ->
  0 < originalSeconds c /\ 0 <= totalSeconds c <= originalSeconds c.
Proof.
  intros Hc.
  destruct (countdownOnLoad_cases (rendered alert form)) as [E|(z & Hz & E)];
    rewrite E in Hc.
  - destruct (idle_run evs (rendered alert form) eq_refl) as (_ & _ & _ & _ & H5).
    rewrite H5 in Hc. discriminate.
  - pose proof (countdownInv_run z evs _
                  (countdownInv_start z
                     (set_barEl (Some None)
                        (set_timerEl (Some (formatTime z))
                           (set_countdownEl (Some CountdownMarkup)
                              (rendered alert form)))) Hz))
      as (c' & Hc' & Ho & Hr & _).
    rewrite Hc in Hc'. injection Hc' as <-. rewrite Ho. lia.
Qed.

(** The controller only moves forward: Idle stays Idle once the page is
    loaded, Running stays Running or becomes Expired, Expired is terminal. *)
Lemma phase_step (p : Page) (e : event) :
  match phaseOf p with
  | Idle => phaseOf (step p e) = Idle
  | Running => phaseOf (step p e) = Running \/ phaseOf (step p e) = Expired
  | Expired => phaseOf (step p e) = Expired
  end.
Proof.
  unfold phaseOf. destruct e as [| |i].
  - rewrite ticker_step_tick. destruct (ticker p) as [c|]; [|reflexivity].
    destruct (active c) eqn:Ea; [|rewrite Ea; reflexivity].
    cbn [active]. destruct (totalSeconds c - 1 <=? 0); auto.
  - rewrite ticker_step_other by discriminate.
    destruct (ticker p) as [c|]; [|reflexivity]. destruct (active c); auto.
  - rewrite ticker_step_other by discriminate.
    destruct (ticker p) as [c|]; [|reflexivity]. destruct (active c); auto.
Qed.

Lemma countdownOnLoad_zero (alert : AlertEl) (form : option string)
    (message : list char) (v : jsval) :
  reason alert = Some message ->
  parseDuration message = Some v -> truthy v && gt_zero v = false ->
  countdownOnLoad (rendered (Some alert) form) = rendered (Some alert) form.
Proof.
  intros Hr Hp Hv. unfold countdownOnLoad, query_lockout_alert. simpl.
  destruct (bool_decide _); [|reflexivity]. rewrite Hr.
  unfold parseDuration in Hp.
  destruct (exec timeRegex message) as [tm|]; [|reflexivity].
  injection Hp as ->. rewrite Hv. reflexivity.
Qed.

(** C5 -- Zero-duration guard.  When the message parses to a total of zero
    seconds the load handler changes nothing: no countdown block, no
    interval, then or later.  On any page, after any events, a countdown
    that exists was started with a positive number of seconds, so the
    division of the percentage has a non-zero divisor and the bar never
    holds a non-finite width. *)
Theorem zero_duration_guard (alert : AlertEl) (form : option string)
    (message : list char) (evs : list event) :
  reason alert = Some message ->
  let p := rendered (Some alert) form in
  let q := run evs (countdownOnLoad p) in
  (parseDuration message = Some (Num (Int 0)) ->
     countdownOnLoad p = p /\ ticker q = None /\ countdownEl q = None
     /\ timerEl q = None /\ barEl q = None)
  /\ (forall c, ticker q = Some c ->
        0 < originalSeconds c
        /\ progressPercentage (originalSeconds c) (totalSeconds c - 1) <> NotFinite)
  /\ barEl q <> Some (Some NotFinite).
Proof.
  intros Hr p q. split; [|split].
  - intros Hp.
    assert (E : countdownOnLoad p = p)
      by (apply (countdownOnLoad_zero alert form message _ Hr Hp); reflexivity).
    split; [exact E|]. unfold q. rewrite E.
    destruct (idle_run evs p eq_refl) as (_ & H2 & H3 & H4 & H5).
    rewrite H2, H3, H4, H5. auto.
  - intros c Hc.
    assert (D : divisorInv q)
      by (apply inv_run; [exact divisorInv_step|apply divisorInv_loaded]).
    destruct D as [D _]. specialize (D c Hc).
    split; [exact D|apply progressPercentage_finite, D].
  - assert (D : divisorInv q)
      by (apply inv_run; [exact divisorInv_step|apply divisorInv_loaded]).
    apply D.
Qed.

Lemma zero_duration_guard_witness :
  countdownOnLoad (lockedPage (lit "Try again in 0 minute(s) and 0 second(s)"))
  = lockedPage (lit "Try again in 0 minute(s) and 0 second(s)")
  /\ ticker (run [TickFires; SubmitLogin; TickFires]
               (countdownOnLoad
                  (lockedPage (lit "Try again in 0 minute(s) and 0 second(s)"))))
     = None.
Proof.
  destruct (zero_duration_guard
              (lockedAlert (lit "Try again in 0 minute(s) and 0 second(s)"))
              (Some "") (lit "Try again in 0 minute(s) and 0 second(s)")
              [TickFires; SubmitLogin; TickFires] eq_refl) as (H & _).
  destruct H as (H1 & H2 & _); [vm_compute; reflexivity|].
  split; [exact H1|exact H2].
Defined.

(** C4 -- Unparseable input.  When the message of the alert contains
    neither duration shape the pattern does not match, and the load handler
    changes nothing: no countdown is created, no countdown block is
    inserted, and the alert, with its message, stays as rendered, then and
    after any later events. *)
Theorem unparseable_fallback (alert : AlertEl) (form : option string)
    (message : list char) (evs : list event) :
  reason alert = Some message -> ~ containsDuration message ->
  let p := rendered (Some alert) form in
  parseDuration message = None
  /\ countdownOnLoad p = p
  /\ phaseOf (run evs (countdownOnLoad p)) = Idle
  /\ countdownEl (run evs (countdownOnLoad p)) = None
  /\ alertEl (run evs (countdownOnLoad p)) = Some alert.
Proof.
  intros Hr Hn p.
  assert (Hp : parseDuration message = None) by (apply parseDuration_None_iff, Hn).
  assert (E : countdownOnLoad p = p).
  { unfold countdownOnLoad, query_lockout_alert. simpl.
    destruct (bool_decide _); [|reflexivity]. rewrite Hr.
    unfold parseDuration in Hp.
    destruct (exec timeRegex message); [discriminate|reflexivity]. }
  split; [exact Hp|]. split; [exact E|]. rewrite E.
  destruct (idle_run evs p eq_refl) as (H1 & H2 & _ & _ & H5).
  unfold phaseOf. rewrite H1, H2, H5. auto.
Qed.

Lemma unparseable_fallback_witness :
  parseDuration (lit "Locked for 5 minutes") = None
  /\ countdownOnLoad (lockedPage (lit "Locked for 5 minutes"))
     = lockedPage (lit "Locked for 5 minutes")
  /\ alertEl (run [SubmitLogin; TickFires]
                (countdownOnLoad (lockedPage (lit "Locked for 5 minutes"))))
     = Some (lockedAlert (lit "Locked for 5 minutes")).
Proof.
  destruct (unparseable_fallback (lockedAlert (lit "Locked for 5 minutes"))
              (Some "") (lit "Locked for 5 minutes") [SubmitLogin; TickFires]
              eq_refl) as (H1 & H2 & _ & _ & H5).
  - apply parseDuration_None_iff. vm_compute. reflexivity.
  - split; [exact H1|]. split; [exact H2|exact H5].
Defined.

(** ** File size guard *)

(** C10 -- File-size guard.  On a change event, when the first selected
    file is larger than 5*1024*1024 bytes the script alerts and resets the
    input to the empty value, which discards the selection; when it is at
    most that size, or when no file is selected, the input is left as it
    is and nothing is alerted. *)
Theorem file_size_guard (target : FileInput.Input) :
  (forall file rest,
      FileInput.files target = file :: rest ->
      5 * 1024 * 1024 < FileInput.size file ->
      FileInput.onChange target
      = (true, {| FileInput.files := []; FileInput.value := [] |}))
  /\ (forall file rest,
      FileInput.files target = file :: rest ->
      FileInput.size file <= 5 * 1024 * 1024 ->
      FileInput.onChange target = (false, target))
  /\ (FileInput.files target = [] -> FileInput.onChange target = (false, target)).
Proof.
  unfold FileInput.onChange. split; [|split].
  - intros file rest -> H.
    destruct (Z.ltb_spec (5 * 1024 * 1024) (FileInput.size file)); [reflexivity|lia].
  - intros file rest -> H.
    destruct (Z.ltb_spec (5 * 1024 * 1024) (FileInput.size file)); [lia|reflexivity].
  - intros ->. reflexivity.
Qed.

Lemma file_size_guard_witness :
  FileInput.onChange
    {| FileInput.files := [{| FileInput.size := 5242881 |}];
       FileInput.value := lit "C:\fakepath\scan.pdf" |}
  = (true, {| FileInput.files := []; FileInput.value := [] |})
  /\ FileInput.onChange
       {| FileInput.files := [{| FileInput.size := 5242880 |}];
          FileInput.value := lit "C:\fakepath\scan.pdf" |}
     = (false, {| FileInput.files := [{| FileInput.size := 5242880 |}];
                  FileInput.value := lit "C:\fakepath\scan.pdf" |}).
Proof.
  split.
  - apply (proj1 (file_size_guard _) {| FileInput.size := 5242881 |} []);
      [reflexivity|simpl; lia].
  - apply (proj1 (proj2 (file_size_guard _)) {| FileInput.size := 5242880 |} []);
      [reflexivity|simpl; lia].
Defined.

(** ** Password visibility toggle *)

Module ToggleFacts.
Import PasswordToggle.

Lemma lookup_alter_img (k v : string) (m n : nat) (d : gmap nat Element) :
  alter (set_prop k v) m d !! n ≫= img = d !! n ≫= img.
Proof.
  destruct (decide (m = n)) as [->|Hne].
  - rewrite lookup_alter_eq. destruct (d !! n); reflexivity.
  - rewrite lookup_alter_ne by exact Hne. reflexivity.
Qed.

Lemma get_prop_alter_other (k k' v : string) (m n : nat) (d : gmap nat Element) :
  k <> k' -> get_prop n k (alter (set_prop k' v) m d) = get_prop n k d.
Proof.
  intros Hk. unfold get_prop. destruct (decide (m = n)) as [->|Hne].
  - rewrite lookup_alter_eq. destruct (d !! n) as [e|]; [|reflexivity].
    simpl. apply lookup_insert_ne. congruence.
  - rewrite lookup_alter_ne by exact Hne. reflexivity.
Qed.

Lemma get_prop_alter_same (k v : string) (n : nat) (d : gmap nat Element) :
  is_Some (d !! n) -> get_prop n k (alter (set_prop k v) n d) = Some v.
Proof.
  intros [e He]. unfold get_prop. rewrite lookup_alter_eq, He. simpl.
  apply lookup_insert_eq.
Qed.

Lemma get_prop_is_Some (k v : string) (n : nat) (d : gmap nat Element) :
  get_prop n k d = Some v -> is_Some (d !! n).
Proof. unfold get_prop. destruct (d !! n); [eauto|discriminate]. Qed.

(** The type of the input after a toggle. *)
Lemma toggle_type (field toggle : nat) (d : gmap nat Element) (t : string) :
  get_prop field "type" d = Some t ->
  get_prop field "type" (togglePasswordField field toggle d)
  = Some (if bool_decide (t = "password") then "text" else "password").
Proof.
  intros Ht. pose proof (get_prop_is_Some _ _ _ _ Ht) as Hf.
  unfold togglePasswordField. rewrite Ht.
  destruct (decide (t = "password")) as [->|Hne].
  - rewrite !bool_decide_eq_true_2 by reflexivity.
    rewrite !get_prop_alter_other by discriminate.
    destruct (d !! toggle ≫= img);
      rewrite ?get_prop_alter_other by discriminate;
      apply get_prop_alter_same, Hf.
  - rewrite !bool_decide_eq_false_2 by congruence.
    rewrite !get_prop_alter_other by discriminate.
    destruct (d !! toggle ≫= img);
      rewrite ?get_prop_alter_other by discriminate;
      apply get_prop_alter_same, Hf.
Qed.

(** Elements other than the input, the control and the control's icon
    are not touched. *)
Lemma toggle_frame (field toggle n : nat) (d : gmap nat Element) :
  n <> field -> n <> toggle -> d !! toggle ≫= img <> Some n ->
  togglePasswordField field toggle d !! n = d !! n.
Proof.
  intros Hf Ht Hi. unfold togglePasswordField.
  destruct (bool_decide _); destruct (d !! toggle ≫= img) as [i|];
    rewrite !lookup_alter_ne by congruence; reflexivity.
Qed.

End ToggleFacts.

(** C8, as stated, fails: the toggle is not idempotent.  On a masked input
    one call shows the text and a second call masks it again, so two calls
    do not leave the page as one call does. *)
Lemma password_toggle_counterexample :
  PasswordToggle.togglePasswordField 0 1
    (PasswordToggle.togglePasswordField 0 1 PasswordToggle.samplePage)
  <> PasswordToggle.togglePasswordField 0 1 PasswordToggle.samplePage.
Proof.
  intros H. apply (f_equal (PasswordToggle.get_prop 0 "type")) in H.
  vm_compute in H. discriminate.
Qed.

(** C8 -- Password visibility toggle (amended).  A call flips the input
    between masked ([password]) and plaintext ([text]); a second call
    restores the masked or plaintext state the input had, so the toggle is
    an involution on that state; no element other than the input, the
    control and the control's icon is modified.  The function of
    final_v2 is the same function. *)
Theorem password_toggle_flip (field toggle : nat)
    (d : gmap nat PasswordToggle.Element) (t : string) :
  PasswordToggle.get_prop field "type" d = Some t ->
  let toggled := PasswordToggle.togglePasswordField field toggle d in
  PasswordToggle.get_prop field "type" toggled
  = Some (if bool_decide (t = "password") then "text" else "password")
  /\ (t = "password" \/ t = "text" ->
      PasswordToggle.get_prop field "type"
        (PasswordToggle.togglePasswordField field toggle toggled) = Some t)
  /\ (forall n, n <> field -> n <> toggle ->
                d !! toggle ≫= PasswordToggle.img <> Some n ->
                toggled !! n = d !! n)
  /\ PasswordToggle.toggleSpecificPasswordWithImages field toggle d = toggled.
Proof.
  intros Ht toggled.
  pose proof (ToggleFacts.toggle_type field toggle d t Ht) as H1.
  split; [exact H1|]. split; [|split].
  - intros [-> | ->].
    + rewrite (ToggleFacts.toggle_type field toggle toggled _ H1). reflexivity.
    + rewrite (ToggleFacts.toggle_type field toggle toggled _ H1). reflexivity.
  - intros n. apply ToggleFacts.toggle_frame.
  - reflexivity.
Qed.

Lemma password_toggle_flip_witness :
  PasswordToggle.get_prop 0 "type"
    (PasswordToggle.togglePasswordField 0 1 PasswordToggle.samplePage) = Some "text"
  /\ PasswordToggle.get_prop 0 "type"
       (PasswordToggle.togglePasswordField 0 1
          (PasswordToggle.togglePasswordField 0 1 PasswordToggle.samplePage))
     = Some "password".
Proof.
  destruct (password_toggle_flip 0 1 PasswordToggle.samplePage "password" eq_refl)
    as (H1 & H2 & _).
  split; [exact H1|]. apply H2. left. reflexivity.
Defined.

(** ** The matcher finds whatever the pattern describes *)

Lemma plus_bt_complete {R : Type} (cls : char -> bool) (w rest : list char)
    (k : list char -> option R) :
  run_of cls w = true -> is_Some (k rest) -> is_Some (plus_bt cls (w ++ rest) k).
Proof.
  intros Hw Hk. induction w as [|c w IH]; [discriminate|].
  apply run_of_cons_inv in Hw as [Hc Hall]. simpl. rewrite Hc.
  destruct w as [|b w].
  - simpl. destruct (plus_bt cls rest k); [eauto|exact Hk].
  - destruct (IH Hall) as [res ->]. eauto.
Qed.

Lemma rmatch_complete {R : Type} (r : regex) :
  forall (s rest : list char) (caps : gmap nat (list char))
         (k : list char -> gmap nat (list char) -> option R),
    matches r s rest -> (forall c, is_Some (k rest c)) ->
    is_Some (rmatch r s caps k).
Proof.
  induction r as [l|cls|r1 IH1 r2 IH2|r1 IH1 r2 IH2|n r IH|];
    intros s rest caps k M Hk.
  - apply matches_lit_inv in M as ->. simpl. rewrite strip_prefix_app. apply Hk.
  - apply matches_plus_inv in M as (w & Hw & ->). simpl.
    apply plus_bt_complete; [exact Hw|apply Hk].
  - apply matches_seq_inv in M as (s1 & M1 & M2). simpl.
    apply (IH1 s s1); [exact M1|]. intros c. apply (IH2 s1 rest); assumption.
  - simpl. apply matches_alt_inv in M as [M|M].
    + destruct (IH1 s rest caps k M Hk) as [res ->]. eauto.
    + destruct (rmatch r1 s caps k); [eauto|]. apply (IH2 s rest); assumption.
  - apply matches_group_inv in M. simpl.
    apply (IH s rest); [exact M|]. intros c. apply Hk.
  - inversion M; subst. simpl. apply Hk.
Qed.

(** ** Field validator *)

Module ValidatorFacts.
Import Validator.

Lemma matches_end_inv (s rest : list char) : matches REnd s rest -> s = [] /\ rest = [].
Proof. inversion 1; auto. Qed.

(** The pattern of the validator accepts exactly the email shape. *)
Lemma emailRegex_test_shape (v : list char) :
  emailRegex_test v = true <-> emailShape v.
Proof.
  unfold emailRegex_test, match_here. split.
  - destruct (rmatch emailRegex v ∅ _) as [caps|] eqn:E; [|discriminate].
    intros _. apply rmatch_sound in E as (rest & _ & M & _).
    unfold emailRegex in M.
    next_run M a Ha. next_word M. next_run M b Hb. next_word M. next_run M c Hc.
    apply matches_end_inv in M as [-> ->].
    exists a, b, c. rewrite app_nil_r. auto.
  - intros (a & b & c & Ha & Hb & Hc & ->).
    assert (M : matches emailRegex (a ++ lit "@" ++ b ++ lit "." ++ c) []).
    { unfold emailRegex.
      eapply M_seq; [apply M_plus, Ha|].
      eapply M_seq; [apply M_lit|].
      eapply M_seq; [apply M_plus, Hb|].
      eapply M_seq; [apply M_lit|].
      eapply M_seq; [|apply M_end].
      rewrite <- (app_nil_r c) at 1. apply M_plus, Hc. }
    destruct (rmatch_complete emailRegex _ [] ∅ (fun _ caps => Some caps) M)
      as [caps ->]; [eauto|reflexivity].
Qed.

Lemma set_errorClass_twice (b b' : bool) (f : Field) :
  set_errorClass b (set_errorClass b' f) = set_errorClass b f.
Proof. reflexivity. Qed.

(** Replacing a field by one with the same id and value does not change
    what a lookup by id returns, as far as the value goes. *)
Lemma find_value_insert (name : string) (l : list Field) (i : nat) (f f' : Field) :
  l !! i = Some f -> value f' = value f -> id f' = id f ->
  value <$> (snd <$> list_find (fun x => id x = name) (<[i := f']> l))
  = value <$> (snd <$> list_find (fun x => id x = name) l).
Proof.
  revert i. induction l as [|x l IH]; intros i Hi Hv Hid; [discriminate|].
  destruct i as [|i]; simpl in Hi.
  - injection Hi as ->. simpl. rewrite Hid.
    destruct (decide (id f = name)); simpl; [congruence|reflexivity].
  - simpl. destruct (decide (id x = name)); [reflexivity|].
    specialize (IH i Hi Hv Hid).
    destruct (list_find _ (<[i:=f']> l)) as [[? ?]|],
             (list_find _ l) as [[? ?]|]; simpl in *; congruence.
Qed.

Section OneField.
Variables (i : nat) (doc : Doc) (field : Field).
Hypothesis Hfield : fields doc !! i = Some field.

Local Abbreviation marked := (markedAs i doc field).

Lemma marked_lookup (b : bool) (doc' : Doc) :
  marked b doc' -> fields doc' !! i = Some (set_errorClass b field).
Proof.
  intros ->. apply list_lookup_insert_eq. eapply lookup_lt_Some, Hfield.
Qed.

Lemma marked_clear : marked false (clearFieldError i doc).
Proof. unfold marked, clearFieldError. rewrite Hfield. reflexivity. Qed.

Lemma marked_show (b : bool) (message : list char) (doc' : Doc) :
  marked b doc' -> marked true (showFieldError i message doc').
Proof.
  intros H. unfold marked, showFieldError.
  rewrite (marked_lookup b doc' H). simpl. rewrite H.
  apply list_insert_insert_eq.
Qed.

Lemma marked_rule (b cond : bool) (message : list char) (st : bool * Doc) :
  marked b (snd st) ->
  marked (b || cond) (snd (rule i cond message st))
  /\ fst (rule i cond message st) = fst st && negb cond.
Proof.
  intros H. unfold rule. destruct cond; simpl.
  - rewrite orb_true_r, andb_false_r. split; [|reflexivity].
    eapply marked_show, H.
  - rewrite orb_false_r, andb_true_r. auto.
Qed.

Lemma marked_getElementById (b : bool) (name : string) (doc' : Doc) :
  marked b doc' ->
  value <$> getElementById name doc' = value <$> getElementById name doc.
Proof.
  intros H. unfold getElementById. rewrite H.
  apply (find_value_insert name (fields doc) i field); [exact Hfield| |];
    reflexivity.
Qed.

Lemma shown_clear :
  shownUnder (clearFieldError i doc) field = tail (shownUnder doc field).
Proof.
  unfold shownUnder, clearFieldError. rewrite Hfield. simpl.
  destruct (errors doc !! parent field) as [[|x rest]|] eqn:E; simpl.
  - rewrite E. reflexivity.
  - rewrite lookup_insert_eq. reflexivity.
  - rewrite E. reflexivity.
Qed.

Lemma shown_rule (b cond : bool) (message : list char) (st : bool * Doc) :
  marked b (snd st) ->
  shownUnder (snd (rule i cond message st)) field
  = shownUnder (snd st) field ++ (if cond then [message] else []).
Proof.
  intros H. unfold rule. destruct cond; simpl; [|rewrite app_nil_r; reflexivity].
  unfold shownUnder, showFieldError. rewrite (marked_lookup b _ H). simpl.
  rewrite lookup_insert_eq. reflexivity.
Qed.

Lemma validateField_spec :
  let v := trim (value field) in
  let companion := value <$> getElementById "register_password" doc in
  fst (validateField i doc)
  = verdict v (type field) (id field) (required field) companion
  /\ shownUnder (snd (validateField i doc)) field
     = tail (shownUnder doc field)
       ++ messages v (type field) (id field) (required field) companion
  /\ errorClass <$> (fields (snd (validateField i doc)) !! i)
     = Some (negb (fst (validateField i doc))).
Proof.
  intros v companion. unfold validateField. rewrite Hfield. cbv zeta. fold v.
  set (st0 := (true, clearFieldError i doc)).
  set (c1 := required field && negb (negb (bool_decide (v = [])))).
  set (st1 := rule i c1 _ st0).
  set (c2 := bool_decide (type field = "email") && negb (bool_decide (v = []))
             && negb (emailRegex_test v)).
  set (st2 := rule i c2 _ st1).
  set (c3 := bool_decide (id field = "register_password")
             && negb (bool_decide (v = [])) && (length v <? 8)%nat).
  set (st3 := rule i c3 _ st2).
  destruct (marked_rule false c1 (lit "This field is required") st0 marked_clear)
    as [M1 F1].
  pose proof (shown_rule false c1 (lit "This field is required") st0 marked_clear)
    as S1.
  fold st1 in M1, F1, S1.
  destruct (marked_rule _ c2 (lit "Please enter a valid email address") st1 M1)
    as [M2 F2].
  pose proof (shown_rule _ c2 (lit "Please enter a valid email address") st1 M1)
    as S2.
  fold st2 in M2, F2, S2.
  destruct (marked_rule _ c3 (lit "Password must be at least 8 characters long")
              st2 M2) as [M3 F3].
  pose proof (shown_rule _ c3 (lit "Password must be at least 8 characters long")
                st2 M2) as S3.
  fold st3 in M3, F3, S3.
  pose proof (marked_getElementById _ "register_password" _ M3) as G.
  fold companion in G.
  assert (C4 : match getElementById "register_password" (snd st3) with
               | Some passwordField => negb (bool_decide (v = value passwordField))
               | None => false
               end
               = match companion with
                 | Some password => negb (bool_decide (v = password))
                 | None => false
                 end).
  { rewrite <- G. destruct (getElementById _ (snd st3)); reflexivity. }
  rewrite C4.
  set (c4 := bool_decide (id field = "confirm_password")
             && negb (bool_decide (v = [])) && _).
  destruct (marked_rule _ c4 (lit "Passwords do not match") st3 M3) as [M4 F4].
  pose proof (shown_rule _ c4 (lit "Passwords do not match") st3 M3) as S4.
  assert (E1 : c1 = required field && bool_decide (v = []))
    by (unfold c1; rewrite negb_involutive; reflexivity).
  split; [|split].
  - rewrite F4, F3, F2, F1. unfold verdict, rules. cbn [forallb fst].
    fold c2 c3 c4. rewrite <- E1.
    destruct c1, c2, c3, c4; reflexivity.
  - rewrite S4, S3, S2, S1. unfold st0. cbn [snd]. rewrite shown_clear.
    unfold messages, rules. fold c2 c3 c4. rewrite <- E1.
    rewrite <- !app_assoc. f_equal.
    destruct c1, c2, c3, c4; reflexivity.
  - rewrite (marked_lookup _ _ M4), F4, F3, F2, F1. simpl. f_equal.
    destruct c1, c2, c3, c4; reflexivity.
Qed.

End OneField.

End ValidatorFacts.

(** C9, as stated, fails: validateField is not a pure function.  Called on
    an empty required field it returns false and leaves a changed document
    behind: the field carries the [error] class and a message element has
    been appended to its parent. *)
Lemma validateField_counterexample :
  fst (Validator.validateField 0
         (Validator.sampleForm [] (lit "hunter22") (lit "hunter22"))) = false
  /\ snd (Validator.validateField 0
            (Validator.sampleForm [] (lit "hunter22") (lit "hunter22")))
     <> Validator.sampleForm [] (lit "hunter22") (lit "hunter22").
Proof.
  split; [vm_compute; reflexivity|].
  intros H.
  apply (f_equal (fun d => Validator.errorClass <$> (Validator.fields d !! 0%nat))) in H.
  vm_compute in H. discriminate.
Qed.

(** C9 -- Field validator (amended).  The boolean that validateField
    returns is the verdict determined by the trimmed value of the field,
    its type, id and required attribute and the value of the field with id
    [register_password].  A required field whose trimmed value is empty is
    invalid; a field of type email whose trimmed value is not empty and not
    of the email shape is invalid; the field [register_password] with a
    non-empty trimmed value of fewer than 8 characters is invalid; the field
    [confirm_password] with a non-empty trimmed value different from the
    value of [register_password] is invalid.  The call is not pure: under
    the parent of the field it removes the first error element and appends
    the message of each failed rule, and it leaves the [error] class on the
    field exactly when the verdict is "invalid". *)
Theorem validateField_verdict (i : nat) (doc : Validator.Doc) (field : Validator.Field) :
  Validator.fields doc !! i = Some field ->
  let v := trim (Validator.value field) in
  let companion :=
    Validator.value <$> Validator.getElementById "register_password" doc in
  let isValid := fst (Validator.validateField i doc) in
  let after := snd (Validator.validateField i doc) in
  isValid
  = Validator.verdict v (Validator.type field) (Validator.id field)
      (Validator.required field) companion
  /\ (Validator.required field = true -> v = [] -> isValid = false)
  /\ (Validator.type field = "email" -> v <> [] -> ~ Validator.emailShape v ->
      isValid = false)
  /\ (Validator.id field = "register_password" -> v <> [] -> (length v < 8)%nat ->
      isValid = false)
  /\ (Validator.id field = "confirm_password" -> v <> [] ->
      forall password, companion = Some password -> v <> password ->
      isValid = false)
  /\ Validator.shownUnder after field
     = tail (Validator.shownUnder doc field)
       ++ Validator.messages v (Validator.type field) (Validator.id field)
            (Validator.required field) companion
  /\ Validator.errorClass <$> (Validator.fields after !! i) = Some (negb isValid).
Proof.
  intros Hf v companion isValid after.
  destruct (ValidatorFacts.validateField_spec i doc field Hf) as (E & S & C).
  fold v companion in E, S. fold isValid in E, C. fold after in S, C.
  split; [exact E|].
  split; [|split; [|split; [|split; [|split; [exact S|exact C]]]]].
  - intros Hr Hv. rewrite E. unfold Validator.verdict, Validator.rules.
    cbn [forallb fst].
    rewrite Hr, bool_decide_eq_true_2 by exact Hv. reflexivity.
  - intros Ht Hv Hs. rewrite E. unfold Validator.verdict, Validator.rules.
    cbn [forallb fst].
    rewrite (bool_decide_eq_true_2 _ Ht), (bool_decide_eq_false_2 _ Hv).
    destruct (Validator.emailRegex_test v) eqn:Et.
    + exfalso. apply Hs, ValidatorFacts.emailRegex_test_shape, Et.
    + simpl. rewrite andb_false_r. reflexivity.
  - intros Hi Hv Hl. rewrite E. unfold Validator.verdict, Validator.rules.
    cbn [forallb fst].
    rewrite (bool_decide_eq_true_2 _ Hi), (bool_decide_eq_false_2 _ Hv).
    apply Nat.ltb_lt in Hl. rewrite Hl. simpl. rewrite !andb_false_r. reflexivity.
  - intros Hi Hv password Hc Hne. rewrite E. unfold Validator.verdict, Validator.rules.
    cbn [forallb fst].
    rewrite (bool_decide_eq_true_2 _ Hi), (bool_decide_eq_false_2 _ Hv), Hc.
    simpl. rewrite (bool_decide_eq_false_2 _ Hne). simpl.
    rewrite !andb_false_r. reflexivity.
Qed.

Lemma validateField_verdict_witness :
  fst (Validator.validateField 0
         (Validator.sampleForm (lit "  ") (lit "hunter22") (lit "hunter22"))) = false
  /\ fst (Validator.validateField 0
            (Validator.sampleForm (lit "ann@example") (lit "hunter22") (lit "hunter22")))
     = false
  /\ fst (Validator.validateField 1
            (Validator.sampleForm (lit "ann@example.org") (lit "hunter2") (lit "hunter2")))
     = false
  /\ fst (Validator.validateField 2
            (Validator.sampleForm (lit "ann@example.org") (lit "hunter22") (lit "hunter23")))
     = false.
Proof.
  split; [|split; [|split]].
  - destruct (validateField_verdict 0
                (Validator.sampleForm (lit "  ") (lit "hunter22") (lit "hunter22"))
                _ eq_refl) as (_ & H & _).
    apply H; reflexivity.
  - destruct (validateField_verdict 0
                (Validator.sampleForm (lit "ann@example") (lit "hunter22") (lit "hunter22"))
                _ eq_refl) as (_ & _ & H & _).
    apply H; [reflexivity|discriminate|].
    intros S. apply ValidatorFacts.emailRegex_test_shape in S.
    vm_compute in S. discriminate.
  - destruct (validateField_verdict 1
                (Validator.sampleForm (lit "ann@example.org") (lit "hunter2") (lit "hunter2"))
                _ eq_refl) as (_ & _ & _ & H & _).
    apply H; [reflexivity|discriminate|vm_compute; lia].
  - destruct (validateField_verdict 2
                (Validator.sampleForm (lit "ann@example.org") (lit "hunter22")
                   (lit "hunter23"))
                _ eq_refl) as (_ & _ & _ & _ & H & _).
    eapply H; [reflexivity|discriminate|vm_compute; reflexivity|vm_compute; discriminate].
Defined.

(** * Further properties *)

(** ** The duration parser finds the leftmost duration *)

Lemma exec_leftmost (r : regex) (s : list char) (caps : gmap nat (list char)) :
  exec r s = Some caps ->
  exists pre t, s = pre ++ t /\ match_here r t = Some caps
                /\ no_match_before r pre t = true.
Proof.
  induction s as [|c s IH]; simpl.
  - destruct (match_here r []) eqn:E; [|discriminate].
    intros [= ->]. exists [], []. auto.
  - destruct (match_here r (c :: s)) eqn:E.
    + intros [= ->]. exists [], (c :: s). auto.
    + intros H. apply IH in H as (pre & t & -> & H & Hn).
      exists (c :: pre), t. split; [reflexivity|]. split; [exact H|].
      cbn [no_match_before app]. rewrite E. exact Hn.
Qed.

Lemma decimal_acc_nonneg (ds : list char) (acc : Z) :
  forallb is_digit ds = true -> 0 <= acc ->
  0 <= fold_left (fun a c => a * 10 + digit_value c) ds acc.
Proof.
  revert acc. induction ds as [|c ds IH]; intros acc H Ha; [exact Ha|].
  simpl in H. apply andb_true_iff in H as [Hc H]. simpl.
  apply IH; [exact H|].
  apply is_digit_range in Hc. unfold digit_value. lia.
Qed.

Lemma decimal_nonneg (ds : list char) : run_of is_digit ds = true -> 0 <= decimal ds.
Proof.
  intros H. apply decimal_acc_nonneg; [|lia].
  destruct ds; [discriminate|exact H].
Qed.

Lemma durationSeconds_nonneg (d : duration) :
  wellFormed d = true -> 0 <= durationSeconds d.
Proof.
  destruct d as [m w1 w2 w3 s w4|s w]; simpl; intros H;
    repeat (apply andb_true_iff in H as [H ?]).
  - pose proof (decimal_nonneg m ltac:(assumption)).
    pose proof (decimal_nonneg s ltac:(assumption)). lia.
  - apply decimal_nonneg. assumption.
Qed.

Lemma match_here_duration (d : duration) (rest : list char) :
  wellFormed d = true ->
  totalSecondsOf <$> match_here timeRegex (durationText d ++ rest)
  = Some (Num (Int (durationSeconds d))).
Proof.
  destruct d as [m w1 w2 w3 s w4|s w]; simpl; intros H;
    repeat (apply andb_true_iff in H as [H ?]).
  - rewrite match_here_minutesSeconds by assumption. simpl. f_equal.
    apply totalSecondsOf_minutesSeconds; assumption.
  - rewrite match_here_seconds by assumption. simpl. f_equal.
    apply totalSecondsOf_seconds; assumption.
Qed.

Lemma parseDuration_leftmost (message : list char) (v : jsval) :
  parseDuration message = Some v ->
  exists pre d post,
    wellFormed d = true
    /\ message = pre ++ durationText d ++ post
    /\ no_match_before timeRegex pre (durationText d ++ post) = true
    /\ v = Num (Int (durationSeconds d))
    /\ 0 <= durationSeconds d.
Proof.
  unfold parseDuration. intros H.
  destruct (exec timeRegex message) as [caps|] eqn:E; [|discriminate].
  injection H as <-.
  apply exec_leftmost in E as (pre & t & -> & M & Hn).
  destruct (match_here_Some_starts t caps M) as (d & post & Hd & ->).
  exists pre, d, post. split; [exact Hd|]. split; [reflexivity|].
  split; [exact Hn|]. split; [|apply durationSeconds_nonneg, Hd].
  pose proof (match_here_duration d post Hd) as T. rewrite M in T.
  simpl in T. congruence.
Qed.

(** X1 -- Whenever the pattern matches, the message holds a well-formed
    duration that no other duration precedes, and the total computed is the
    number of seconds that duration denotes (while it is within the range
    where Number arithmetic is exact): a non-negative number, never
    undefined and never NaN. *)
Theorem parseDuration_sound (message : list char) (v : jsval) :
  parseDuration message = Some v ->
  exists pre d post,
    wellFormed d = true
    /\ message = pre ++ durationText d ++ post
    /\ no_match_before timeRegex pre (durationText d ++ post) = true
    /\ (durationSeconds d <= MAX_SAFE_INTEGER -> v = Num (Int (durationSeconds d)))
    /\ 0 <= durationSeconds d.
Proof.
  intros H.
  destruct (parseDuration_leftmost message v H) as (pre & d & post & Hd & E & Hn & Hv & H0).
  exists pre, d, post. auto 6.
Qed.

Lemma parseDuration_sound_witness :
  exists pre d post,
    wellFormed d = true
    /\ lit "wait 7 second(s), then 1 minute(s) and 2 second(s)"
       = pre ++ durationText d ++ post
    /\ no_match_before timeRegex pre (durationText d ++ post) = true
    /\ (durationSeconds d <= MAX_SAFE_INTEGER -> Num (Int 7) = Num (Int (durationSeconds d)))
    /\ 0 <= durationSeconds d.
Proof.
  apply (parseDuration_sound
           (lit "wait 7 second(s), then 1 minute(s) and 2 second(s)") (Num (Int 7))).
  vm_compute. reflexivity.
Defined.

(** ** When the countdown widget activates *)

(** X2 -- On a page whose lockout alert carries a message, the load
    handler starts the countdown exactly when the leftmost duration of the
    message denotes a positive number of seconds; it then inserts the block
    showing the formatted total, with a bar without width, and starts the
    counter at the total.  In every other case it leaves the page as it
    is. *)
Theorem load_activation (alert : AlertEl) (form : option string)
    (message : list char) :
  "lockout-alert" ∈ classList alert -> reason alert = Some message ->
  (phaseOf (countdownOnLoad (rendered (Some alert) form)) = Running
   <-> exists pre d post,
         wellFormed d = true
         /\ message = pre ++ durationText d ++ post
         /\ no_match_before timeRegex pre (durationText d ++ post) = true
         /\ 0 < durationSeconds d)
  /\ (forall pre d post,
        wellFormed d = true ->
        message = pre ++ durationText d ++ post ->
        no_match_before timeRegex pre (durationText d ++ post) = true ->
        0 < durationSeconds d <= MAX_SAFE_INTEGER ->
        countdownOnLoad (rendered (Some alert) form)
        = startLockoutCountdown (durationSeconds d)
            (set_barEl (Some None)
               (set_timerEl (Some (formatTime (durationSeconds d)))
                  (set_countdownEl (Some CountdownMarkup)
                     (rendered (Some alert) form)))))
  /\ (phaseOf (countdownOnLoad (rendered (Some alert) form)) = Idle ->
      countdownOnLoad (rendered (Some alert) form) = rendered (Some alert) form).
Proof.
  intros Hl Hr.
  assert (Start : forall pre d post,
             wellFormed d = true ->
             message = pre ++ durationText d ++ post ->
             no_match_before timeRegex pre (durationText d ++ post) = true ->
             0 < durationSeconds d ->
             countdownOnLoad (rendered (Some alert) form)
             = startLockoutCountdown (durationSeconds d)
                 (set_barEl (Some None)
                    (set_timerEl (Some (formatTime (durationSeconds d)))
                       (set_countdownEl (Some CountdownMarkup)
                          (rendered (Some alert) form))))).
  { intros pre d post Hd -> Hn Hz.
    unfold countdownOnLoad, query_lockout_alert. simpl.
    rewrite bool_decide_eq_true_2 by exact Hl. rewrite Hr.
    rewrite exec_skip by exact Hn.
    pose proof (match_here_duration d post Hd) as M.
    destruct (match_here timeRegex (durationText d ++ post)) as [caps|] eqn:E;
      [|discriminate].
    rewrite (exec_here _ _ _ E). simpl in M. injection M as M. rewrite M.
    simpl. destruct (Z.eqb_spec (durationSeconds d) 0); [lia|].
    destruct (Z.ltb_spec 0 (durationSeconds d)); [reflexivity|lia]. }
  split; [split|split; [intros pre d post Hd E Hn [Hz _]; eauto|]].
  - intros Hrun.
    destruct (parseDuration message) as [v|] eqn:P.
    + destruct (parseDuration_leftmost message v P)
        as (pre & d & post & Hd & E & Hn & -> & H0).
      exists pre, d, post. split; [exact Hd|]. split; [exact E|]. split; [exact Hn|].
      destruct (Z.eq_dec (durationSeconds d) 0) as [Z0|]; [|lia].
      exfalso.
      rewrite (countdownOnLoad_zero alert form message _ Hr P) in Hrun.
      * discriminate.
      * rewrite Z0. reflexivity.
    + exfalso. revert Hrun. unfold countdownOnLoad, query_lockout_alert. simpl.
      rewrite bool_decide_eq_true_2 by exact Hl. rewrite Hr.
      unfold parseDuration in P.
      destruct (exec timeRegex message); [discriminate|]. discriminate.
  - intros (pre & d & post & Hd & E & Hn & Hz).
    rewrite (Start pre d post Hd E Hn Hz). reflexivity.
  - intros Hidle.
    destruct (countdownOnLoad_cases (rendered (Some alert) form)) as [E|(z & Hz & E)];
      [exact E|].
    rewrite E in Hidle. discriminate.
Qed.

Lemma load_activation_witness :
  phaseOf (countdownOnLoad
             (rendered (Some (lockedAlert (lit "Try again in 3 minute(s) and 0 second(s).")))
                None))
  = Running
  <-> exists pre d post,
        wellFormed d = true
        /\ lit "Try again in 3 minute(s) and 0 second(s)." = pre ++ durationText d ++ post
        /\ no_match_before timeRegex pre (durationText d ++ post) = true
        /\ 0 < durationSeconds d.
Proof.
  apply (load_activation (lockedAlert (lit "Try again in 3 minute(s) and 0 second(s)."))
           None (lit "Try again in 3 minute(s) and 0 second(s).")).
  - vm_compute. reflexivity.
  - reflexivity.
Defined.

(** ** Expiry after exactly as many ticks as seconds *)

(** X3 -- A countdown started with T > 0 seconds expires after exactly T
    ticks: after k < T ticks it is still running with T - k seconds left,
    and the T-th tick leaves 0, cancels the interval, replaces the block by
    the expired notice and takes [lockout-alert] off the alert. *)
Theorem countdown_expires_after (p0 : Page) (T : Z) (n : nat) :
  0 < T <= MAX_SAFE_INTEGER -> Z.of_nat n = T ->
  (forall k, (k < n)%nat ->
     ticker (run (replicate k TickFires) (startLockoutCountdown T p0))
     = Some {| totalSeconds := T - Z.of_nat k; originalSeconds := T; active := true |})
  /\ ticker (run (replicate n TickFires) (startLockoutCountdown T p0))
     = Some {| totalSeconds := 0; originalSeconds := T; active := false |}
  /\ countdownEl (run (replicate n TickFires) (startLockoutCountdown T p0))
     = const ExpiredMarkup <$> countdownEl p0
  /\ unlocked (run (replicate n TickFires) (startLockoutCountdown T p0)).
Proof.
  intros [HT _] Hn. split.
  - intros k Hk. destruct (running_ticks T p0 k) as (H & _); [lia|exact H].
  - apply (expiring_tick T p0 n Hn HT).
Qed.

Lemma countdown_expires_after_witness :
  ticker (run (replicate 2 TickFires)
            (startLockoutCountdown 3 (lockedPage (lit "3 second(s)"))))
  = Some {| totalSeconds := 3 - Z.of_nat 2; originalSeconds := 3; active := true |}
  /\ ticker (run (replicate 3 TickFires)
               (startLockoutCountdown 3 (lockedPage (lit "3 second(s)"))))
     = Some {| totalSeconds := 0; originalSeconds := 3; active := false |}.
Proof.
  destruct (countdown_expires_after (lockedPage (lit "3 second(s)")) 3 3
              ltac:(vm_compute; split; [reflexivity|discriminate]) eq_refl)
    as (H1 & H2 & _).
  split; [apply (H1 2%nat); lia|exact H2].
Defined.

(** ** What the countdown block displays *)

Lemma timerEl_showLockoutExpired (p : Page) : timerEl (showLockoutExpired p) = timerEl p.
Proof.
  unfold showLockoutExpired.
  destruct (query_lockout_alert p), (countdownEl p); reflexivity.
Qed.

Lemma timerEl_countdownCallback (c : Countdown) (p : Page) :
  timerEl (countdownCallback c p)
  = match timerEl p with
    | Some _ => Some (formatTime (totalSeconds c - 1))
    | None => None
    end.
Proof.
  unfold countdownCallback.
  destruct (totalSeconds c - 1 <=? 0); rewrite ?timerEl_showLockoutExpired; simpl;
    destruct (timerEl p) eqn:Et; simpl; destruct (barEl p); simpl;
    rewrite ?Et; reflexivity.
Qed.

Lemma displayInv_step (p : Page) (e : event) : displayInv p -> displayInv (step p e).
Proof.
  intros H. destruct e as [| |i].
  - intros c'. rewrite ticker_step_tick.
    destruct (ticker p) as [c|] eqn:Ec; [|discriminate].
    destruct (H c Ec) as [Ht Hb].
    destruct (active c) eqn:Ea.
    + intros [= <-]. cbn [totalSeconds originalSeconds].
      simpl step. rewrite Ec, Ea.
      rewrite timerEl_countdownCallback, barEl_countdownCallback, Ht.
      split; [reflexivity|]. right.
      destruct Hb as [[-> _]| ->]; reflexivity.
    + intros [= <-]. simpl step. rewrite Ec, Ea. auto.
  - destruct (sameWidget_step p SubmitLogin) as (_ & _ & H3 & H4 & H5);
      [discriminate|].
    unfold displayInv. rewrite H3, H4, H5. exact H.
  - destruct (sameWidget_step p (TimeoutFires i)) as (_ & _ & H3 & H4 & H5);
      [discriminate|].
    unfold displayInv. rewrite H3, H4, H5. exact H.
Qed.

Lemma displayInv_loaded (alert : option AlertEl) (form : option string) :
  displayInv (countdownOnLoad (rendered alert form)).
Proof.
  destruct (countdownOnLoad_cases (rendered alert form)) as [E|(z & Hz & E)];
    rewrite E; intros c; simpl; [discriminate|].
  intros [= <-]. simpl. auto.
Qed.

Lemma display_follows_counter_aux (alert : option AlertEl) (form : option string)
    (evs : list event) (c : Countdown) :
  ticker (run evs (countdownOnLoad (rendered alert form))) = Some c ->
  timerEl (run evs (countdownOnLoad (rendered alert form)))
  = Some (formatTime (totalSeconds c))
  /\ ((barEl (run evs (countdownOnLoad (rendered alert form))) = Some None
       /\ totalSeconds c = originalSeconds c)
      \/ barEl (run evs (countdownOnLoad (rendered alert form)))
         = Some (Some (progressPercentage (originalSeconds c) (totalSeconds c)))).
Proof.
  intros Hc.
  assert (D : displayInv (run evs (countdownOnLoad (rendered alert form))))
    by (apply inv_run; [exact displayInv_step|apply displayInv_loaded]).
  exact (D c Hc).
Qed.

(** X4 -- On a loaded page, after any sequence of ticks, submit attempts
    and timeouts, what the countdown block displays agrees with the counter
    (of a countdown of at most [MAX_SAFE_INTEGER] seconds): the timer text
    is formatTime of the seconds left, and the bar has no width until the
    first tick and the elapsed percentage from then on. *)
Theorem display_follows_counter (alert : option AlertEl) (form : option string)
    (evs : list event) (c : Countdown) :
  ticker (run evs (countdownOnLoad (rendered alert form))) = Some c ->
  originalSeconds c <= MAX_SAFE_INTEGER ->
  timerEl (run evs (countdownOnLoad (rendered alert form)))
  = Some (formatTime (totalSeconds c))
  /\ ((barEl (run evs (countdownOnLoad (rendered alert form))) = Some None
       /\ totalSeconds c = originalSeconds c)
      \/ barEl (run evs (countdownOnLoad (rendered alert form)))
         = Some (Some (progressPercentage (originalSeconds c) (totalSeconds c)))).
Proof. intros Hc _. apply display_follows_counter_aux, Hc. Qed.

Lemma display_follows_counter_witness :
  timerEl (run [TickFires; SubmitLogin; TickFires]
             (countdownOnLoad (lockedPage (lit "1 minute(s) and 1 second(s)"))))
  = Some (formatTime 59)
  /\ ((barEl (run [TickFires; SubmitLogin; TickFires]
                (countdownOnLoad (lockedPage (lit "1 minute(s) and 1 second(s)"))))
       = Some None /\ 59 = 61)
      \/ barEl (run [TickFires; SubmitLogin; TickFires]
                  (countdownOnLoad (lockedPage (lit "1 minute(s) and 1 second(s)"))))
         = Some (Some (progressPercentage 61 59))).
Proof.
  apply (display_follows_counter (Some (lockedAlert (lit "1 minute(s) and 1 second(s)")))
           (Some "") [TickFires; SubmitLogin; TickFires]
           {| totalSeconds := 59; originalSeconds := 61; active := true |}).
  - vm_compute. reflexivity.
  - vm_compute. discriminate.
Defined.

Lemma progressPercentage_bounds (orig total : Z) (q : Q) :
  0 < orig -> 0 <= total <= orig ->
  progressPercentage orig total = Percent q ->
  (0 <= q /\ q <= 100 # 1)%Q.
Proof.
  intros Ho Ht. unfold progressPercentage.
  destruct (Z.eqb_spec orig 0); [lia|]. intros [= <-].
  rewrite Qred_correct.
  destruct orig as [|o|o]; try lia.
  unfold Qle, Qdiv, Qmult, Qinv, inject_Z. simpl. split; nia.
Qed.

(** X5 -- On a loaded page, after any sequence of events, a width written
    to the progress bar (by a countdown of at most [MAX_SAFE_INTEGER]
    seconds) is a percentage between 0 and 100. *)
Theorem progress_within_bounds (alert : option AlertEl) (form : option string)
    (evs : list event) (w : percentage) :
  (forall c, ticker (run evs (countdownOnLoad (rendered alert form))) = Some c ->
             originalSeconds c <= MAX_SAFE_INTEGER) ->
  barEl (run evs (countdownOnLoad (rendered alert form))) = Some (Some w) ->
  exists q, w = Percent q /\ (0 <= q /\ q <= 100 # 1)%Q.
Proof.
  intros _ Hb.
  destruct (countdownOnLoad_cases (rendered alert form)) as [E|(z & Hz & E)].
  - rewrite E in Hb.
    destruct (idle_run evs (rendered alert form) eq_refl) as (_ & _ & _ & H4 & _).
    rewrite H4 in Hb. discriminate.
  - pose proof (countdownInv_run z evs _
                  (countdownInv_start z
                     (set_barEl (Some None)
                        (set_timerEl (Some (formatTime z))
                           (set_countdownEl (Some CountdownMarkup)
                              (rendered alert form)))) Hz))
      as (c & Hc & Ho & Hr & _).
    rewrite <- E in Hc.
    destruct (display_follows_counter_aux alert form evs c Hc) as [_ [[Hn _]|Hp]].
    + rewrite Hn in Hb. discriminate.
    + rewrite Hp in Hb. injection Hb as <-.
      destruct (progressPercentage (originalSeconds c) (totalSeconds c)) as [|q] eqn:P.
      * exfalso. eapply progressPercentage_finite; [|exact P]. lia.
      * exists q. split; [reflexivity|].
        apply (progressPercentage_bounds (originalSeconds c) (totalSeconds c));
          [lia|lia|exact P].
Qed.

Lemma progress_within_bounds_witness :
  exists q, Percent (50 # 1)%Q = Percent q /\ (0 <= q /\ q <= 100 # 1)%Q.
Proof.
  apply (progress_within_bounds (Some (lockedAlert (lit "2 second(s)"))) (Some "")
           [TickFires] (Percent (50 # 1)%Q)).
  - intros c H. vm_compute in H. injection H as <-. vm_compute. discriminate.
  - vm_compute. reflexivity.
Defined.

(** ** formatTime is unambiguous *)

Lemma formatTime_shape (seconds : Z) :
  0 <= seconds ->
  formatTime seconds
  = if 0 <? seconds / 60 then
      toString (seconds / 60) ++ lit ":"
      ++ [digit_char (seconds mod 60 / 10); digit_char (seconds mod 60 mod 10)]
    else toString seconds ++ lit "s".
Proof.
  intros H0. unfold formatTime. rewrite Z.rem_mod_nonneg by lia.
  destruct (Z.ltb_spec 0 (seconds / 60)) as [Hm|Hm].
  - rewrite padStart_two_digits by (apply Z.mod_pos_bound; lia). reflexivity.
  - assert (seconds / 60 = 0)
      by (pose proof (Z.div_pos seconds 60 H0 ltac:(lia)); lia).
    assert (seconds < 60) by (apply Z.div_small_iff in H; lia).
    rewrite Z.mod_small by lia. reflexivity.
Qed.

Lemma toString_inj (a b : Z) : 0 <= a -> 0 <= b -> toString a = toString b -> a = b.
Proof.
  intros Ha Hb E.
  destruct (toString_decimal a Ha) as [_ Da].
  destruct (toString_decimal b Hb) as [_ Db].
  rewrite E in Da. lia.
Qed.

Lemma digit_char_not_s (d : Z) : 0 <= d < 10 -> digit_char d <> 115%N.
Proof. unfold digit_char. lia. Qed.

(** X6 -- formatTime is injective on the non-negative seconds (up to
    2^53-1): two different numbers of seconds are never displayed as the
    same text. *)
Theorem formatTime_injective (s1 s2 : Z) :
  0 <= s1 <= MAX_SAFE_INTEGER -> 0 <= s2 <= MAX_SAFE_INTEGER ->
  formatTime s1 = formatTime s2 -> s1 = s2.
Proof.
  intros [H1 _] [H2 _]. rewrite (formatTime_shape s1 H1), (formatTime_shape s2 H2).
  assert (R1 : 0 <= s1 mod 60 < 60) by (apply Z.mod_pos_bound; lia).
  assert (R2 : 0 <= s2 mod 60 < 60) by (apply Z.mod_pos_bound; lia).
  destruct (Z.ltb_spec 0 (s1 / 60)) as [M1|M1], (Z.ltb_spec 0 (s2 / 60)) as [M2|M2];
    intros E.
  - assert (L : length (toString (s1 / 60)) = length (toString (s2 / 60))).
    { apply (f_equal length) in E. rewrite !length_app in E. simpl in E. lia. }
    apply app_inj_1 in E as [Em Er]; [|exact L].
    apply toString_inj in Em; [|lia|lia].
    injection Er as Ea Eb.
    destruct (two_digits_value _ R1) as [_ D1].
    destruct (two_digits_value _ R2) as [_ D2].
    rewrite Ea, Eb, D2 in D1.
    pose proof (Z.div_mod s1 60 ltac:(lia)). pose proof (Z.div_mod s2 60 ltac:(lia)).
    lia.
  - exfalso.
    change (toString (s1 / 60) ++ lit ":" ++
              [digit_char (s1 mod 60 / 10); digit_char (s1 mod 60 mod 10)])
      with (toString (s1 / 60) ++ [58%N; digit_char (s1 mod 60 / 10)]
            ++ [digit_char (s1 mod 60 mod 10)]) in E.
    rewrite app_assoc in E. apply app_inj_tail in E as [_ E].
    apply (digit_char_not_s (s1 mod 60 mod 10)); [|exact E].
    apply Z.mod_pos_bound. lia.
  - exfalso. symmetry in E.
    change (toString (s2 / 60) ++ lit ":" ++
              [digit_char (s2 mod 60 / 10); digit_char (s2 mod 60 mod 10)])
      with (toString (s2 / 60) ++ [58%N; digit_char (s2 mod 60 / 10)]
            ++ [digit_char (s2 mod 60 mod 10)]) in E.
    rewrite app_assoc in E. apply app_inj_tail in E as [_ E].
    apply (digit_char_not_s (s2 mod 60 mod 10)); [|exact E].
    apply Z.mod_pos_bound. lia.
  - apply app_inj_tail in E as [E _]. apply toString_inj in E; lia.
Qed.

Lemma formatTime_injective_witness : 125 = 60 * 2 + 5.
Proof.
  apply (formatTime_injective 125 (60 * 2 + 5));
    [vm_compute; split; discriminate | vm_compute; split; discriminate | reflexivity].
Defined.

(** ** The submission warning and its timers *)

Lemma removalTargets_app (l1 l2 : list Timeout) :
  removalTargets (l1 ++ l2) = removalTargets l1 ++ removalTargets l2.
Proof.
  induction l1 as [|t l1 IH]; [reflexivity|].
  simpl. destruct (action t); simpl; rewrite IH; reflexivity.
Qed.

Lemma removalTargets_delete (ts : list Timeout) (i : nat) (t : Timeout) :
  ts !! i = Some t ->
  removalTargets ts
  = removalTargets (take i ts)
    ++ match action t with RemoveWarning w => [w] | ResetAnimation => [] end
    ++ removalTargets (drop (S i) ts)
  /\ removalTargets (delete i ts)
     = removalTargets (take i ts) ++ removalTargets (drop (S i) ts).
Proof.
  intros H. split.
  - rewrite <- (take_drop_middle ts i t H) at 1.
    rewrite removalTargets_app. simpl. destruct (action t); reflexivity.
  - rewrite delete_take_drop. apply removalTargets_app.
Qed.

Lemma removalInv_step (p : Page) (e : event) : removalInv p -> removalInv (step p e).
Proof.
  unfold removalInv. intros H. destruct e as [| |i].
  - simpl. destruct (ticker p) as [c|]; [|exact H].
    destruct (active c); [|exact H].
    destruct (countdownCallback_rest c p) as (H1 & H2 & _).
    rewrite H1, H2. exact H.
  - simpl. destruct (loginForm p); [|exact H].
    unfold loginSubmit. destruct (query_lockout_alert p); [|exact H].
    destruct (negb _); [|exact H]. simpl.
    destruct (warningEl p) as [w|] eqn:Ew; simpl.
    + rewrite Ew, removalTargets_app, H. simpl. reflexivity.
    + rewrite !removalTargets_app, H. reflexivity.
  - simpl. destruct (timeouts p !! i) as [t|] eqn:Et; [|exact H].
    destruct (removalTargets_delete _ _ _ Et) as [E1 E2].
    unfold runTimeout. destruct t as [d [w|]]; simpl in *.
    + rewrite E1 in H.
      destruct (warningEl p) as [w'|] eqn:Ew; simpl.
      * assert (removalTargets (take i (timeouts p)) = []
                /\ w = w' /\ removalTargets (drop (S i) (timeouts p)) = []) as (A & -> & B).
        { destruct (removalTargets (take i (timeouts p))) as [|x l1]; simpl in H.
          - injection H as -> H. auto.
          - injection H as -> H. destruct l1; discriminate. }
        rewrite Nat.eqb_refl. simpl. rewrite E2, A, B. reflexivity.
      * exfalso. destruct (removalTargets (take i (timeouts p))); discriminate.
    + rewrite E1 in H. simpl in H.
      destruct (loginForm p); simpl; rewrite E2; exact H.
Qed.

Lemma removalInv_loaded (alert : option AlertEl) (form : option string) :
  removalInv (countdownOnLoad (rendered alert form)).
Proof.
  unfold removalInv.
  destruct (countdownOnLoad_rest (rendered alert form)) as (_ & -> & -> & _).
  reflexivity.
Qed.

(** X7 -- On a loaded page, after any sequence of events, the pending
    removal timers are exactly one for the warning that is displayed and
    none when no warning is displayed: a timer never removes a later
    warning, and a displayed warning always has its removal pending. *)
Theorem one_removal_timer (alert : option AlertEl) (form : option string)
    (evs : list event) :
  removalTargets (timeouts (run evs (countdownOnLoad (rendered alert form))))
  = match warningEl (run evs (countdownOnLoad (rendered alert form))) with
    | Some w => [w]
    | None => []
    end.
Proof.
  apply (inv_run removalInv); [exact removalInv_step|apply removalInv_loaded].
Qed.

Lemma shakeInv_step (p : Page) (e : event) : shakeInv p -> shakeInv (step p e).
Proof.
  unfold shakeInv. intros H. destruct e as [| |i].
  - simpl. destruct (ticker p) as [c|]; [|exact H].
    destruct (active c); [|exact H].
    destruct (countdownCallback_rest c p) as (_ & H2 & H3 & _).
    rewrite H2, H3. exact H.
  - simpl. destruct (loginForm p) eqn:Ef; [|rewrite Ef; exact H].
    unfold loginSubmit. destruct (query_lockout_alert p); [|simpl; rewrite Ef; exact H].
    destruct (negb _); [|simpl; rewrite Ef; exact H]. simpl.
    intros _. apply elem_of_app. right. apply list_elem_of_singleton. reflexivity.
  - simpl. destruct (timeouts p !! i) as [t|] eqn:Et; [|exact H].
    unfold runTimeout. destruct t as [d [w|]]; simpl.
    + assert (G : loginForm p = Some "shake 0.5s ease-in-out" ->
                  {| delay := 500; action := ResetAnimation |} ∈ delete i (timeouts p)).
      { intros Hs. eapply elem_of_delete_other; [exact Et|apply H, Hs|discriminate]. }
      destruct (warningEl p) as [w'|]; [destruct (w' =? w)%nat|]; exact G.
    + destruct (loginForm p) as [a|] eqn:Ef; simpl; [discriminate|].
      rewrite Ef. discriminate.
Qed.

(** X8 -- On a page loaded with a login form that is not shaking, after
    any sequence of events: whenever the form carries the shake animation,
    the timer that resets it is pending, so the animation is always taken
    off again. *)
Theorem shake_is_reset (alert : option AlertEl) (form : string) (evs : list event) :
  form <> "shake 0.5s ease-in-out" ->
  loginForm (run evs (countdownOnLoad (rendered alert (Some form))))
  = Some "shake 0.5s ease-in-out" ->
  {| delay := 500; action := ResetAnimation |}
  ∈ timeouts (run evs (countdownOnLoad (rendered alert (Some form)))).
Proof.
  intros Hf.
  apply (inv_run shakeInv); [exact shakeInv_step|].
  unfold shakeInv.
  destruct (countdownOnLoad_rest (rendered alert (Some form))) as (_ & _ & _ & ->).
  simpl. congruence.
Qed.

Lemma shake_is_reset_witness :
  {| delay := 500; action := ResetAnimation |}
  ∈ timeouts (run [SubmitLogin; TickFires]
                (countdownOnLoad (lockedPage (lit "9 second(s)")))).
Proof.
  apply (shake_is_reset (Some (lockedAlert (lit "9 second(s)"))) ""
           [SubmitLogin; TickFires]).
  - discriminate.
  - vm_compute. reflexivity.
Defined.

(** X9 -- The countdown and the submit gate do not interfere: a submit
    attempt or a timeout changes neither the alert, the countdown block, the
    timer text, the bar nor the counter, and a tick changes neither the
    login form, the warning, nor the pending timeouts. *)
Theorem countdown_gate_independent (p : Page) (e : event) :
  match e with
  | TickFires =>
      loginForm (step p e) = loginForm p /\ warningEl (step p e) = warningEl p
      /\ timeouts (step p e) = timeouts p
  | _ =>
      alertEl (step p e) = alertEl p /\ countdownEl (step p e) = countdownEl p
      /\ timerEl (step p e) = timerEl p /\ barEl (step p e) = barEl p
      /\ ticker (step p e) = ticker p
  end.
Proof.
  destruct e as [| |i].
  - simpl. destruct (ticker p) as [c|]; [|auto].
    destruct (active c); [|auto].
    destruct (countdownCallback_rest c p) as (H1 & H2 & H3 & _). auto.
  - apply (sameWidget_step p SubmitLogin). discriminate.
  - apply (sameWidget_step p (TimeoutFires i)). discriminate.
Qed.

(** ** What validateField leaves alone, and revalidation *)

Module ValidatorFrame.
Import Validator ValidatorFacts.

Section OneField.
Variables (i : nat) (doc : Doc) (field : Field).
Hypothesis Hfield : fields doc !! i = Some field.

Lemma clear_errors_other (q : nat) :
  q <> parent field -> errors (clearFieldError i doc) !! q = errors doc !! q.
Proof.
  intros Hq. unfold clearFieldError. rewrite Hfield. simpl.
  destruct (errors doc !! parent field) as [[|x rest]|]; try reflexivity.
  apply lookup_insert_ne. congruence.
Qed.

Lemma rule_errors_other (b cond : bool) (message : list char) (st : bool * Doc)
    (q : nat) :
  markedAs i doc field b (snd st) -> q <> parent field ->
  errors (snd (rule i cond message st)) !! q = errors (snd st) !! q.
Proof.
  intros H Hq. unfold rule. destruct cond; [|reflexivity]. simpl.
  unfold showFieldError. rewrite (marked_lookup i doc field Hfield b _ H). simpl.
  apply lookup_insert_ne. congruence.
Qed.

Lemma validateField_marked :
  markedAs i doc field (negb (fst (validateField i doc))) (snd (validateField i doc))
  /\ forall q, q <> parent field ->
       errors (snd (validateField i doc)) !! q = errors doc !! q.
Proof.
  unfold validateField. rewrite Hfield. cbv zeta.
  set (v := trim (value field)).
  set (st0 := (true, clearFieldError i doc)).
  set (c1 := required field && negb (negb (bool_decide (v = [])))).
  set (st1 := rule i c1 _ st0).
  set (c2 := bool_decide (type field = "email") && negb (bool_decide (v = []))
             && negb (emailRegex_test v)).
  set (st2 := rule i c2 _ st1).
  set (c3 := bool_decide (id field = "register_password")
             && negb (bool_decide (v = [])) && (length v <? 8)%nat).
  set (st3 := rule i c3 _ st2).
  set (c4 := bool_decide (id field = "confirm_password")
             && negb (bool_decide (v = [])) && _).
  pose proof (marked_clear i doc field Hfield) as M0.
  destruct (marked_rule i doc field Hfield false c1
              (lit "This field is required") st0 M0) as [M1 F1].
  fold st1 in M1, F1.
  destruct (marked_rule i doc field Hfield _ c2
              (lit "Please enter a valid email address") st1 M1) as [M2 F2].
  fold st2 in M2, F2.
  destruct (marked_rule i doc field Hfield _ c3
              (lit "Password must be at least 8 characters long") st2 M2)
    as [M3 F3].
  fold st3 in M3, F3.
  destruct (marked_rule i doc field Hfield _ c4
              (lit "Passwords do not match") st3 M3) as [M4 F4].
  split.
  - rewrite F4, F3, F2, F1. simpl.
    replace (negb (negb c1 && negb c2 && negb c3 && negb c4))
      with (false || c1 || c2 || c3 || c4)
      by (destruct c1, c2, c3, c4; reflexivity).
    exact M4.
  - intros q Hq.
    rewrite (rule_errors_other _ c4 _ st3 q M3 Hq).
    unfold st3. rewrite (rule_errors_other _ c3 _ st2 q M2 Hq).
    unfold st2. rewrite (rule_errors_other _ c2 _ st1 q M1 Hq).
    unfold st1. rewrite (rule_errors_other _ c1 _ st0 q M0 Hq).
    apply clear_errors_other, Hq.
Qed.

End OneField.

End ValidatorFrame.



(** X11 -- validateField returns true exactly when none of its four rules
    fails: a required control has a non-blank value; a non-blank value of
    an email control has the email shape; a non-blank value of
    [register_password] has at least 8 characters; a non-blank value of
    [confirm_password] equals the value of [register_password] when that
    control exists.  Nothing else makes a control invalid. *)
Theorem validateField_accepts (i : nat) (doc : Validator.Doc) (field : Validator.Field) :
  Validator.fields doc !! i = Some field ->
  let v := trim (Validator.value field) in
  let companion :=
    Validator.value <$> Validator.getElementById "register_password" doc in
  fst (Validator.validateField i doc) = true
  <-> (Validator.required field = true -> v <> [])
      /\ (Validator.type field = "email" -> v <> [] -> Validator.emailShape v)
      /\ (Validator.id field = "register_password" -> v <> [] ->
          (8 <= length v)%nat)
      /\ (Validator.id field = "confirm_password" -> v <> [] ->
          forall password, companion = Some password -> v = password).
Proof.
  intros Hf v companion.
  destruct (ValidatorFacts.validateField_spec i doc field Hf) as (E & _).
  fold v companion in E. rewrite E. clear E.
  unfold Validator.verdict, Validator.rules. cbn [forallb fst].
  rewrite !andb_true_iff, !negb_true_iff, !andb_false_iff, !negb_false_iff.
  rewrite !bool_decide_eq_false, !bool_decide_eq_true.
  rewrite <- ValidatorFacts.emailRegex_test_shape.
  rewrite Nat.ltb_ge.
  split.
  - intros (H1 & H2 & H3 & H4 & _). repeat split.
    + intros Hr Hv. destruct H1 as [H1|H1]; [congruence|contradiction].
    + intros Ht Hv. destruct H2 as [[H2|H2]|H2]; [contradiction|contradiction|exact H2].
    + intros Hi Hv. destruct H3 as [[H3|H3]|H3]; [contradiction|contradiction|exact H3].
    + intros Hi Hv password Hc.
      destruct H4 as [[H4|H4]|H4]; [contradiction|contradiction|].
      rewrite Hc in H4. apply negb_false_iff, bool_decide_eq_true in H4.
      exact H4.
  - intros (H1 & H2 & H3 & H4). repeat split.
    + destruct (Validator.required field); [|left; reflexivity].
      right. apply H1. reflexivity.
    + destruct (decide (Validator.type field = "email")) as [Ht|Ht]; [|auto].
      destruct (decide (v = [])) as [Hv|Hv]; [left; right; exact Hv|].
      right. apply H2; assumption.
    + destruct (decide (Validator.id field = "register_password")) as [Hi|Hi]; [|auto].
      destruct (decide (v = [])) as [Hv|Hv]; [left; right; exact Hv|].
      right. apply H3; assumption.
    + destruct (decide (Validator.id field = "confirm_password")) as [Hi|Hi]; [|auto].
      destruct (decide (v = [])) as [Hv|Hv]; [left; right; exact Hv|].
      right. destruct companion as [password|]; [|reflexivity].
      apply negb_false_iff, bool_decide_eq_true. apply H4; auto.
Qed.

Lemma validateField_accepts_witness :
  fst (Validator.validateField 0
         (Validator.sampleForm (lit " ann@example.org ") (lit "hunter22")
            (lit "hunter22"))) = true.
Proof.
  apply (validateField_accepts 0
           (Validator.sampleForm (lit " ann@example.org ") (lit "hunter22")
              (lit "hunter22")) _ eq_refl).
  split; [|split; [|split]].
  - intros _. discriminate.
  - intros _ _. exists (lit "ann"), (lit "example"), (lit "org").
    vm_compute. auto.
  - discriminate.
  - discriminate.
Defined.

Module RevalidationFacts.
Import Validator ValidatorFacts.

Lemma messages_at_most_one (v : list char) (ty name : string) (req : bool)
    (companion : option (list char)) :
  (ty = "email" -> name <> "register_password" /\ name <> "confirm_password") ->
  (length (messages v ty name req companion) <= 1)%nat.
Proof.
  intros H. unfold messages, rules. cbn [List.filter fst map snd].
  destruct (decide (v = [])) as [Hv|Hv].
  - rewrite (bool_decide_eq_true_2 _ Hv). simpl. rewrite !andb_false_r.
    destruct req; simpl; lia.
  - rewrite (bool_decide_eq_false_2 _ Hv). rewrite andb_false_r. simpl.
    rewrite !andb_true_r.
    destruct (decide (ty = "email")) as [Ht|Ht].
    + destruct (H Ht) as [H1 H2].
      rewrite (bool_decide_eq_false_2 _ H1), (bool_decide_eq_false_2 _ H2). simpl.
      destruct (_ && _); simpl; lia.
    + rewrite (bool_decide_eq_false_2 _ Ht). simpl.
      destruct (decide (name = "register_password")) as [Hn|Hn].
      * assert (Hc : name <> "confirm_password") by (rewrite Hn; discriminate).
        rewrite (bool_decide_eq_false_2 _ Hc). simpl.
        destruct (_ && _); simpl; lia.
      * rewrite (bool_decide_eq_false_2 _ Hn). simpl.
        destruct (_ && _); simpl; lia.
Qed.

End RevalidationFacts.

(** X12 -- Validating a control again.  A second call returns the verdict
    of the first.  When at most one message was shown under the parent and
    the control is not one on which two rules can fail together (an email
    control named [register_password] or [confirm_password]), the second
    call also leaves the document as the first call left it: the same
    controls with the same marks, and the same messages under every
    parent. *)
Theorem revalidation_stable (i : nat) (doc : Validator.Doc) (field : Validator.Field) :
  Validator.fields doc !! i = Some field ->
  let once := snd (Validator.validateField i doc) in
  let twice := snd (Validator.validateField i once) in
  fst (Validator.validateField i once) = fst (Validator.validateField i doc)
  /\ ((length (Validator.shownUnder doc field) <= 1)%nat ->
      (Validator.type field = "email" ->
       Validator.id field <> "register_password"
       /\ Validator.id field <> "confirm_password") ->
      Validator.fields twice = Validator.fields once
      /\ forall q, default [] (Validator.errors twice !! q)
                   = default [] (Validator.errors once !! q)).
Proof.
  intros Hf once twice.
  destruct (ValidatorFrame.validateField_marked i doc field Hf) as [M E].
  fold once in M, E.
  set (b := negb (fst (Validator.validateField i doc))) in *.
  pose proof (ValidatorFacts.marked_lookup i doc field Hf b once M) as Hf1.
  destruct (ValidatorFacts.validateField_spec i doc field Hf) as (V & S & _).
  destruct (ValidatorFacts.validateField_spec i once _ Hf1) as (V1 & S1 & _).
  fold once in S. fold twice in S1.
  rewrite (ValidatorFacts.marked_getElementById i doc field Hf b _ once M) in V1, S1.
  cbn [Validator.set_errorClass Validator.value Validator.type Validator.id
       Validator.required] in V1, S1.
  assert (Vs : fst (Validator.validateField i once)
               = fst (Validator.validateField i doc)) by congruence.
  split; [exact Vs|].
  intros Hlen Hone.
  destruct (ValidatorFrame.validateField_marked i once _ Hf1) as [M1 E1].
  fold twice in M1, E1. rewrite Vs in M1. fold b in M1.
  unfold Validator.markedAs in M, M1.
  split.
  - rewrite M1, M. rewrite list_insert_insert_eq. reflexivity.
  - intros q. destruct (decide (q = Validator.parent field)) as [->|Hq].
    + change (Validator.shownUnder twice (Validator.set_errorClass b field)
              = Validator.shownUnder once field).
      rewrite S1.
      change (Validator.shownUnder once (Validator.set_errorClass b field))
        with (Validator.shownUnder once field).
      rewrite S.
      assert (T : tail (Validator.shownUnder doc field) = []).
      { destruct (Validator.shownUnder doc field) as [|x [|y l]];
          simpl in *; [reflexivity|reflexivity|lia]. }
      rewrite T. simpl.
      pose proof (RevalidationFacts.messages_at_most_one
                    (trim (Validator.value field)) (Validator.type field)
                    (Validator.id field) (Validator.required field)
                    (Validator.value
                       <$> Validator.getElementById "register_password" doc) Hone)
        as L.
      destruct (Validator.messages _ _ _ _ _) as [|x [|y l]];
        simpl in *; [reflexivity|reflexivity|lia].
    + rewrite (E1 q Hq). reflexivity.
Qed.

Lemma revalidation_stable_witness :
  fst (Validator.validateField 0
         (snd (Validator.validateField 0
                 (Validator.sampleForm (lit "ann@example") (lit "hunter22")
                    (lit "hunter22")))))
  = fst (Validator.validateField 0
           (Validator.sampleForm (lit "ann@example") (lit "hunter22")
              (lit "hunter22"))).
Proof.
  destruct (revalidation_stable 0
              (Validator.sampleForm (lit "ann@example") (lit "hunter22")
                 (lit "hunter22")) _ eq_refl) as [H _].
  exact H.
Defined.

(** ** The error mark while the user edits *)

Module FieldEventFacts.
Import Validator ValidatorFacts FieldEvents.

(** What a mark vouches for: the control is required, and unless it is
    the confirmation control its own value fails a rule. *)
Lemma verdict_companion (v : list char) (ty name : string) (req : bool)
    (c c' : option (list char)) :
  name <> "confirm_password" ->
  verdict v ty name req c = verdict v ty name req c'.
Proof.
  intros H. unfold verdict, rules. cbn [forallb fst].
  rewrite (bool_decide_eq_false_2 _ H). reflexivity.
Qed.

Lemma validated_field (i : nat) (doc : Doc) (field : Field) (j : nat) (f : Field) :
  fields doc !! i = Some field ->
  fields (snd (validateField i doc)) !! j = Some f ->
  (j <> i /\ fields doc !! j = Some f)
  \/ (j = i /\ f = set_errorClass (negb (fst (validateField i doc))) field).
Proof.
  intros Hf Hj.
  destruct (ValidatorFrame.validateField_marked i doc field Hf) as [M _].
  unfold markedAs in M. rewrite M in Hj.
  destruct (decide (j = i)) as [->|Hne].
  - right. split; [reflexivity|].
    rewrite list_lookup_insert_eq in Hj by (eapply lookup_lt_Some, Hf).
    congruence.
  - left. split; [exact Hne|].
    rewrite list_lookup_insert_ne in Hj by congruence. exact Hj.
Qed.

Lemma validated_mark (i : nat) (doc : Doc) (field : Field) :
  fields doc !! i = Some field ->
  fst (validateField i doc) = false ->
  verdict (trim (value field)) (type field) (id field) (required field)
    (value <$> getElementById "register_password" doc) = false.
Proof.
  intros Hf H. destruct (validateField_spec i doc field Hf) as (E & _).
  rewrite <- E. exact H.
Qed.

End FieldEventFacts.

(** X13 -- The error mark is never stale on a control's own value.  On a
    form rendered without marks, after any sequence of blur and input
    events, a control that carries the [error] class is a required control,
    and unless it is [confirm_password] (whose verdict depends on another
    control) validating it now would again return false. *)
Theorem error_mark_sound (doc : Validator.Doc) (evs : list FieldEvents.event)
    (i : nat) (f : Validator.Field) :
  FieldEvents.unmarked doc ->
  Validator.fields (FieldEvents.run evs doc) !! i = Some f ->
  Validator.errorClass f = true ->
  Validator.required f = true
  /\ (Validator.id f <> "confirm_password" ->
      fst (Validator.validateField i (FieldEvents.run evs doc)) = false).
Proof.
  intros H0 Hi Hm.
  pose (Good := fun g : Validator.Field =>
          Validator.errorClass g = true ->
          Validator.required g = true
          /\ (Validator.id g <> "confirm_password" ->
              Validator.verdict (trim (Validator.value g)) (Validator.type g)
                (Validator.id g) (Validator.required g) None = false)).
  enough (I : forall j g,
            Validator.fields (FieldEvents.run evs doc) !! j = Some g -> Good g).
  { destruct (I i f Hi Hm) as [R V]. split; [exact R|].
    intros Hid.
    destruct (ValidatorFacts.validateField_spec i _ f Hi) as (E & _).
    rewrite E, <- (V Hid). apply FieldEventFacts.verdict_companion, Hid. }
  clear i f Hi Hm.
  assert (V : forall d k fk,
            (forall j g, j <> k -> Validator.fields d !! j = Some g -> Good g) ->
            Validator.fields d !! k = Some fk ->
            Validator.required fk = true ->
            forall j g,
              Validator.fields (snd (Validator.validateField k d)) !! j = Some g ->
              Good g).
  { intros d k fk I Hk Hr j g Hj.
    destruct (FieldEventFacts.validated_field k d fk j g Hk Hj)
      as [[Hne Hj']|[-> ->]]; [apply (I j g Hne Hj')|].
    intros Hg. simpl in *. split; [exact Hr|]. intros Hid.
    apply negb_true_iff in Hg.
    rewrite <- (FieldEventFacts.validated_mark k d fk Hk Hg).
    apply FieldEventFacts.verdict_companion, Hid. }
  induction evs as [|e evs IH] using rev_ind.
  - intros j g Hj Hg. simpl in Hj.
    rewrite (H0 g) in Hg; [discriminate|].
    eapply list_elem_of_lookup_2, Hj.
  - unfold FieldEvents.run in *. rewrite fold_left_app. simpl.
    set (d := fold_left FieldEvents.step evs doc) in *.
    destruct e as [k|k v]; simpl.
    + unfold FieldEvents.onBlur.
      destruct (Validator.fields d !! k) as [fk|] eqn:Hk; [|exact IH].
      destruct (Validator.required fk) eqn:Hr; [|exact IH].
      apply (V d k fk); [|exact Hk|exact Hr].
      intros j g _. apply IH.
    + assert (I1 : forall j g,
                Validator.fields (FieldEvents.edit k v d) !! j = Some g ->
                (j <> k /\ Validator.fields d !! j = Some g)
                \/ (exists fk, j = k /\ Validator.fields d !! k = Some fk
                               /\ g = FieldEvents.set_value v fk)).
      { intros j g Hj. unfold FieldEvents.edit in Hj. simpl in Hj.
        destruct (decide (j = k)) as [->|Hne].
        - right. rewrite list_lookup_alter_eq in Hj.
          destruct (Validator.fields d !! k) as [fk|]; [|discriminate].
          exists fk. simpl in Hj. split; [reflexivity|]. split; congruence.
        - left. rewrite list_lookup_alter_ne in Hj by congruence. auto. }
      unfold FieldEvents.onInput.
      destruct (Validator.fields (FieldEvents.edit k v d) !! k) as [fk'|] eqn:Hk'.
      * destruct (I1 k fk' Hk') as [[Hne _]|(fk & _ & Hk & ->)]; [congruence|].
        destruct (Validator.required (FieldEvents.set_value v fk)
                  && Validator.errorClass (FieldEvents.set_value v fk)) eqn:Hc.
        -- apply andb_true_iff in Hc as [Hr Hc].
           apply (V (FieldEvents.edit k v d) k (FieldEvents.set_value v fk));
             [|exact Hk'|exact Hr].
           intros j g Hne Hj.
           destruct (I1 j g Hj) as [[_ Hj']|(fk2 & -> & _)];
             [apply (IH j g Hj')|congruence].
        -- intros j g Hj Hg.
           destruct (I1 j g Hj) as [[_ Hj']|(fk2 & -> & Hk2 & ->)];
             [apply (IH j g Hj' Hg)|].
           rewrite Hk in Hk2. injection Hk2 as <-. simpl in Hc, Hg.
           destruct (IH k fk Hk Hg) as [R _].
           rewrite R, Hg in Hc. discriminate.
      * intros j g Hj.
        destruct (I1 j g Hj) as [[_ Hj']|(fk2 & -> & Hk2 & ->)];
          [apply (IH j g Hj')|].
        rewrite Hk' in Hj. discriminate.
Qed.

Lemma error_mark_sound_witness :
  fst (Validator.validateField 0
         (FieldEvents.run
            [FieldEvents.Blur 0; FieldEvents.Input 1 (lit "hunter22");
             FieldEvents.Input 0 (lit "ann@")]
            (Validator.sampleForm (lit "ann") [] []))) = false.
Proof.
  eapply (error_mark_sound (Validator.sampleForm (lit "ann") [] [])
            [FieldEvents.Blur 0; FieldEvents.Input 1 (lit "hunter22");
             FieldEvents.Input 0 (lit "ann@")] 0).
  - intros f Hf. vm_compute in Hf.
    repeat (apply elem_of_cons in Hf as [-> | Hf]; [reflexivity|]).
    apply elem_of_nil in Hf. destruct Hf.
  - vm_compute. reflexivity.
  - reflexivity.
  - discriminate.
Defined.

(** ** The labels of the password toggle *)

Module ToggleLabels.
Import PasswordToggle ToggleFacts.

Lemma toggle_is_Some (field toggle n : nat) (d : gmap nat Element) :
  is_Some (togglePasswordField field toggle d !! n) <-> is_Some (d !! n).
Proof.
  unfold togglePasswordField.
  destruct (bool_decide _); destruct (d !! toggle ≫= img) as [i|]; cbv zeta;
    rewrite !lookup_alter_is_Some; reflexivity.
Qed.

Lemma toggle_img (field toggle : nat) (d : gmap nat Element) :
  togglePasswordField field toggle d !! toggle ≫= img = d !! toggle ≫= img.
Proof.
  unfold togglePasswordField.
  destruct (bool_decide _); destruct (d !! toggle ≫= img) as [i|] eqn:E;
    cbv zeta; rewrite !lookup_alter_img; exact E.
Qed.

Ltac read_prop :=
  rewrite ?get_prop_alter_other by discriminate;
  apply get_prop_alter_same;
  rewrite ?lookup_alter_is_Some; assumption.

(** One call leaves the labels in agreement with the type it sets. *)
Lemma toggle_labels (field toggle : nat) (d : gmap nat Element) :
  is_Some (d !! field) -> is_Some (d !! toggle) ->
  let d' := togglePasswordField field toggle d in
  exists t word picture,
    ((t = "text" /\ word = "Hide password"
      /\ picture = "/static/uploads/eye-slash.png")
     \/ (t = "password" /\ word = "Show password"
         /\ picture = "/static/uploads/eye.png"))
    /\ get_prop field "type" d' = Some t
    /\ get_prop toggle "aria-label" d' = Some word
    /\ get_prop toggle "title" d' = Some word
    /\ forall icon, d !! toggle ≫= img = Some icon -> is_Some (d !! icon) ->
         get_prop icon "alt" d' = Some word
         /\ get_prop icon "src" d' = Some picture.
Proof.
  intros Hf Ht d'. unfold d', togglePasswordField.
  destruct (bool_decide _).
  - exists "text", "Hide password", "/static/uploads/eye-slash.png".
    split; [left; auto|].
    destruct (d !! toggle ≫= img) as [i|] eqn:Ei.
    + repeat split; try read_prop.
      * injection H as <-. read_prop.
      * injection H as <-. read_prop.
    + repeat split; try read_prop; discriminate.
  - exists "password", "Show password", "/static/uploads/eye.png".
    split; [right; auto|].
    destruct (d !! toggle ≫= img) as [i|] eqn:Ei.
    + repeat split; try read_prop.
      * injection H as <-. read_prop.
      * injection H as <-. read_prop.
    + repeat split; try read_prop; discriminate.
Qed.

Lemma iter_is_Some (field toggle n : nat) (d : gmap nat Element) (k : nat) :
  is_Some (Nat.iter k (togglePasswordField field toggle) d !! n)
  <-> is_Some (d !! n).
Proof.
  induction k as [|k IH]; [reflexivity|].
  simpl. rewrite toggle_is_Some. exact IH.
Qed.

Lemma iter_img (field toggle : nat) (d : gmap nat Element) (k : nat) :
  Nat.iter k (togglePasswordField field toggle) d !! toggle ≫= img
  = d !! toggle ≫= img.
Proof.
  induction k as [|k IH]; [reflexivity|].
  simpl. rewrite toggle_img. exact IH.
Qed.

End ToggleLabels.

(** X14 -- The labels of the toggle follow the state of the input.  After
    one or more clicks on a toggle whose input and button exist, the input
    is of type [text] or [password]; the [aria-label] and the [title] of
    the button, and the [alt] text and the picture of its icon when it has
    one, say "Hide password" with the crossed eye exactly when the input
    shows its text, and "Show password" with the open eye when it is
    masked. *)
Theorem toggle_labels_follow_state (field toggle : nat)
    (d : gmap nat PasswordToggle.Element) (clicks : nat) :
  is_Some (d !! field) -> is_Some (d !! toggle) -> (0 < clicks)%nat ->
  let d' := Nat.iter clicks (PasswordToggle.togglePasswordField field toggle) d in
  exists t word picture,
    ((t = "text" /\ word = "Hide password"
      /\ picture = "/static/uploads/eye-slash.png")
     \/ (t = "password" /\ word = "Show password"
         /\ picture = "/static/uploads/eye.png"))
    /\ PasswordToggle.get_prop field "type" d' = Some t
    /\ PasswordToggle.get_prop toggle "aria-label" d' = Some word
    /\ PasswordToggle.get_prop toggle "title" d' = Some word
    /\ forall icon,
         d !! toggle ≫= PasswordToggle.img = Some icon -> is_Some (d !! icon) ->
         PasswordToggle.get_prop icon "alt" d' = Some word
         /\ PasswordToggle.get_prop icon "src" d' = Some picture.
Proof.
  intros Hf Ht Hn d'. destruct clicks as [|k]; [lia|].
  unfold d'. simpl.
  set (d0 := Nat.iter k (PasswordToggle.togglePasswordField field toggle) d).
  destruct (ToggleLabels.toggle_labels field toggle d0)
    as (t & word & picture & H1 & H2 & H3 & H4 & H5).
  - apply ToggleLabels.iter_is_Some, Hf.
  - apply ToggleLabels.iter_is_Some, Ht.
  - exists t, word, picture. repeat (split; [assumption|]).
    intros icon Hi Hs. apply H5.
    + unfold d0. rewrite ToggleLabels.iter_img. exact Hi.
    + apply ToggleLabels.iter_is_Some, Hs.
Qed.

Lemma toggle_labels_follow_state_witness :
  exists t word picture,
    ((t = "text" /\ word = "Hide password"
      /\ picture = "/static/uploads/eye-slash.png")
     \/ (t = "password" /\ word = "Show password"
         /\ picture = "/static/uploads/eye.png"))
    /\ PasswordToggle.get_prop 0 "type"
         (Nat.iter 3 (PasswordToggle.togglePasswordField 0 1)
            PasswordToggle.samplePage) = Some t
    /\ PasswordToggle.get_prop 1 "aria-label"
         (Nat.iter 3 (PasswordToggle.togglePasswordField 0 1)
            PasswordToggle.samplePage) = Some word
    /\ PasswordToggle.get_prop 1 "title"
         (Nat.iter 3 (PasswordToggle.togglePasswordField 0 1)
            PasswordToggle.samplePage) = Some word
    /\ forall icon,
         PasswordToggle.samplePage !! 1%nat ≫= PasswordToggle.img = Some icon ->
         is_Some (PasswordToggle.samplePage !! icon) ->
         PasswordToggle.get_prop icon "alt"
           (Nat.iter 3 (PasswordToggle.togglePasswordField 0 1)
              PasswordToggle.samplePage) = Some word
         /\ PasswordToggle.get_prop icon "src"
              (Nat.iter 3 (PasswordToggle.togglePasswordField 0 1)
                 PasswordToggle.samplePage) = Some picture.
Proof.
  apply (toggle_labels_follow_state 0 1 PasswordToggle.samplePage 3).
  - vm_compute. eauto.
  - vm_compute. eauto.
  - lia.
Defined.

(** ** The submit listeners of a form *)

Module FormSubmitFacts.
Import FormSubmit.

Lemma drop_while_nil (p : char -> bool) (s : list char) :
  drop_while p s = [] <-> forallb p s = true.
Proof.
  induction s as [|c s IH]; simpl; [tauto|].
  destruct (p c); simpl; [exact IH|]. split; discriminate.
Qed.

Lemma drop_while_all (p : char -> bool) (s : list char) :
  forallb p (drop_while p s) = true -> drop_while p s = [].
Proof.
  induction s as [|c s IH]; simpl; [reflexivity|].
  destruct (p c) eqn:E; [exact IH|]. simpl. rewrite E. discriminate.
Qed.

Lemma forallb_rev (p : char -> bool) (s : list char) :
  forallb p (rev s) = forallb p s.
Proof.
  induction s as [|c s IH]; [reflexivity|].
  simpl. rewrite forallb_app, IH. simpl. rewrite andb_true_r. apply andb_comm.
Qed.

(** [trim] empties exactly the values made of white space only. *)
Lemma trim_nil_iff (v : list char) : trim v = [] <-> blank v = true.
Proof.
  unfold trim, blank. split.
  - intros H. apply (f_equal (@rev char)) in H. rewrite rev_involutive in H.
    simpl in H. apply drop_while_nil in H. rewrite forallb_rev in H.
    apply drop_while_all in H. apply drop_while_nil, H.
  - intros H. apply drop_while_nil in H. rewrite H. reflexivity.
Qed.

Lemma visit_mark (st : list Control * bool) (c : Control) :
  visit st c = (fst st ++ [mark c], snd st || blank (value c)).
Proof.
  unfold visit, mark. destruct (blank (value c)) eqn:E.
  - rewrite bool_decide_eq_true_2 by (apply trim_nil_iff, E).
    rewrite orb_true_r. reflexivity.
  - rewrite bool_decide_eq_false_2, orb_false_r; [reflexivity|].
    intros H. apply trim_nil_iff in H. congruence.
Qed.

Lemma fold_visit (l : list Control) (st : list Control * bool) :
  fold_left visit l st
  = (fst st ++ map mark l, snd st || existsb (fun c => blank (value c)) l).
Proof.
  revert st. induction l as [|c l IH]; intros st; simpl.
  - rewrite app_nil_r, orb_false_r. destruct st; reflexivity.
  - rewrite IH, visit_mark. simpl. rewrite <- app_assoc, orb_assoc. reflexivity.
Qed.

Lemma requiredCheck_spec (l : list Control) :
  requiredCheck l = (map mark l, existsb (fun c => blank (value c)) l).
Proof. unfold requiredCheck. rewrite fold_visit. reflexivity. Qed.

Lemma existsb_blank (l : list Control) :
  existsb (fun c => blank (value c)) l = true
  <-> exists c, c ∈ l /\ blank (value c) = true.
Proof.
  rewrite existsb_exists. split; intros (c & H1 & H2); exists c; split; auto;
    apply list_elem_of_In; exact H1.
Qed.

End FormSubmitFacts.

(** X15 -- The required check of a form.  A submit event is prevented,
    and the user alerted once, exactly when some required control holds
    nothing but white space (an empty value included); every required
    control gets the danger border when it is blank and the normal border
    otherwise, and no value is changed. *)
Theorem required_fields_check (f : FormSubmit.Form) :
  let d := FormSubmit.submit f in
  (FormSubmit.defaultPrevented d = true
   <-> exists c, c ∈ FormSubmit.requiredFields f
                 /\ FormSubmit.blank (FormSubmit.value c) = true)
  /\ FormSubmit.alerts d
     = (if FormSubmit.defaultPrevented d
        then ["Please fill in all required fields."] else [])
  /\ length (FormSubmit.requiredFields (FormSubmit.form d))
     = length (FormSubmit.requiredFields f)
  /\ forall i c, FormSubmit.requiredFields f !! i = Some c ->
       FormSubmit.requiredFields (FormSubmit.form d) !! i
       = Some {| FormSubmit.value := FormSubmit.value c;
                 FormSubmit.borderColor :=
                   Some (if FormSubmit.blank (FormSubmit.value c)
                         then "var(--danger-color)" else "var(--border-color)") |}.
Proof.
  intros d.
  assert (E : FormSubmit.defaultPrevented d
              = existsb (fun c => FormSubmit.blank (FormSubmit.value c))
                  (FormSubmit.requiredFields f)
              /\ FormSubmit.alerts d
                 = (if FormSubmit.defaultPrevented d
                    then ["Please fill in all required fields."] else [])
              /\ FormSubmit.requiredFields (FormSubmit.form d)
                 = map FormSubmit.mark (FormSubmit.requiredFields f)).
  { unfold d, FormSubmit.submit, FormSubmit.loadingListener, FormSubmit.checkListener.
    cbn [FormSubmit.form FormSubmit.defaultPrevented FormSubmit.alerts
         FormSubmit.requiredFields FormSubmit.submitBtn FormSubmit.restores].
    rewrite FormSubmitFacts.requiredCheck_spec. cbn [fst snd].
    destruct (FormSubmit.submitBtn f);
      cbn [FormSubmit.form FormSubmit.defaultPrevented FormSubmit.alerts
           FormSubmit.requiredFields orb];
      destruct (existsb _ _); auto. }
  destruct E as (E1 & E2 & E3).
  split; [|split; [exact E2|split]].
  - rewrite E1. apply FormSubmitFacts.existsb_blank.
  - rewrite E3. apply length_map.
  - intros i c Hc. rewrite E3, list_lookup_fmap, Hc. reflexivity.
Qed.

Module LoadingFacts.
Import FormSubmit.



End LoadingFacts.



(** ** The three submit listeners of the login form *)





(** ** Flash messages *)

Module FlashFacts.
Import Flash.

Lemma querySelectorAll_spec (cls : string) (els : list Element) (i0 j : nat) :
  j ∈ querySelectorAll cls els i0
  <-> (i0 <= j)%nat /\ exists e, els !! (j - i0)%nat = Some e /\ cls ∈ classList e.
Proof.
  revert i0. induction els as [|e els IH]; intros i0; simpl.
  - split; [intros H; apply elem_of_nil in H; destruct H|].
    intros (_ & x & H & _). discriminate.
  - assert (R : j ∈ querySelectorAll cls els (S i0)
                <-> (S i0 <= j)%nat
                    /\ exists x, (e :: els) !! (j - i0)%nat = Some x /\ cls ∈ classList x).
    { rewrite IH. split; intros (Hj & x & Hx & Hc); (split; [lia|]); exists x;
        (split; [|exact Hc]).
      - replace (j - i0)%nat with (S (j - S i0)) by lia. exact Hx.
      - replace (j - i0)%nat with (S (j - S i0)) in Hx by lia. exact Hx. }
    destruct (decide (cls ∈ classList e)) as [Hc|Hc].
    + rewrite (bool_decide_eq_true_2 _ Hc), elem_of_cons, R. split.
      * intros [-> | (Hj & x & Hx & Hcx)].
        -- split; [lia|]. exists e. rewrite Nat.sub_diag. auto.
        -- split; [lia|]. eauto.
      * intros (Hj & x & Hx & Hcx).
        destruct (decide (j = i0)) as [->|Hne]; [left; reflexivity|].
        right. split; [lia|]. eauto.
    + rewrite (bool_decide_eq_false_2 _ Hc), R. split.
      * intros (Hj & x & Hx & Hcx). split; [lia|]. eauto.
      * intros (Hj & x & Hx & Hcx).
        destruct (decide (j = i0)) as [->|Hne].
        -- rewrite Nat.sub_diag in Hx. simpl in Hx. congruence.
        -- split; [lia|]. eauto.
Qed.

Lemma querySelectorAll_NoDup (cls : string) (els : list Element) (i0 : nat) :
  NoDup (querySelectorAll cls els i0).
Proof.
  revert i0. induction els as [|e els IH]; intros i0; simpl; [constructor|].
  destruct (bool_decide _); [|apply IH].
  constructor; [|apply IH].
  intros H. apply querySelectorAll_spec in H as [H _]. lia.
Qed.

Lemma alert_selected (els : list Element) (i : nat) :
  i ∈ querySelectorAll "alert" els 0
  <-> exists e, els !! i = Some e /\ isAlert e = true.
Proof.
  rewrite querySelectorAll_spec, Nat.sub_0_r. unfold isAlert.
  split.
  - intros (_ & e & H & Hc). exists e. rewrite bool_decide_eq_true. auto.
  - intros (e & H & Hc). split; [lia|]. exists e.
    rewrite bool_decide_eq_true in Hc. auto.
Qed.

Lemma pending_loaded (els : list Element) :
  pending (onLoad (rendered els)) = Fade <$> querySelectorAll "alert" els 0.
Proof.
  unfold pending, onLoad. simpl. rewrite <- list_fmap_compose. reflexivity.
Qed.

Lemma flashInv_loaded (els : list Element) : flashInv els (onLoad (rendered els)).
Proof.
  assert (F : forall i, Fade i ∈ pending (onLoad (rendered els))
                        <-> exists e, els !! i = Some e /\ isAlert e = true).
  { intros i. rewrite pending_loaded, <- alert_selected, list_elem_of_fmap. split.
    - intros (j & E & Hj). injection E as ->. exact Hj.
    - intros H. eauto. }
  assert (H : forall i, Hide i ∉ pending (onLoad (rendered els))).
  { intros i. rewrite pending_loaded, list_elem_of_fmap.
    intros (j & E & _). discriminate. }
  split; [|split; [|split]].
  - rewrite pending_loaded. apply NoDup_fmap_2; [|apply querySelectorAll_NoDup].
    intros x y E. injection E as ->. reflexivity.
  - reflexivity.
  - intros i Hi. split; [|apply H]. rewrite F. intros (e & He & _).
    apply lookup_lt_Some in He. lia.
  - intros i e He. destruct (isAlert e) eqn:Ea.
    + left. split; [exact He|]. split; [|apply H]. apply F. eauto.
    + split; [exact He|]. split; [|apply H]. rewrite F.
      intros (e' & He' & Ha). congruence.
Qed.

Lemma flashInv_step (els : list Element) (p : Page) (k : nat) :
  flashInv els p -> flashInv els (step p k).
Proof.
  intros (ND & L & Out & In). unfold step.
  destruct (timeouts p !! k) as [t|] eqn:Et;
    [|exact (conj ND (conj L (conj Out In)))].
  set (D := delete k (pending p)).
  assert (Ek : pending p !! k = Some (callback t))
    by (unfold pending; rewrite list_lookup_fmap, Et; reflexivity).
  pose proof (delete_Permutation _ _ _ Ek) as Perm. fold D in Perm.
  assert (M : forall x, x ∈ pending p <-> x = callback t \/ x ∈ D)
    by (intros x; rewrite Perm, elem_of_cons; reflexivity).
  rewrite Perm in ND. apply NoDup_cons in ND as [Hc ND].
  assert (ED : callback <$> delete k (timeouts p) = D)
    by (unfold D, pending; apply list_fmap_delete).
  destruct (callback t) as [a|a] eqn:Ec; unfold runCallback, flashInv, pending;
    cbn [elements timeouts].
  - (* the fade of alert [a] *)
    assert (Ha : Fade a ∈ pending p) by (apply M; auto).
    assert (La : (a < length els)%nat).
    { destruct (Nat.lt_ge_cases a (length els)) as [?|Hge]; [assumption|].
      destruct (Out a Hge) as [O _]. contradiction. }
    destruct (lookup_lt_is_Some_2 els a La) as [e He].
    assert (S1 : isAlert e = true /\ elements p !! a = Some e /\ Hide a ∉ pending p).
    { specialize (In a e He). destruct (isAlert e).
      - destruct In as [(? & ? & ?)|[(? & N & ?)|(? & N & ?)]]; auto; contradiction.
      - destruct In as (_ & N & _). contradiction. }
    destruct S1 as (Ea & Hel & Hh).
    rewrite fmap_app, ED. simpl.
    assert (MF : forall i, Fade i ∈ D ++ [Hide a] <-> i <> a /\ Fade i ∈ pending p).
    { intros i. rewrite elem_of_app, list_elem_of_singleton, M. split.
      - intros [H|H]; [|discriminate]. split; [|auto]. intros ->. contradiction.
      - intros (Hne & [H|H]); [|auto]. injection H as ->. contradiction. }
    assert (MH : forall i, Hide i ∈ D ++ [Hide a] <-> i = a \/ Hide i ∈ pending p).
    { intros i. rewrite elem_of_app, list_elem_of_singleton, M. split.
      - intros [H|H]; [auto|]. injection H as ->. auto.
      - intros [-> | [H|H]]; [auto|discriminate|auto]. }
    split; [|split; [|split]].
    + apply NoDup_app. split; [exact ND|]. split; [|apply NoDup_singleton].
      intros x Hx Hx'. apply list_elem_of_singleton in Hx' as ->.
      apply Hh, M. auto.
    + rewrite length_alter. exact L.
    + intros i Hi. pose proof (MF i) as MFi. pose proof (MH i) as MHi.
      destruct (Out i Hi) as [O1 O2].
      assert (i <> a) by lia. clear -MFi MHi O1 O2 H. tauto.
    + intros i x Hx. specialize (In i x Hx).
      pose proof (MF i) as MFi. pose proof (MH i) as MHi.
      destruct (decide (i = a)) as [->|Hne].
      * assert (x = e) as -> by congruence. rewrite Ea.
        right. left. rewrite list_lookup_alter_eq, Hel. simpl.
        split; [reflexivity|]. clear -MFi MHi. tauto.
      * rewrite list_lookup_alter_ne by congruence.
        clear -In Hne MFi MHi. destruct (isAlert x); tauto.
  - (* the hide of alert [a] *)
    assert (Ha : Hide a ∈ pending p) by (apply M; auto).
    assert (La : (a < length els)%nat).
    { destruct (Nat.lt_ge_cases a (length els)) as [?|Hge]; [assumption|].
      destruct (Out a Hge) as [_ O]. contradiction. }
    destruct (lookup_lt_is_Some_2 els a La) as [e He].
    assert (S2 : isAlert e = true /\ elements p !! a = Some (fade e)
                 /\ Fade a ∉ pending p).
    { specialize (In a e He). destruct (isAlert e).
      - destruct In as [(? & ? & N)|[(? & ? & ?)|(? & ? & N)]]; auto; contradiction.
      - destruct In as (_ & _ & N). contradiction. }
    destruct S2 as (Ea & Hel & Hf).
    rewrite ED.
    assert (MF : forall i, Fade i ∈ D <-> Fade i ∈ pending p).
    { intros i. rewrite M. split; [auto|]. intros [H|H]; [discriminate|auto]. }
    assert (MH : forall i, Hide i ∈ D <-> i <> a /\ Hide i ∈ pending p).
    { intros i. rewrite M. split.
      - intros H. split; [|auto]. intros ->. contradiction.
      - intros (Hne & [H|H]); [|auto]. injection H as ->. contradiction. }
    split; [exact ND|split; [|split]].
    + rewrite length_alter. exact L.
    + intros i Hi. pose proof (MF i) as MFi. pose proof (MH i) as MHi.
      destruct (Out i Hi) as [O1 O2]. clear -MFi MHi O1 O2. tauto.
    + intros i x Hx. specialize (In i x Hx).
      pose proof (MF i) as MFi. pose proof (MH i) as MHi.
      destruct (decide (i = a)) as [->|Hne].
      * assert (x = e) as -> by congruence. rewrite Ea.
        right. right. rewrite list_lookup_alter_eq, Hel. simpl.
        split; [reflexivity|]. clear -MFi MHi Hf. tauto.
      * rewrite list_lookup_alter_ne by congruence.
        clear -In Hne MFi MHi. destruct (isAlert x); tauto.
Qed.

Lemma flashInv_run (els : list Element) (ks : list nat) (p : Page) :
  flashInv els p -> flashInv els (run ks p).
Proof.
  revert p. induction ks as [|k ks IH]; intros p H; [exact H|].
  apply IH, flashInv_step, H.
Qed.

End FlashFacts.

(** X18 -- What the flash handler does to the page, in whatever order its
    timeouts fire.  An element that is not of class [alert] is never
    changed.  An alert is as rendered, or faded (transition set, opacity
    0), or faded and taken off the display: it is never hidden without
    having been faded, and its classes are never changed.  Once no timeout
    is pending, every alert is faded and off the display. *)
Theorem flash_messages_hide (els : list Flash.Element) (ks : list nat) :
  let p := Flash.run ks (Flash.onLoad (Flash.rendered els)) in
  length (Flash.elements p) = length els
  /\ forall i e, els !! i = Some e ->
       (Flash.isAlert e = false -> Flash.elements p !! i = Some e)
       /\ (Flash.isAlert e = true ->
           Flash.elements p !! i = Some e
           \/ Flash.elements p !! i = Some (Flash.fade e)
           \/ Flash.elements p !! i = Some (Flash.hide (Flash.fade e)))
       /\ (Flash.isAlert e = true -> Flash.timeouts p = [] ->
           Flash.elements p !! i = Some (Flash.hide (Flash.fade e))).
Proof.
  intros p.
  assert (I : Flash.flashInv els p)
    by (apply FlashFacts.flashInv_run, FlashFacts.flashInv_loaded).
  destruct I as (_ & L & _ & In). split; [exact L|].
  intros i e He. specialize (In i e He).
  destruct (Flash.isAlert e); (split; [|split]); try discriminate.
  - intros _. destruct In as [(? & _)|[(? & _)|(? & _)]]; auto.
  - intros _ Hq. unfold Flash.pending in In. rewrite Hq in In. simpl in In.
    destruct In as [(_ & H & _)|[(_ & _ & H)|(? & _)]];
      [apply elem_of_nil in H; destruct H|apply elem_of_nil in H; destruct H|assumption].
  - intros _. apply In.
Qed.

Module FlashSchedule.
Import Flash.

Lemma stepsLeft_head (p : Page) :
  timeouts p <> [] -> S (stepsLeft (step p 0)) = stepsLeft p.
Proof.
  unfold step, stepsLeft. destruct (timeouts p) as [|t rest]; [congruence|].
  intros _. simpl. destruct (callback t); simpl.
  - rewrite sum_list_with_app. simpl. lia.
  - reflexivity.
Qed.

Lemma stepsLeft_nil (p : Page) : stepsLeft p = 0%nat <-> timeouts p = [].
Proof.
  unfold stepsLeft. destruct (timeouts p) as [|t rest]; simpl; [tauto|].
  split; [|discriminate]. destruct (callback t); lia.
Qed.

Lemma stepsLeft_run (m : nat) (p : Page) :
  (m <= stepsLeft p)%nat ->
  (stepsLeft (run (replicate m 0%nat) p) + m = stepsLeft p)%nat.
Proof.
  revert p. induction m as [|m IH]; intros p H; [simpl; lia|].
  change (run (replicate (S m) 0%nat) p) with (run (replicate m 0%nat) (step p 0)).
  assert (N : timeouts p <> []).
  { intros E. apply stepsLeft_nil in E. lia. }
  pose proof (stepsLeft_head p N) as S1.
  specialize (IH (step p 0)). lia.
Qed.

Lemma stepsLeft_loaded (els : list Element) :
  stepsLeft (onLoad (rendered els))
  = (2 * length (querySelectorAll "alert" els 0))%nat.
Proof.
  unfold stepsLeft, onLoad. cbn [timeouts rendered elements app].
  induction (querySelectorAll "alert" els 0) as [|a l IH]; [reflexivity|].
  cbn [fmap list_fmap sum_list_with callback length]. rewrite IH. lia.
Qed.

End FlashSchedule.

(** X19 -- The flash messages are gone after two timeouts each.  With
    [n] elements of class [alert] on the page, firing the pending timeouts
    in the order in which they were set leaves a timeout pending after
    fewer than [2 n] firings, and after [2 n] firings none: then every
    alert is faded and off the display, and every other element is as
    rendered. *)
Theorem flash_all_hidden (els : list Flash.Element) :
  let n := length (Flash.querySelectorAll "alert" els 0) in
  let schedule m := Flash.run (replicate m 0%nat) (Flash.onLoad (Flash.rendered els)) in
  (forall m, (m < 2 * n)%nat -> Flash.timeouts (schedule m) <> [])
  /\ Flash.timeouts (schedule (2 * n)%nat) = []
  /\ Flash.elements (schedule (2 * n)%nat)
     = (fun e => if Flash.isAlert e then Flash.hide (Flash.fade e) else e) <$> els.
Proof.
  intros n schedule.
  pose proof (FlashSchedule.stepsLeft_loaded els) as S0. fold n in S0.
  assert (Q : Flash.timeouts (schedule (2 * n)%nat) = []).
  { apply FlashSchedule.stepsLeft_nil.
    pose proof (FlashSchedule.stepsLeft_run (2 * n)
                  (Flash.onLoad (Flash.rendered els))) as R.
    fold (schedule (2 * n)%nat) in R. lia. }
  split; [|split; [exact Q|]].
  - intros m Hm E. apply FlashSchedule.stepsLeft_nil in E.
    pose proof (FlashSchedule.stepsLeft_run m
                  (Flash.onLoad (Flash.rendered els))) as R.
    fold (schedule m) in R. lia.
  - assert (I : Flash.flashInv els (schedule (2 * n)%nat))
      by (apply FlashFacts.flashInv_run, FlashFacts.flashInv_loaded).
    destruct I as (_ & L & _ & In).
    set (q := schedule (2 * n)%nat) in *. clearbody q.
    apply list_eq. intros i. rewrite list_lookup_fmap.
    destruct (els !! i) as [e|] eqn:He; simpl.
    + specialize (In i e He). unfold Flash.pending in In.
      rewrite Q in In. simpl in In.
      destruct (Flash.isAlert e).
      * destruct In as [(_ & H & _)|[(_ & _ & H)|(? & _)]];
          [apply elem_of_nil in H; destruct H|apply elem_of_nil in H; destruct H
          |assumption].
      * apply In.
    + apply lookup_ge_None in He. apply lookup_ge_None. lia.
Qed.

(** ** The volunteer checkbox *)

Module VolunteerFacts.
Import Volunteer.

Lemma volunteer_run_snoc (evs : list event) (e : event) (p : Page) :
  run (evs ++ [e]) p = step (run evs p) e.
Proof. unfold run. rewrite fold_left_app. reflexivity. Qed.

(** What [toggleApproveOption] establishes. *)
Lemma toggle_shows (p : Page) (v : bool) :
  volunteerCheckbox p = Some v ->
  volunteerCheckbox (toggleApproveOption p) = Some v
  /\ approveGroup (toggleApproveOption p) = Some (Some (if v then "block" else "none"))
  /\ (v = false -> forall a, approveCheckbox (toggleApproveOption p) = Some a ->
                             a = false).
Proof.
  intros H. unfold toggleApproveOption. rewrite H. destruct v; simpl.
  - split; [reflexivity|]. split; [reflexivity|discriminate].
  - split; [reflexivity|]. split; [reflexivity|].
    intros _ a. destruct (approveCheckbox p); simpl; congruence.
Qed.

Lemma shown_run (p : Page) (evs : list event) :
  wired p = true ->
  exists v, volunteerCheckbox (run evs (onLoad p)) = Some v
            /\ approveGroup (run evs (onLoad p))
               = Some (Some (if v then "block" else "none")).
Proof.
  intros W. induction evs as [|e evs IH] using rev_ind.
  - simpl. unfold onLoad. rewrite W. unfold wired in W.
    destruct (volunteerCheckbox p) as [v|] eqn:Ev; [|discriminate].
    exists v. destruct (toggle_shows p v Ev) as (H1 & H2 & _). auto.
  - destruct IH as (v & Hv & Hg). rewrite volunteer_run_snoc.
    set (q := run evs (onLoad p)) in *.
    destruct e; simpl.
    + unfold wired. cbn [volunteerCheckbox approveGroup]. rewrite Hv, Hg. simpl.
      exists (negb v).
      destruct (toggle_shows
                  {| volunteerCheckbox := Some (negb v); approveGroup := approveGroup q;
                     approveCheckbox := approveCheckbox q |} (negb v) eq_refl)
        as (H1 & H2 & _).
      rewrite Hg in H1, H2. auto.
    + exists v. auto.
Qed.

End VolunteerFacts.

(** X20 -- The approval option follows the volunteer checkbox.  On an
    admin form that has the checkbox and the group, after the load and any
    sequence of clicks on the two checkboxes, the approval group is
    displayed exactly when the volunteer checkbox is checked; and with the
    volunteer checkbox unchecked the approval checkbox is unchecked too,
    unless the last click was on the approval checkbox itself. *)
Theorem approve_follows_volunteer (p : Volunteer.Page) (evs : list Volunteer.event) :
  Volunteer.wired p = true ->
  let after := Volunteer.run evs (Volunteer.onLoad p) in
  exists v,
    Volunteer.volunteerCheckbox after = Some v
    /\ Volunteer.approveGroup after = Some (Some (if v then "block" else "none"))
    /\ (v = false -> last evs <> Some Volunteer.ClickApprove ->
        forall a, Volunteer.approveCheckbox after = Some a -> a = false).
Proof.
  intros W after.
  destruct (VolunteerFacts.shown_run p evs W) as (v & Hv & Hg).
  exists v. split; [exact Hv|]. split; [exact Hg|].
  intros -> Hl. unfold after in *. clear after.
  destruct evs as [|e evs] using rev_ind.
  - simpl in *. unfold Volunteer.onLoad in *. rewrite W in *.
    unfold Volunteer.wired in W.
    destruct (Volunteer.volunteerCheckbox p) as [v|] eqn:Ev; [|discriminate].
    destruct (VolunteerFacts.toggle_shows p v Ev) as (H1 & _ & H3).
    apply H3. congruence.
  - clear IHevs. rewrite last_snoc in Hl. rewrite VolunteerFacts.volunteer_run_snoc in *.
    destruct e; [|congruence].
    destruct (VolunteerFacts.shown_run p evs W) as (v' & Hv' & Hg').
    set (q := Volunteer.run evs (Volunteer.onLoad p)) in *.
    simpl in *. unfold Volunteer.wired in *.
    cbn [Volunteer.volunteerCheckbox Volunteer.approveGroup] in *.
    rewrite Hv', Hg' in *. simpl in *.
    destruct (VolunteerFacts.toggle_shows
                {| Volunteer.volunteerCheckbox := Some (negb v');
                   Volunteer.approveGroup := Some (Some (if v' then "block" else "none"));
                   Volunteer.approveCheckbox := Volunteer.approveCheckbox q |}
                (negb v') eq_refl) as (H1 & _ & H3).
    apply H3. congruence.
Qed.

Lemma approve_follows_volunteer_witness :
  exists v,
    Volunteer.volunteerCheckbox
      (Volunteer.run [Volunteer.ClickApprove; Volunteer.ChangeVolunteer]
         (Volunteer.onLoad
            {| Volunteer.volunteerCheckbox := Some true;
               Volunteer.approveGroup := Some None;
               Volunteer.approveCheckbox := Some false |})) = Some v
    /\ Volunteer.approveGroup
         (Volunteer.run [Volunteer.ClickApprove; Volunteer.ChangeVolunteer]
            (Volunteer.onLoad
               {| Volunteer.volunteerCheckbox := Some true;
                  Volunteer.approveGroup := Some None;
                  Volunteer.approveCheckbox := Some false |}))
       = Some (Some (if v then "block" else "none")).
Proof.
  destruct (approve_follows_volunteer
              {| Volunteer.volunteerCheckbox := Some true;
                 Volunteer.approveGroup := Some None;
                 Volunteer.approveCheckbox := Some false |}
              [Volunteer.ClickApprove; Volunteer.ChangeVolunteer] eq_refl)
    as (v & H1 & H2 & _).
  exists v. split; assumption.
Defined.

(** ** Dropdown menus *)

Module DropdownFacts.
Import Dropdown.

Lemma item_update (d : nat) (f : Item -> Item) (p : Page) (i : nat) :
  dropdowns (update d f p) !! i
  = if decide (i = d) then f <$> dropdowns p !! i else dropdowns p !! i.
Proof.
  unfold update. simpl. destruct (decide (i = d)) as [->|Hne].
  - apply list_lookup_alter_eq.
  - apply list_lookup_alter_ne. congruence.
Qed.

Lemma item_update_ne (d : nat) (f : Item -> Item) (p : Page) (i : nat) :
  i <> d -> dropdowns (update d f p) !! i = dropdowns p !! i.
Proof. intros H. rewrite item_update. destruct (decide (i = d)); congruence. Qed.

Lemma item_update_eq (d : nat) (f : Item -> Item) (p : Page) :
  dropdowns (update d f p) !! d = f <$> dropdowns p !! d.
Proof. rewrite item_update. destruct (decide (d = d)); congruence. Qed.

Lemma timers_clearTimeout (h : option nat) (p : Page) (id : nat) (t : Timer) :
  timers (clearTimeout h p) !! id = Some t -> timers p !! id = Some t.
Proof.
  destruct h as [i|]; simpl; [|auto].
  intros H. apply lookup_delete_Some in H. apply H.
Qed.

Lemma dropdowns_clearTimeout (h : option nat) (p : Page) :
  dropdowns (clearTimeout h p) = dropdowns p.
Proof. destruct h; reflexivity. Qed.

Lemma hoveringInv_step (d : nat) (p : Page) (e : event) :
  pointerStays d e = true -> hoveringInv d p -> hoveringInv d (step p e).
Proof.
  intros Hs ((it & Hit & Hh & Ht & Hm) & HT). unfold hoveringInv.
  destruct e as [d'|d'|d'|d'|d'| |id]; simpl in Hs; try discriminate; simpl.
  - (* mouseenter on a dropdown *)
    unfold dropdownEnter.
    destruct (dropdowns p !! d') as [it'|] eqn:E'; [|split; eauto 10].
    destruct (listening it'); [|split; eauto 10].
    split.
    + rewrite item_update, dropdowns_clearTimeout.
      destruct (decide (d = d')) as [->|Hne]; [|eauto 10].
      rewrite Hit. simpl. eexists. split; [reflexivity|]. simpl.
      rewrite Hm. auto.
    + simpl. intros id t H. apply timers_clearTimeout in H. eapply HT, H.
  - (* mouseleave on another dropdown *)
    apply negb_true_iff, Nat.eqb_neq in Hs.
    unfold mouseleave.
    destruct (dropdowns p !! d') as [it'|] eqn:E'; [|split; eauto 10].
    destruct (listening it'); [|split; eauto 10].
    unfold setTimeout, update. simpl. split.
    + rewrite !list_lookup_alter_ne by congruence. eauto 10.
    + intros id t H. apply lookup_insert_Some in H as [[_ <-]|[_ H]];
        [discriminate|eapply HT, H].
  - (* mouseenter on a menu *)
    unfold menuEnter.
    destruct (dropdowns p !! d') as [it'|] eqn:E'; [|split; eauto 10].
    destruct (listening it'); [|split; eauto 10].
    split.
    + rewrite item_update, dropdowns_clearTimeout.
      destruct (decide (d = d')) as [->|Hne]; [|eauto 10].
      rewrite Hit. simpl. eexists. split; [reflexivity|]. simpl. auto.
    + simpl. intros id t H. apply timers_clearTimeout in H. eapply HT, H.
  - (* mouseleave on another menu *)
    apply negb_true_iff, Nat.eqb_neq in Hs.
    unfold mouseleave.
    destruct (dropdowns p !! d') as [it'|] eqn:E'; [|split; eauto 10].
    destruct (listening it'); [|split; eauto 10].
    unfold setTimeout, update. simpl. split.
    + rewrite !list_lookup_alter_ne by congruence. eauto 10.
    + intros id t H. apply lookup_insert_Some in H as [[_ <-]|[_ H]];
        [discriminate|eapply HT, H].
  - (* a timer *)
    destruct (timers p !! id) as [t|] eqn:Et; [|split; eauto 10].
    assert (HT' : forall id' t', delete id (timers p) !! id' = Some t' ->
                    callback t' <> HideNow d).
    { intros id' t' H. apply lookup_delete_Some in H as [_ H]. eapply HT, H. }
    pose proof (HT id t Et) as Hc.
    destruct (callback t) as [d'|d'|d']; simpl.
    + destruct (dropdowns p !! d') as [it'|] eqn:E'; [|split; eauto 10].
      destruct (isHovering it') eqn:Eh; [split; eauto 10|].
      assert (Hne : d <> d') by (intros ->; congruence).
      simpl. split.
      * rewrite list_lookup_alter_ne by congruence. eauto 10.
      * intros id' t' H. apply lookup_insert_Some in H as [[_ <-]|[_ H]];
          [discriminate|eapply HT', H].
    + destruct (dropdowns p !! d') as [it'|] eqn:E'; [|split; eauto 10].
      destruct (isHovering it') eqn:Eh; [split; eauto 10|].
      assert (Hne : d <> d') by (intros ->; congruence).
      simpl. split; [|exact HT'].
      rewrite list_lookup_alter_ne by congruence. eauto 10.
    + assert (Hne : d <> d') by (intros ->; congruence).
      simpl. split; [|exact HT'].
      rewrite list_lookup_alter_ne by congruence. eauto 10.
Qed.

Lemma hoveringInv_enter (d : nat) (p : Page) (it : Item) :
  dropdowns p !! d = Some it -> listening it = true ->
  (forall id t, timers p !! id = Some t -> callback t <> HideNow d) ->
  hoveringInv d (step p (DropdownEnter d)).
Proof.
  intros Hit Hl HT. unfold hoveringInv. simpl. unfold dropdownEnter. rewrite Hit, Hl.
  unfold listening in Hl. apply andb_true_iff in Hl as [Ht Hm].
  destruct (menu it) as [m|] eqn:Em; [|discriminate].
  split.
  - rewrite item_update_eq, dropdowns_clearTimeout, Hit. simpl.
    eexists. split; [reflexivity|]. simpl. rewrite Em. auto.
  - simpl. intros id t H. apply timers_clearTimeout in H. eapply HT, H.
Qed.

End DropdownFacts.

(** X21 -- While the pointer stays inside a dropdown its menu stays open.
    After the pointer has entered a dropdown that has its listeners, and as
    long as it does not leave the dropdown or its menu and nothing is
    touched or clicked elsewhere, the menu is displayed, opaque and visible,
    whatever timers come due and whatever the pointer did before --
    provided no timer of an earlier touch or outside click, which hides
    the menu unconditionally, was pending when the pointer entered. *)
Theorem hover_keeps_menu_open (p : Dropdown.Page) (d : nat) (it : Dropdown.Item)
    (evs : list Dropdown.event) :
  Dropdown.dropdowns p !! d = Some it -> Dropdown.listening it = true ->
  (forall id t, Dropdown.timers p !! id = Some t ->
                Dropdown.callback t <> Dropdown.HideNow d) ->
  forallb (Dropdown.pointerStays d) evs = true ->
  Dropdown.menu
    <$> Dropdown.dropdowns
          (Dropdown.run evs (Dropdown.step p (Dropdown.DropdownEnter d))) !! d
  = Some (Some {| Dropdown.display := Some "block";
                  Dropdown.opacity := Some "1";
                  Dropdown.visibility := Some "visible" |}).
Proof.
  intros Hit Hl HT Hs.
  pose proof (DropdownFacts.hoveringInv_enter d p it Hit Hl HT) as I.
  revert I. generalize (Dropdown.step p (Dropdown.DropdownEnter d)).
  induction evs as [|e evs IH]; intros q I.
  - destruct I as ((it' & E & _ & _ & Em) & _). simpl.
    rewrite E. simpl. rewrite Em. reflexivity.
  - simpl in Hs. apply andb_true_iff in Hs as [He Hs].
    apply (IH Hs), DropdownFacts.hoveringInv_step; assumption.
Qed.

Lemma hover_keeps_menu_open_witness :
  Dropdown.menu
    <$> Dropdown.dropdowns
          (Dropdown.run
             [Dropdown.DropdownLeave 1; Dropdown.MenuEnter 0; Dropdown.TimerFires 0]
             (Dropdown.step
                (Dropdown.rendered
                   [(true, Some {| Dropdown.display := None; Dropdown.opacity := None;
                                   Dropdown.visibility := None |});
                    (true, Some {| Dropdown.display := None; Dropdown.opacity := None;
                                   Dropdown.visibility := None |})])
                (Dropdown.DropdownEnter 0))) !! 0%nat
  = Some (Some {| Dropdown.display := Some "block";
                  Dropdown.opacity := Some "1";
                  Dropdown.visibility := Some "visible" |}).
Proof.
  eapply (hover_keeps_menu_open
            (Dropdown.rendered
               [(true, Some {| Dropdown.display := None; Dropdown.opacity := None;
                               Dropdown.visibility := None |});
                (true, Some {| Dropdown.display := None; Dropdown.opacity := None;
                               Dropdown.visibility := None |})]) 0).
  - reflexivity.
  - reflexivity.
  - intros id t H. simpl in H. rewrite lookup_empty in H. discriminate.
  - reflexivity.
Defined.

(** ** Timers of the dropdowns *)

Module DropdownTimers.
Import Dropdown DropdownFacts.

Lemma timersInv_update (d : nat) (f : Item -> Item) (p : Page) :
  (forall it, hoverTimeout (f it) = hoverTimeout it) ->
  timersInv p -> timersInv (update d f p).
Proof.
  intros Hf [F O]. split; [exact F|].
  intros i it id Hi Hh. rewrite item_update in Hi.
  destruct (decide (i = d)) as [->|Hne]; [|apply (O i it id Hi Hh)].
  destruct (dropdowns p !! d) as [it0|] eqn:E; [|discriminate].
  simpl in Hi. injection Hi as <-. rewrite Hf in Hh.
  apply (O d it0 id E Hh).
Qed.

Lemma timersInv_delete (id : nat) (p : Page) :
  timersInv p ->
  timersInv {| dropdowns := dropdowns p; timers := delete id (timers p);
               nextTimer := nextTimer p |}.
Proof.
  intros [F O]. split; simpl.
  - intros i Hi. apply lookup_delete_None. right. apply F, Hi.
  - intros d it i Hd Hh. destruct (O d it i Hd Hh) as [L C].
    split; [exact L|]. intros t Ht. apply lookup_delete_Some in Ht as [_ Ht].
    apply C, Ht.
Qed.

Lemma timersInv_clearTimeout (h : option nat) (p : Page) :
  timersInv p -> timersInv (clearTimeout h p).
Proof. destruct h; [apply timersInv_delete|auto]. Qed.

Lemma timersInv_setTimeout (c : Callback) (ms : Z) (p : Page) :
  timersInv p -> timersInv (snd (setTimeout c ms p)).
Proof.
  intros [F O]. unfold setTimeout. split; simpl.
  - intros i Hi. rewrite lookup_insert_ne by lia. apply F. lia.
  - intros d it i Hd Hh. destruct (O d it i Hd Hh) as [L C].
    split; [lia|]. intros t Ht. rewrite lookup_insert_ne in Ht by lia.
    apply C, Ht.
Qed.

Lemma timersInv_mouseleave (d : nat) (p : Page) :
  timersInv p -> timersInv (mouseleave d p).
Proof.
  intros I. unfold mouseleave.
  destruct (dropdowns p !! d) as [it|] eqn:E; [|exact I].
  destruct (listening it); [|exact I].
  apply (timersInv_update d (set_isHovering false)) in I; [|reflexivity].
  destruct I as [F O]. unfold setTimeout, update in *. simpl in F, O.
  split; simpl.
  - intros i Hi. rewrite lookup_insert_ne by lia. apply F. lia.
  - intros i it' id Hi Hh.
    destruct (decide (i = d)) as [->|Hne].
    + rewrite list_lookup_alter_eq in Hi.
      destruct (alter (set_isHovering false) d (dropdowns p) !! d) as [it0|];
        [|discriminate].
      simpl in Hi. injection Hi as <-. simpl in Hh. injection Hh as <-.
      split; [lia|]. intros t Ht. rewrite lookup_insert_eq in Ht.
      injection Ht as <-. reflexivity.
    + rewrite list_lookup_alter_ne in Hi by congruence.
      destruct (O i it' id Hi Hh) as [L C].
      split; [lia|]. intros t Ht. rewrite lookup_insert_ne in Ht by lia.
      apply C, Ht.
Qed.

Lemma timersInv_closeOthers (d : nat) (others : list nat) (p : Page) :
  timersInv p -> timersInv (fst (closeOthers d others p)).
Proof.
  revert p. induction others as [|o rest IH]; intros p I; [exact I|].
  simpl. destruct (o =? d)%nat; [apply IH, I|].
  destruct (dropdowns p !! o ≫= menu); [|exact I].
  apply IH, timersInv_update; [reflexivity|exact I].
Qed.

Lemma timersInv_closeAll (ds : list nat) (p : Page) :
  timersInv p -> timersInv (closeAll ds p).
Proof.
  revert p. induction ds as [|d rest IH]; intros p I; [exact I|].
  simpl. destruct (dropdowns p !! d ≫= menu); [|exact I].
  apply IH.
  apply (timersInv_setTimeout (HideNow d) 300 (update d (set_menu fadeOut) p)).
  apply timersInv_update; [reflexivity|exact I].
Qed.

Lemma timersInv_step (p : Page) (e : event) : timersInv p -> timersInv (step p e).
Proof.
  intros I. destruct e as [d|d|d|d|d| |id]; simpl.
  - unfold dropdownEnter. destruct (dropdowns p !! d) as [it|]; [|exact I].
    destruct (listening it); [|exact I].
    apply timersInv_update; [reflexivity|]. apply timersInv_clearTimeout, I.
  - apply timersInv_mouseleave, I.
  - unfold menuEnter. destruct (dropdowns p !! d) as [it|]; [|exact I].
    destruct (listening it); [|exact I].
    apply timersInv_update; [reflexivity|]. apply timersInv_clearTimeout, I.
  - apply timersInv_mouseleave, I.
  - unfold touchstart. destruct (dropdowns p !! d) as [it|]; [|exact I].
    destruct (listening it); [|exact I].
    pose proof (timersInv_closeOthers d (seq 0 (length (dropdowns p))) p I) as I1.
    destruct (closeOthers d (seq 0 (length (dropdowns p))) p) as [p1 completed].
    simpl in I1. destruct completed; [|exact I1].
    destruct (dropdowns p1 !! d ≫= menu) as [m|]; [|exact I1].
    destruct (bool_decide _).
    + apply (timersInv_setTimeout (HideNow d) 300 (update d (set_menu fadeOut) p1)).
      apply timersInv_update; [reflexivity|exact I1].
    + apply timersInv_update; [reflexivity|exact I1].
  - apply timersInv_closeAll, I.
  - destruct (timers p !! id) as [t|]; [|exact I].
    apply (timersInv_delete id) in I.
    set (p1 := {| dropdowns := dropdowns p; timers := delete id (timers p);
                  nextTimer := nextTimer p |}) in *.
    clearbody p1.
    destruct (callback t) as [d|d|d]; simpl.
    + destruct (dropdowns p1 !! d) as [it|]; [|exact I].
      destruct (isHovering it); [exact I|].
      apply (timersInv_setTimeout (HideIfIdle d) 300 (update d (set_menu fadeOut) p1)).
      apply timersInv_update; [reflexivity|exact I].
    + destruct (dropdowns p1 !! d) as [it|]; [|exact I].
      destruct (isHovering it); [exact I|].
      apply timersInv_update; [reflexivity|exact I].
    + apply timersInv_update; [reflexivity|exact I].
Qed.

Lemma timersInv_run (evs : list event) (p : Page) :
  timersInv p -> timersInv (run evs p).
Proof.
  revert p. induction evs as [|e evs IH]; intros p I; [exact I|].
  apply IH, timersInv_step, I.
Qed.

Lemma timersInv_rendered (ds : list (bool * option Style)) : timersInv (rendered ds).
Proof.
  split; simpl.
  - intros id _. apply lookup_empty.
  - intros d it id Hd Hh. rewrite list_lookup_fmap in Hd.
    destruct (ds !! d); [|discriminate]. simpl in Hd. injection Hd as <-.
    discriminate.
Qed.

End DropdownTimers.

(** ** After the pointer has left a dropdown *)

Module DropdownLeaving.
Import Dropdown DropdownFacts DropdownTimers.

Lemma leavingInv_keep (d : nat) (p p' : Page) :
  leavingInv d p ->
  (forall it, dropdowns p !! d = Some it ->
     exists it', dropdowns p' !! d = Some it'
                 /\ isHovering it' = isHovering it /\ menu it' = menu it) ->
  (forall id t, timers p !! id = Some t -> actsOn d (callback t) = true ->
     timers p' !! id = Some t) ->
  leavingInv d p'.
Proof.
  intros (it & m & Hit & Hh & Hm & Hd) Hi Ht.
  destruct (Hi it Hit) as (it' & Hit' & Hh' & Hm').
  exists it', m. split; [exact Hit'|]. split; [congruence|]. split; [congruence|].
  destruct Hd as [(id & t & H1 & H2)|(Ho & Hv & [Hn|(id & t & H1 & H2)])].
  - left. exists id, t. split; [|exact H2]. apply Ht; [exact H1|].
    rewrite H2. simpl. apply Nat.eqb_refl.
  - right. auto.
  - right. split; [exact Ho|]. split; [exact Hv|]. right.
    exists id, t. split; [|exact H2]. apply Ht; [exact H1|].
    destruct H2 as [-> | ->]; simpl; apply Nat.eqb_refl.
Qed.

Lemma closeOthers_effect (d : nat) (others : list nat) (p : Page) :
  timers (fst (closeOthers d others p)) = timers p
  /\ nextTimer (fst (closeOthers d others p)) = nextTimer p
  /\ forall i,
       dropdowns (fst (closeOthers d others p)) !! i = dropdowns p !! i
       \/ exists it m,
            dropdowns p !! i = Some it /\ menu it = Some m /\ i <> d
            /\ dropdowns (fst (closeOthers d others p)) !! i
               = Some (set_menu close it).
Proof.
  revert p. induction others as [|o rest IH]; intros p; [simpl; auto|].
  cbn [closeOthers].
  destruct (Nat.eqb_spec o d) as [->|Hne]; [apply IH|].
  destruct (dropdowns p !! o ≫= menu) as [m|] eqn:Em; [|simpl; auto].
  destruct (IH (update o (set_menu close) p)) as (T & N & D).
  split; [exact T|]. split; [exact N|].
  intros i. destruct (dropdowns p !! o) as [it|] eqn:Eo; [|discriminate].
  simpl in Em.
  destruct (D i) as [E|(it1 & m1 & H1 & H2 & H3 & H4)].
  - rewrite E, item_update. destruct (decide (i = o)) as [->|Hio]; [|auto].
    right. exists it, m. rewrite Eo. auto.
  - rewrite item_update in H1. destruct (decide (i = o)) as [->|Hio].
    + right. exists it, m. rewrite Eo in H1. simpl in H1. injection H1 as <-.
      rewrite H4. split; [exact Eo|]. split; [exact Em|]. split; [exact H3|].
      unfold set_menu. simpl. rewrite Em. reflexivity.
    + right. exists it1, m1. auto.
Qed.

Lemma closeAll_effect (ds : list nat) (p : Page) :
  timersInv p ->
  (forall id t, timers p !! id = Some t -> timers (closeAll ds p) !! id = Some t)
  /\ forall i,
       dropdowns (closeAll ds p) !! i = dropdowns p !! i
       \/ exists it m,
            dropdowns p !! i = Some it /\ menu it = Some m
            /\ dropdowns (closeAll ds p) !! i = Some (set_menu fadeOut it)
            /\ exists id t, timers (closeAll ds p) !! id = Some t
                            /\ callback t = HideNow i.
Proof.
  revert p. induction ds as [|d rest IH]; intros p I; [simpl; auto|].
  cbn [closeAll].
  destruct (dropdowns p !! d ≫= menu) as [m|] eqn:Em; [|auto].
  set (p1 := snd (setTimeout (HideNow d) 300 (update d (set_menu fadeOut) p))).
  assert (I1 : timersInv p1).
  { apply (timersInv_setTimeout (HideNow d) 300 (update d (set_menu fadeOut) p)).
    apply timersInv_update; [reflexivity|exact I]. }
  destruct (IH p1 I1) as [T D].
  assert (T0 : forall id t, timers p !! id = Some t -> timers p1 !! id = Some t).
  { intros id t H. unfold p1, setTimeout, update. simpl.
    rewrite lookup_insert_ne; [exact H|].
    intros <-. destruct I as [F _]. rewrite F in H by lia. discriminate. }
  assert (N : timers p1 !! nextTimer p
              = Some {| delay := 300; callback := HideNow d |}).
  { unfold p1, setTimeout, update. simpl. apply lookup_insert_eq. }
  assert (D0 : forall i, dropdowns p1 !! i
                         = if decide (i = d) then set_menu fadeOut <$> dropdowns p !! i
                           else dropdowns p !! i).
  { intros i. unfold p1, setTimeout. simpl. apply item_update. }
  split; [intros id t H; apply T, T0, H|].
  intros i. destruct (dropdowns p !! d) as [it|] eqn:Ed; [|discriminate].
  simpl in Em.
  destruct (D i) as [E|(it1 & m1 & H1 & H2 & H3 & H4)].
  - rewrite E, D0. destruct (decide (i = d)) as [->|Hid]; [|auto].
    right. exists it, m. rewrite Ed. simpl.
    split; [reflexivity|]. split; [exact Em|]. split; [reflexivity|].
    eexists _, _. split; [apply T, N|reflexivity].
  - rewrite D0 in H1. destruct (decide (i = d)) as [->|Hid].
    + right. exists it, m. rewrite Ed in H1. simpl in H1. injection H1 as <-.
      rewrite H3. split; [exact Ed|]. split; [exact Em|]. split; [|exact H4].
      unfold set_menu. simpl. rewrite Em. reflexivity.
    + right. exists it1, m1. auto.
Qed.

(** A timer that acts on [d] is not the one another dropdown remembers. *)
Lemma keeps_clearTimeout (d d' : nat) (p : Page) (it' : Item) (id : nat) (t : Timer) :
  timersInv p -> dropdowns p !! d' = Some it' -> d' <> d ->
  timers p !! id = Some t -> actsOn d (callback t) = true ->
  timers (clearTimeout (hoverTimeout it') p) !! id = Some t.
Proof.
  intros [_ O] Hd Hne Ht Ha.
  destruct (hoverTimeout it') as [h|] eqn:Eh; [|exact Ht].
  simpl. apply lookup_delete_Some. split; [|exact Ht].
  intros <-. destruct (O d' it' h Hd Eh) as [_ C].
  rewrite (C t Ht) in Ha. simpl in Ha. apply Nat.eqb_eq in Ha. congruence.
Qed.

Lemma keeps_insert (p : Page) (c : Callback) (ms : Z) (id : nat) (t : Timer) :
  timersInv p -> timers p !! id = Some t ->
  <[nextTimer p := {| delay := ms; callback := c |}]> (timers p) !! id = Some t.
Proof.
  intros [F _] H. rewrite lookup_insert_ne; [exact H|].
  intros <-. rewrite F in H by lia. discriminate.
Qed.

Lemma leavingInv_mouseleave (d : nat) (p : Page) (it : Item) :
  dropdowns p !! d = Some it -> listening it = true ->
  leavingInv d (mouseleave d p).
Proof.
  intros Hit Hl. unfold mouseleave. rewrite Hit, Hl.
  unfold listening in Hl. apply andb_true_iff in Hl as [_ Hm].
  destruct (menu it) as [m|] eqn:Em; [|discriminate].
  unfold leavingInv, setTimeout, update. simpl.
  rewrite !list_lookup_alter_eq, Hit. simpl.
  eexists _, m. split; [reflexivity|]. simpl. split; [reflexivity|].
  split; [exact Em|]. left.
  eexists _, _. split; [apply lookup_insert_eq|reflexivity].
Qed.

Lemma leavingInv_leave (d d' : nat) (p : Page) :
  timersInv p -> leavingInv d p -> leavingInv d (mouseleave d' p).
Proof.
  intros I L. destruct (decide (d' = d)) as [->|Hne].
  - destruct (dropdowns p !! d) as [it|] eqn:Hit;
      [|unfold mouseleave; rewrite Hit; exact L].
    destruct (listening it) eqn:El; [eapply leavingInv_mouseleave; eauto|].
    unfold mouseleave. rewrite Hit, El. exact L.
  - unfold mouseleave.
    destruct (dropdowns p !! d') as [it'|] eqn:E'; [|exact L].
    destruct (listening it'); [|exact L].
    apply (leavingInv_keep d p); [exact L| |].
    + intros it Hit. exists it. unfold setTimeout, update. simpl.
      rewrite !list_lookup_alter_ne by congruence. auto.
    + intros id t Ht Hc. unfold setTimeout, update. simpl.
      apply keeps_insert; assumption.
Qed.

Lemma leavingInv_enter (d d' : nat) (f : Item -> Item) (p : Page) (it' : Item) :
  timersInv p -> d' <> d -> dropdowns p !! d' = Some it' ->
  leavingInv d p ->
  leavingInv d (update d' f (clearTimeout (hoverTimeout it') p)).
Proof.
  intros I Hne E' L. apply (leavingInv_keep d p); [exact L| |].
  - intros it Hit. exists it.
    rewrite item_update_ne, dropdowns_clearTimeout by congruence. auto.
  - intros id t Ht Hc. simpl. eapply keeps_clearTimeout; eauto.
Qed.

(** The menu of [d] once it is faded. *)
Lemma leavingInv_faded (d : nat) (p p' : Page) (it' : Item) (m' : Style) :
  leavingInv d p ->
  dropdowns p' !! d = Some it' ->
  (forall it, dropdowns p !! d = Some it -> isHovering it' = isHovering it) ->
  menu it' = Some m' ->
  opacity m' = Some "0" -> visibility m' = Some "hidden" ->
  (display m' = Some "none"
   \/ exists id t, timers p' !! id = Some t
                   /\ (callback t = HideIfIdle d \/ callback t = HideNow d)) ->
  leavingInv d p'.
Proof.
  intros (it & m & Hit & Hh & Hm & Hd) Hi Hh' Hm' Ho Hv Hn.
  exists it', m'. split; [exact Hi|]. split; [rewrite (Hh' it Hit); exact Hh|].
  split; [exact Hm'|]. right. auto.
Qed.

Lemma leavingInv_touch (d d' : nat) (p : Page) :
  timersInv p -> d' <> d -> leavingInv d p -> leavingInv d (touchstart d' p).
Proof.
  intros I Hne L. unfold touchstart.
  destruct (dropdowns p !! d') as [it'|] eqn:E'; [|exact L].
  destruct (listening it'); [|exact L].
  pose proof (closeOthers_effect d' (seq 0 (length (dropdowns p))) p) as (T & N & D).
  pose proof (timersInv_closeOthers d' (seq 0 (length (dropdowns p))) p I) as I1.
  destruct (closeOthers d' (seq 0 (length (dropdowns p))) p) as [p1 completed].
  simpl in T, N, D, I1.
  assert (L1 : leavingInv d p1).
  { destruct (D d) as [E|(it & m & H1 & H2 & _ & H4)].
    - apply (leavingInv_keep d p); [exact L| |].
      + intros it Hit. exists it. rewrite E. auto.
      + intros id t Ht _. rewrite T. exact Ht.
    - apply (leavingInv_faded d p p1 (set_menu close it) (close m)); auto.
      + intros it0 Hit0. simpl. congruence.
      + simpl. rewrite H2. reflexivity. }
  destruct completed; [|exact L1].
  destruct (dropdowns p1 !! d' ≫= menu) as [m|]; [|exact L1].
  destruct (bool_decide _).
  - apply (leavingInv_keep d p1); [exact L1| |].
    + intros it Hit. exists it. unfold setTimeout, update. simpl.
      rewrite list_lookup_alter_ne by congruence. auto.
    + intros id t Ht _. unfold setTimeout, update. simpl.
      apply keeps_insert; assumption.
  - apply (leavingInv_keep d p1); [exact L1| |].
    + intros it Hit. exists it. rewrite item_update_ne by congruence. auto.
    + intros id t Ht _. exact Ht.
Qed.

Lemma leavingInv_click (d : nat) (p : Page) :
  timersInv p -> leavingInv d p -> leavingInv d (clickOutside p).
Proof.
  intros I L. unfold clickOutside.
  destruct (closeAll_effect (seq 0 (length (dropdowns p))) p I) as [T D].
  destruct (D d) as [E|(it & m & H1 & H2 & H3 & H4)].
  - apply (leavingInv_keep d p); [exact L| |].
    + intros it Hit. exists it. rewrite E. auto.
    + intros id t Ht _. apply T, Ht.
  - apply (leavingInv_faded d p _ (set_menu fadeOut it) (fadeOut m)); auto.
    + intros it0 Hit0. simpl. congruence.
    + simpl. rewrite H2. reflexivity.
    + right. destruct H4 as (id & t & Ht & Hc). eauto.
Qed.

Lemma leavingInv_timer (d : nat) (p : Page) (id : nat) (t : Timer) :
  timersInv p -> timers p !! id = Some t -> leavingInv d p ->
  leavingInv d
    (runCallback (callback t)
       {| dropdowns := dropdowns p; timers := delete id (timers p);
          nextTimer := nextTimer p |}).
Proof.
  intros I Et L.
  pose proof (timersInv_delete id p I) as I1.
  set (p1 := {| dropdowns := dropdowns p; timers := delete id (timers p);
                nextTimer := nextTimer p |}) in *.
  assert (K : forall id' t', timers p !! id' = Some t' -> id' <> id ->
                timers p1 !! id' = Some t').
  { intros id' t' H Hne. simpl. apply lookup_delete_Some. auto. }
  assert (Hd : dropdowns p1 = dropdowns p) by reflexivity.
  destruct (decide (actsOn d (callback t) = true)) as [Ha|Ha].
  - (* a timer of [d] itself *)
    destruct L as (it & m & Hit & Hh & Hm & Hdis).
    destruct (callback t) as [d'|d'|d'] eqn:Ec; simpl in Ha;
      apply Nat.eqb_eq in Ha; subst d'; simpl; rewrite ?Hd, ?Hit, ?Hh.
    + exists (set_menu fadeOut it), (fadeOut m).
      unfold setTimeout, update. simpl. rewrite list_lookup_alter_eq, Hit. simpl.
      split; [reflexivity|]. split; [exact Hh|].
      split; [rewrite Hm; reflexivity|].
      right. split; [reflexivity|]. split; [reflexivity|]. right.
      eexists _, _. split; [apply lookup_insert_eq|]. left. reflexivity.
    + exists (set_menu remove it), (remove m).
      rewrite item_update_eq, Hd, Hit. simpl.
      split; [reflexivity|]. split; [exact Hh|].
      split; [rewrite Hm; reflexivity|].
      destruct Hdis as [(id' & t' & H1 & H2)|(Ho & Hv & _)].
      * left. exists id', t'. split; [|exact H2]. apply K; [exact H1|].
        intros ->. congruence.
      * right. simpl. auto.
    + exists (set_menu remove it), (remove m).
      rewrite item_update_eq, Hd, Hit. simpl.
      split; [reflexivity|]. split; [exact Hh|].
      split; [rewrite Hm; reflexivity|].
      destruct Hdis as [(id' & t' & H1 & H2)|(Ho & Hv & _)].
      * left. exists id', t'. split; [|exact H2]. apply K; [exact H1|].
        intros ->. congruence.
      * right. simpl. auto.
  - (* a timer of another dropdown *)
    assert (K' : forall id' t', timers p !! id' = Some t' ->
                   actsOn d (callback t') = true -> timers p1 !! id' = Some t').
    { intros id' t' H Hc. apply K; [exact H|]. intros ->. congruence. }
    assert (L1 : leavingInv d p1).
    { apply (leavingInv_keep d p); [exact L| |exact K'].
      intros it Hit. exists it. auto. }
    clearbody p1.
    destruct (callback t) as [d'|d'|d']; simpl in Ha;
      apply not_true_iff_false, Nat.eqb_neq in Ha; simpl.
    + destruct (dropdowns p1 !! d') as [it'|]; [|exact L1].
      destruct (isHovering it'); [exact L1|].
      apply (leavingInv_keep d p1); [exact L1| |].
      * intros it Hit. exists it. unfold setTimeout, update. simpl.
        rewrite list_lookup_alter_ne by congruence. auto.
      * intros id' t' Ht _. unfold setTimeout, update. simpl.
        apply keeps_insert; assumption.
    + destruct (dropdowns p1 !! d') as [it'|]; [|exact L1].
      destruct (isHovering it'); [exact L1|].
      apply (leavingInv_keep d p1); [exact L1| |].
      * intros it Hit. exists it. rewrite item_update_ne by congruence. auto.
      * intros id' t' Ht _. exact Ht.
    + apply (leavingInv_keep d p1); [exact L1| |].
      * intros it Hit. exists it. rewrite item_update_ne by congruence. auto.
      * intros id' t' Ht _. exact Ht.
Qed.

Lemma leavingInv_step (d : nat) (p : Page) (e : event) :
  timersInv p -> pointerAway d e = true ->
  leavingInv d p -> leavingInv d (step p e).
Proof.
  intros I Ha L.
  destruct e as [d'|d'|d'|d'|d'| |id]; simpl in Ha; simpl.
  - apply negb_true_iff, Nat.eqb_neq in Ha. unfold dropdownEnter.
    destruct (dropdowns p !! d') as [it'|] eqn:E'; [|exact L].
    destruct (listening it'); [|exact L].
    apply leavingInv_enter; assumption.
  - apply leavingInv_leave; assumption.
  - apply negb_true_iff, Nat.eqb_neq in Ha. unfold menuEnter.
    destruct (dropdowns p !! d') as [it'|] eqn:E'; [|exact L].
    destruct (listening it'); [|exact L].
    apply leavingInv_enter; assumption.
  - apply leavingInv_leave; assumption.
  - apply negb_true_iff, Nat.eqb_neq in Ha. apply leavingInv_touch; assumption.
  - apply leavingInv_click; assumption.
  - destruct (timers p !! id) as [t|] eqn:Et; [|exact L].
    apply leavingInv_timer; assumption.
Qed.

End DropdownLeaving.

(** X22 -- A menu the pointer has left ends up hidden.  On a page as
    rendered, after any events, let the pointer leave a dropdown that has
    its listeners (or its menu).  As long as the pointer does not come back
    to it and its toggle is not touched -- whatever happens to the other
    dropdowns, wherever is clicked, whichever timers come due -- once no
    timer of that dropdown is pending its menu is off the display,
    transparent and hidden. *)
Theorem menu_hidden_after_leave (ds : list (bool * option Dropdown.Style))
    (before : list Dropdown.event) (d : nat) (it : Dropdown.Item)
    (leave : Dropdown.event) (evs : list Dropdown.event) :
  let p := Dropdown.run before (Dropdown.rendered ds) in
  Dropdown.dropdowns p !! d = Some it -> Dropdown.listening it = true ->
  leave = Dropdown.DropdownLeave d \/ leave = Dropdown.MenuLeave d ->
  forallb (Dropdown.pointerAway d) evs = true ->
  let q := Dropdown.run evs (Dropdown.step p leave) in
  (forall id t, Dropdown.timers q !! id = Some t ->
                Dropdown.actsOn d (Dropdown.callback t) = false) ->
  Dropdown.menu <$> Dropdown.dropdowns q !! d
  = Some (Some {| Dropdown.display := Some "none";
                  Dropdown.opacity := Some "0";
                  Dropdown.visibility := Some "hidden" |}).
Proof.
  intros p Hit Hl Hleave Hs q Hq.
  assert (I : Dropdown.timersInv p)
    by apply DropdownTimers.timersInv_run, DropdownTimers.timersInv_rendered.
  assert (L : Dropdown.leavingInv d (Dropdown.step p leave)).
  { destruct Hleave as [-> | ->]; simpl;
      eapply DropdownLeaving.leavingInv_mouseleave; eauto. }
  apply (DropdownTimers.timersInv_step p leave) in I.
  assert (G : Dropdown.leavingInv d q).
  { unfold q. clear q Hq. revert I L.
    generalize (Dropdown.step p leave). clear p Hit.
    induction evs as [|e evs IH]; intros p I L; [exact L|].
    simpl in Hs. apply andb_true_iff in Hs as [He Hs].
    apply (IH Hs).
    - apply DropdownTimers.timersInv_step, I.
    - apply DropdownLeaving.leavingInv_step; assumption. }
  destruct G as (it' & m & Hit' & _ & Hm & Hd). rewrite Hit'. simpl. rewrite Hm.
  assert (N : forall id t c, Dropdown.timers q !! id = Some t ->
                Dropdown.callback t = c ->
                Dropdown.actsOn d c = true -> False).
  { intros id t c Ht <- Hc. rewrite (Hq id t Ht) in Hc. discriminate. }
  destruct Hd as [(id & t & H1 & H2)|(Ho & Hv & [Hn|(id & t & H1 & [H2|H2])])].
  - exfalso. apply (N id t _ H1 H2). simpl. apply Nat.eqb_refl.
  - destruct m as [dis op vis]. simpl in *. subst. reflexivity.
  - exfalso. apply (N id t _ H1 H2). simpl. apply Nat.eqb_refl.
  - exfalso. apply (N id t _ H1 H2). simpl. apply Nat.eqb_refl.
Qed.

Lemma menu_hidden_after_leave_witness :
  Dropdown.menu
    <$> Dropdown.dropdowns
          (Dropdown.run [Dropdown.TimerFires 0; Dropdown.TimerFires 1]
             (Dropdown.step
                (Dropdown.run [Dropdown.DropdownEnter 0]
                   (Dropdown.rendered
                      [(true, Some {| Dropdown.display := None;
                                      Dropdown.opacity := None;
                                      Dropdown.visibility := None |})]))
                (Dropdown.DropdownLeave 0))) !! 0%nat
  = Some (Some {| Dropdown.display := Some "none";
                  Dropdown.opacity := Some "0";
                  Dropdown.visibility := Some "hidden" |}).
Proof.
  eapply (menu_hidden_after_leave
            [(true, Some {| Dropdown.display := None; Dropdown.opacity := None;
                            Dropdown.visibility := None |})]
            [Dropdown.DropdownEnter 0] 0 _ (Dropdown.DropdownLeave 0)
            [Dropdown.TimerFires 0; Dropdown.TimerFires 1]).
  - reflexivity.
  - reflexivity.
  - left. reflexivity.
  - reflexivity.
  - intros id t H.
    assert (E : Dropdown.timers
                  (Dropdown.run [Dropdown.TimerFires 0; Dropdown.TimerFires 1]
                     (Dropdown.step
                        (Dropdown.run [Dropdown.DropdownEnter 0]
                           (Dropdown.rendered
                              [(true, Some {| Dropdown.display := None;
                                              Dropdown.opacity := None;
                                              Dropdown.visibility := None |})]))
                        (Dropdown.DropdownLeave 0))) = ∅)
      by (vm_compute; reflexivity).
    rewrite E, lookup_empty in H. discriminate.
Defined.

(** ** One open menu at a time on a touch screen *)

Module DropdownTouch.
Import Dropdown DropdownFacts DropdownLeaving.

(** A step that displays no menu that was not displayed keeps the
    property. *)
Lemma atMostOneOpen_keep (p p' : Page) :
  (forall i it' m', dropdowns p' !! i = Some it' -> menu it' = Some m' ->
     display m' = Some "block" ->
     exists it m, dropdowns p !! i = Some it /\ menu it = Some m
                  /\ display m = Some "block") ->
  atMostOneOpen p -> atMostOneOpen p'.
Proof.
  intros K A i j it1 it2 m1 m2 H1 H2 H3 H4 H5 H6.
  destruct (K i it1 m1 H1 H2 H3) as (a & ma & Ha1 & Ha2 & Ha3).
  destruct (K j it2 m2 H4 H5 H6) as (b & mb & Hb1 & Hb2 & Hb3).
  apply (A i j a b ma mb); assumption.
Qed.

(** Updating one dropdown without displaying its menu. *)
Lemma update_keep (d : nat) (f : Item -> Item) (p : Page) :
  (forall it m', menu (f it) = Some m' -> display m' = Some "block" ->
     exists m, menu it = Some m /\ display m = Some "block") ->
  forall i it' m', dropdowns (update d f p) !! i = Some it' -> menu it' = Some m' ->
    display m' = Some "block" ->
    exists it m, dropdowns p !! i = Some it /\ menu it = Some m
                 /\ display m = Some "block".
Proof.
  intros Hf i it' m' Hi Hm Hd. rewrite item_update in Hi.
  destruct (decide (i = d)) as [->|Hne]; [|eauto].
  destruct (dropdowns p !! d) as [it|] eqn:E; [|discriminate].
  simpl in Hi. injection Hi as <-.
  destruct (Hf it m' Hm Hd) as (m & H1 & H2). eauto.
Qed.

Lemma alter_keep (f : Item -> Item) (l : list Item) (d i : nat) (it' : Item) :
  (forall it, menu (f it) = menu it) ->
  alter f d l !! i = Some it' ->
  exists it, l !! i = Some it /\ menu it = menu it'.
Proof.
  intros Hf Hi. destruct (decide (i = d)) as [->|Hne].
  - rewrite list_lookup_alter_eq in Hi.
    destruct (l !! d) as [it|]; [|discriminate].
    simpl in Hi. injection Hi as <-. eauto.
  - rewrite list_lookup_alter_ne in Hi by congruence. eauto.
Qed.

Lemma set_menu_keep (f : Style -> Style) :
  (forall m, display (f m) = Some "block" -> display m = Some "block") ->
  forall it m', menu (set_menu f it) = Some m' -> display m' = Some "block" ->
    exists m, menu it = Some m /\ display m = Some "block".
Proof.
  intros Hf it m' Hm Hd. simpl in Hm.
  destruct (menu it) as [m|]; [|discriminate].
  simpl in Hm. injection Hm as <-. eauto.
Qed.

Lemma closeAll_keep (ds : list nat) (p : Page) :
  forall i it' m', dropdowns (closeAll ds p) !! i = Some it' -> menu it' = Some m' ->
    display m' = Some "block" ->
    exists it m, dropdowns p !! i = Some it /\ menu it = Some m
                 /\ display m = Some "block".
Proof.
  revert p. induction ds as [|d rest IH]; intros p i it' m' Hi Hm Hd; [simpl in Hi; eauto|].
  cbn [closeAll] in Hi.
  destruct (dropdowns p !! d ≫= menu); [|eauto].
  destruct (IH _ i it' m' Hi Hm Hd) as (it1 & m1 & H1 & H2 & H3).
  unfold setTimeout in H1. simpl in H1.
  apply (update_keep d (set_menu fadeOut) p (set_menu_keep fadeOut (fun m H => H))
           i it1 m1 H1 H2 H3).
Qed.

Lemma closeOthers_keep (d : nat) (others : list nat) (p : Page) :
  forall i it' m', dropdowns (fst (closeOthers d others p)) !! i = Some it' ->
    menu it' = Some m' -> display m' = Some "block" ->
    exists it m, dropdowns p !! i = Some it /\ menu it = Some m
                 /\ display m = Some "block".
Proof.
  intros i it' m' Hi Hm Hd.
  destruct (closeOthers_effect d others p) as (_ & _ & D).
  destruct (D i) as [E|(it & m & H1 & H2 & _ & H4)].
  - rewrite E in Hi. eauto.
  - rewrite H4 in Hi. injection Hi as <-. simpl in Hm. rewrite H2 in Hm.
    simpl in Hm. injection Hm as <-. discriminate.
Qed.

(** When the loop of [touchstart] runs to its end, every other menu is
    off the display. *)
Lemma closeOthers_complete (d : nat) (others : list nat) (p : Page) :
  snd (closeOthers d others p) = true ->
  forall i it' m', i ∈ others -> i <> d ->
    dropdowns (fst (closeOthers d others p)) !! i = Some it' ->
    menu it' = Some m' -> display m' = Some "none".
Proof.
  revert p. induction others as [|o rest IH]; intros p Hc i it' m' Hi Hne Hl Hm.
  - apply elem_of_nil in Hi. destruct Hi.
  - cbn [closeOthers] in *.
    destruct (Nat.eqb_spec o d) as [->|Hod].
    + apply elem_of_cons in Hi as [->|Hi]; [contradiction|]. eapply IH; eauto.
    + destruct (dropdowns p !! o ≫= menu) as [m|] eqn:Em; [|discriminate].
      destruct (decide (i ∈ rest)) as [Hr|Hr]; [eapply IH; eauto|].
      apply elem_of_cons in Hi as [->|Hi]; [|contradiction].
      destruct (closeOthers_effect d rest (update o (set_menu close) p))
        as (_ & _ & D).
      assert (C : exists it, dropdowns (update o (set_menu close) p) !! o = Some it
                             /\ menu it = Some (close m)).
      { rewrite item_update_eq.
        destruct (dropdowns p !! o) as [it|]; [|discriminate].
        simpl in Em. eexists. split; [reflexivity|]. simpl. rewrite Em. reflexivity. }
      destruct C as (it & C1 & C2).
      destruct (D o) as [E|(it1 & m1 & H1 & H2 & _ & H4)].
      * rewrite E, C1 in Hl. injection Hl as <-. rewrite C2 in Hm.
        injection Hm as <-. reflexivity.
      * rewrite H4 in Hl. injection Hl as <-. simpl in Hm. rewrite H2 in Hm.
        simpl in Hm. injection Hm as <-. reflexivity.
Qed.

Lemma atMostOneOpen_touch (d : nat) (p : Page) :
  atMostOneOpen p -> atMostOneOpen (touchstart d p).
Proof.
  intros A. unfold touchstart.
  destruct (dropdowns p !! d) as [it|] eqn:Ed; [|exact A].
  destruct (listening it); [|exact A].
  pose proof (closeOthers_keep d (seq 0 (length (dropdowns p))) p) as K.
  pose proof (closeOthers_complete d (seq 0 (length (dropdowns p))) p) as C.
  pose proof (closeOthers_effect d (seq 0 (length (dropdowns p))) p) as (_ & _ & D).
  destruct (closeOthers d (seq 0 (length (dropdowns p))) p) as [p1 completed].
  simpl in K, C, D.
  destruct completed; [|apply (atMostOneOpen_keep p); assumption].
  assert (O : forall i it' m', i <> d -> dropdowns p1 !! i = Some it' ->
                menu it' = Some m' -> display m' <> Some "block").
  { intros i it' m' Hne Hi Hm Hb.
    assert (Hin : i ∈ seq 0 (length (dropdowns p))).
    { apply elem_of_seq. split; [lia|]. simpl.
      destruct (D i) as [E|(it0 & _ & H1 & _)].
      - rewrite E in Hi. apply lookup_lt_Some in Hi. exact Hi.
      - apply lookup_lt_Some in H1. exact H1. }
    rewrite (C eq_refl i it' m' Hin Hne Hi Hm) in Hb. discriminate. }
  assert (G : forall q, (forall i, i <> d -> dropdowns q !! i = dropdowns p1 !! i) ->
                atMostOneOpen q).
  { intros q Hq i j it1 it2 m1 m2 H1 H2 H3 H4 H5 H6.
    destruct (decide (i = d)) as [->|Hi].
    - destruct (decide (j = d)) as [->|Hj]; [reflexivity|].
      rewrite Hq in H4 by exact Hj. destruct (O j it2 m2 Hj H4 H5 H6).
    - rewrite Hq in H1 by exact Hi. destruct (O i it1 m1 Hi H1 H2 H3). }
  destruct (dropdowns p1 !! d ≫= menu) as [m|]; [|apply G; auto].
  destruct (bool_decide _); apply G; intros i Hi.
  - unfold setTimeout. simpl. apply list_lookup_alter_ne. congruence.
  - apply item_update_ne, Hi.
Qed.

Lemma atMostOneOpen_step (p : Page) (e : event) :
  noHover e = true -> atMostOneOpen p -> atMostOneOpen (step p e).
Proof.
  intros Hn A. destruct e as [d|d|d|d|d| |id]; simpl in Hn; try discriminate; simpl.
  - unfold mouseleave. destruct (dropdowns p !! d) as [it|]; [|exact A].
    destruct (listening it); [|exact A].
    apply (atMostOneOpen_keep p); [|exact A].
    intros i it' m' Hi Hm Hd. unfold setTimeout, update in Hi. simpl in Hi.
    apply alter_keep in Hi as (it1 & Hi & E1); [|reflexivity].
    apply alter_keep in Hi as (it2 & Hi & E2); [|reflexivity].
    exists it2, m'. rewrite E2, E1. auto.
  - unfold menuEnter. destruct (dropdowns p !! d) as [it|]; [|exact A].
    destruct (listening it); [|exact A].
    apply (atMostOneOpen_keep p); [|exact A].
    intros i it' m' Hi Hm Hd. unfold update in Hi. simpl in Hi.
    rewrite dropdowns_clearTimeout in Hi.
    apply alter_keep in Hi as (it1 & Hi & E1); [|reflexivity].
    exists it1, m'. rewrite E1. auto.
  - unfold mouseleave. destruct (dropdowns p !! d) as [it|]; [|exact A].
    destruct (listening it); [|exact A].
    apply (atMostOneOpen_keep p); [|exact A].
    intros i it' m' Hi Hm Hd. unfold setTimeout, update in Hi. simpl in Hi.
    apply alter_keep in Hi as (it1 & Hi & E1); [|reflexivity].
    apply alter_keep in Hi as (it2 & Hi & E2); [|reflexivity].
    exists it2, m'. rewrite E2, E1. auto.
  - apply atMostOneOpen_touch, A.
  - apply (atMostOneOpen_keep p); [|exact A]. apply closeAll_keep.
  - destruct (timers p !! id) as [t|]; [|exact A].
    apply (atMostOneOpen_keep p); [|exact A].
    set (p1 := {| dropdowns := dropdowns p; timers := delete id (timers p);
                  nextTimer := nextTimer p |}).
    change (dropdowns p) with (dropdowns p1). clearbody p1.
    destruct (callback t) as [d|d|d]; simpl.
    + destruct (dropdowns p1 !! d) as [it|]; [|eauto].
      destruct (isHovering it); [eauto|].
      unfold setTimeout. simpl.
      apply (update_keep d (set_menu fadeOut) p1 (set_menu_keep fadeOut (fun m H => H))).
    + destruct (dropdowns p1 !! d) as [it|]; [|eauto].
      destruct (isHovering it); [eauto|].
      apply (update_keep d (set_menu remove) p1).
      apply set_menu_keep. discriminate.
    + apply (update_keep d (set_menu remove) p1).
      apply set_menu_keep. discriminate.
Qed.

End DropdownTouch.

Module DropdownCount.
Import Dropdown.

Lemma filter_nil_lookup (f : Item -> bool) (l : list Item) (j : nat) (b : Item) :
  List.filter f l = [] -> l !! j = Some b -> f b = false.
Proof.
  intros H Hj. destruct (f b) eqn:E; [|reflexivity].
  assert (I : In b (List.filter f l)).
  { apply filter_In. split; [|exact E].
    apply list_elem_of_In. eapply list_elem_of_lookup_2, Hj. }
  rewrite H in I. destruct I.
Qed.

Lemma filter_at_most_one (f : Item -> bool) (l : list Item) :
  (length (List.filter f l) <= 1)%nat
  <-> forall i j a b, l !! i = Some a -> f a = true ->
                      l !! j = Some b -> f b = true -> i = j.
Proof.
  induction l as [|x l IH]; simpl.
  - split; [intros _ i j a b H; discriminate|lia].
  - destruct (f x) eqn:Ex; simpl.
    + split.
      * intros H i j a b Hi Ha Hj Hb.
        assert (N : List.filter f l = [])
          by (destruct (List.filter f l); [reflexivity|simpl in H; lia]).
        destruct i as [|i], j as [|j]; simpl in *; [reflexivity| | |].
        -- rewrite (filter_nil_lookup f l j b N Hj) in Hb. discriminate.
        -- rewrite (filter_nil_lookup f l i a N Hi) in Ha. discriminate.
        -- rewrite (filter_nil_lookup f l i a N Hi) in Ha. discriminate.
      * intros H. destruct (List.filter f l) as [|y r] eqn:E; [simpl; lia|].
        assert (I : In y (List.filter f l)) by (rewrite E; left; reflexivity).
        apply filter_In in I as [I Hy].
        apply list_elem_of_In, list_elem_of_lookup in I as [j Hj].
        specialize (H 0%nat (S j) x y eq_refl Ex Hj Hy). discriminate.
    + rewrite IH. split.
      * intros H i j a b Hi Ha Hj Hb.
        destruct i as [|i]; simpl in Hi; [congruence|].
        destruct j as [|j]; simpl in Hj; [congruence|].
        f_equal. eapply H; eauto.
      * intros H i j a b Hi Ha Hj Hb.
        specialize (H (S i) (S j) a b Hi Ha Hj Hb). lia.
Qed.

Lemma openMenus_at_most_one (p : Page) :
  (length (openMenus p) <= 1)%nat <-> atMostOneOpen p.
Proof.
  unfold openMenus. rewrite filter_at_most_one. unfold atMostOneOpen, isOpen. split.
  - intros H i j it1 it2 m1 m2 H1 H2 H3 H4 H5 H6.
    apply (H i j it1 it2 H1); [|exact H4|].
    + rewrite H2. apply bool_decide_eq_true_2, H3.
    + rewrite H5. apply bool_decide_eq_true_2, H6.
  - intros H i j a b Hi Ha Hj Hb.
    destruct (menu a) as [m1|] eqn:E1; [|discriminate].
    destruct (menu b) as [m2|] eqn:E2; [|discriminate].
    apply bool_decide_eq_true in Ha, Hb.
    apply (H i j a b m1 m2); assumption.
Qed.

End DropdownCount.

(** X23 -- On a touch screen at most one menu is open.  When at most one
    menu of the page is displayed as a block, then after any sequence of
    touches on toggles, clicks outside, timers coming due and pointers
    leaving -- anything but a pointer entering a dropdown -- still at most
    one menu is displayed as a block. *)
Theorem one_menu_open (p : Dropdown.Page) (evs : list Dropdown.event) :
  (length (Dropdown.openMenus p) <= 1)%nat ->
  forallb Dropdown.noHover evs = true ->
  (length (Dropdown.openMenus (Dropdown.run evs p)) <= 1)%nat.
Proof.
  rewrite !DropdownCount.openMenus_at_most_one.
  revert p. induction evs as [|e evs IH]; intros p A Hn; [exact A|].
  simpl in Hn. apply andb_true_iff in Hn as [He Hn].
  apply (IH _ (DropdownTouch.atMostOneOpen_step p e He A) Hn).
Qed.

Lemma one_menu_open_witness :
  (length
     (Dropdown.openMenus
        (Dropdown.run
           [Dropdown.TouchStart 0; Dropdown.TouchStart 1; Dropdown.ClickOutside;
            Dropdown.TimerFires 0]
           (Dropdown.rendered
              [(true, Some {| Dropdown.display := None; Dropdown.opacity := None;
                              Dropdown.visibility := None |});
               (true, Some {| Dropdown.display := None; Dropdown.opacity := None;
                              Dropdown.visibility := None |})]))) <= 1)%nat.
Proof.
  apply (one_menu_open
           (Dropdown.rendered
              [(true, Some {| Dropdown.display := None; Dropdown.opacity := None;
                              Dropdown.visibility := None |});
               (true, Some {| Dropdown.display := None; Dropdown.opacity := None;
                              Dropdown.visibility := None |})])
           [Dropdown.TouchStart 0; Dropdown.TouchStart 1; Dropdown.ClickOutside;
            Dropdown.TimerFires 0]).
  - vm_compute. lia.
  - reflexivity.
Defined.

(** ** A dropdown without a menu *)

Module DropdownErrors.
Import Dropdown DropdownFacts DropdownLeaving.

Lemma closeAll_stops (k n a : nat) (p : Page) :
  (a <= k)%nat -> dropdowns p !! k ≫= menu = None ->
  forall j, (k <= j)%nat ->
    dropdowns (closeAll (seq a n) p) !! j = dropdowns p !! j.
Proof.
  revert a p. induction n as [|n IH]; intros a p Ha Hk j Hj; [reflexivity|].
  cbn [seq closeAll].
  destruct (dropdowns p !! a ≫= menu) as [m|] eqn:Em; [|reflexivity].
  assert (Hne : a <> k) by (intros ->; congruence).
  rewrite IH; [| lia | | exact Hj].
  - unfold setTimeout. simpl. apply list_lookup_alter_ne. lia.
  - unfold setTimeout. simpl. rewrite list_lookup_alter_ne by congruence. exact Hk.
Qed.

Lemma closeOthers_aborts (d k : nat) (others : list nat) (p : Page) :
  k ∈ others -> k <> d -> dropdowns p !! k ≫= menu = None ->
  snd (closeOthers d others p) = false.
Proof.
  revert p. induction others as [|o rest IH]; intros p Hin Hne Hk.
  - apply elem_of_nil in Hin. destruct Hin.
  - cbn [closeOthers]. destruct (Nat.eqb_spec o d) as [->|Hod].
    + apply elem_of_cons in Hin as [->|Hin]; [contradiction|]. apply IH; assumption.
    + destruct (dropdowns p !! o ≫= menu) as [m|] eqn:Em; [|reflexivity].
      assert (Hok : o <> k) by (intros ->; congruence).
      apply elem_of_cons in Hin as [->|Hin]; [congruence|].
      apply IH; [exact Hin|exact Hne|].
      rewrite item_update_ne by congruence. exact Hk.
Qed.

End DropdownErrors.

(** X24 -- A dropdown without a menu stops the handlers that loop over all
    dropdowns.  With such a dropdown on the page, a touch on the toggle of
    any other dropdown neither opens nor closes that dropdown's menu, and a
    click outside leaves the dropdowns from the menu-less one on as they
    were: the loop ends on the missing menu. *)
Theorem menuless_dropdown_stops_handlers (p : Dropdown.Page) (k : nat)
    (it : Dropdown.Item) :
  Dropdown.dropdowns p !! k = Some it -> Dropdown.menu it = None ->
  (forall d, d <> k ->
     Dropdown.dropdowns (Dropdown.step p (Dropdown.TouchStart d)) !! d
     = Dropdown.dropdowns p !! d)
  /\ (forall j, (k <= j)%nat ->
        Dropdown.dropdowns (Dropdown.step p Dropdown.ClickOutside) !! j
        = Dropdown.dropdowns p !! j).
Proof.
  intros Hk Hm.
  assert (N : Dropdown.dropdowns p !! k ≫= Dropdown.menu = None)
    by (rewrite Hk; exact Hm).
  split.
  - intros d Hd. simpl. unfold Dropdown.touchstart.
    destruct (Dropdown.dropdowns p !! d) as [itd|] eqn:Ed; [|exact Ed].
    destruct (Dropdown.listening itd); [|exact Ed].
    assert (A : snd (Dropdown.closeOthers d (seq 0 (length (Dropdown.dropdowns p))) p)
                = false).
    { apply (DropdownErrors.closeOthers_aborts d k); [|congruence|exact N].
      apply elem_of_seq. split; [lia|]. simpl. eapply lookup_lt_Some, Hk. }
    destruct (DropdownLeaving.closeOthers_effect d
                (seq 0 (length (Dropdown.dropdowns p))) p) as (_ & _ & D).
    destruct (Dropdown.closeOthers d (seq 0 (length (Dropdown.dropdowns p))) p)
      as [p1 completed].
    simpl in A, D. subst completed.
    destruct (D d) as [E|(? & ? & _ & _ & Hne & _)]; [|contradiction].
    rewrite E. exact Ed.
  - intros j Hj. simpl. unfold Dropdown.clickOutside.
    apply (DropdownErrors.closeAll_stops k); [lia|exact N|exact Hj].
Qed.

Lemma menuless_dropdown_stops_handlers_witness :
  Dropdown.dropdowns
    (Dropdown.step
       (Dropdown.rendered
          [(true, Some {| Dropdown.display := None; Dropdown.opacity := None;
                          Dropdown.visibility := None |});
           (true, None);
           (true, Some {| Dropdown.display := Some "block";
                          Dropdown.opacity := Some "1";
                          Dropdown.visibility := Some "visible" |})])
       Dropdown.ClickOutside) !! 2%nat
  = Some {| Dropdown.hasToggle := true;
            Dropdown.menu := Some {| Dropdown.display := Some "block";
                                     Dropdown.opacity := Some "1";
                                     Dropdown.visibility := Some "visible" |};
            Dropdown.hoverTimeout := None;
            Dropdown.isHovering := false |}.
Proof.
  destruct (menuless_dropdown_stops_handlers
              (Dropdown.rendered
                 [(true, Some {| Dropdown.display := None; Dropdown.opacity := None;
                                 Dropdown.visibility := None |});
                  (true, None);
                  (true, Some {| Dropdown.display := Some "block";
                                 Dropdown.opacity := Some "1";
                                 Dropdown.visibility := Some "visible" |})])
              1 _ eq_refl eq_refl) as [_ H].
  rewrite (H 2%nat) by lia. reflexivity.
Defined.

(** ** The two checks of a required control *)

(** X25 -- The submit check and the validator agree on what an empty
    required control is.  For a required control under whose parent no
    message is shown, validateField shows "This field is required" exactly
    when the submit check of a form gives a control with the same value the
    danger border: in both, a value of white space only counts as empty. *)
Theorem required_checks_agree (i : nat) (doc : Validator.Doc) (field : Validator.Field)
    (cs : list FormSubmit.Control) (j : nat) (c : FormSubmit.Control) :
  Validator.fields doc !! i = Some field ->
  Validator.required field = true ->
  Validator.shownUnder doc field = [] ->
  cs !! j = Some c -> FormSubmit.value c = Validator.value field ->
  (lit "This field is required"
     ∈ Validator.shownUnder (snd (Validator.validateField i doc)) field
   <-> FormSubmit.borderColor <$> fst (FormSubmit.requiredCheck cs) !! j
       = Some (Some "var(--danger-color)")).
Proof.
  intros Hf Hr Hs Hc Hv.
  destruct (ValidatorFacts.validateField_spec i doc field Hf) as (_ & S & _).
  rewrite S, Hs. simpl.
  rewrite FormSubmitFacts.requiredCheck_spec. simpl.
  rewrite list_lookup_fmap, Hc. simpl. rewrite Hv.
  unfold Validator.messages, Validator.rules. rewrite Hr.
  cbn [List.filter fst map snd andb].
  destruct (FormSubmit.blank (Validator.value field)) eqn:Eb.
  - apply FormSubmitFacts.trim_nil_iff in Eb.
    rewrite (bool_decide_eq_true_2 _ Eb). simpl.
    split; [reflexivity|]. intros _. apply elem_of_cons. left. reflexivity.
  - assert (Hn : trim (Validator.value field) <> []).
    { intros H. apply FormSubmitFacts.trim_nil_iff in H. congruence. }
    rewrite (bool_decide_eq_false_2 _ Hn). simpl.
    split; [|discriminate]. intros H. exfalso.
    repeat match type of H with
           | _ ∈ map snd (if ?b then _ else _) => destruct b; simpl in H
           | _ ∈ map snd (List.filter fst _) => simpl in H
           | _ ∈ (if ?b then _ else _) => destruct b; simpl in H
           | _ ∈ _ :: _ => apply elem_of_cons in H as [H|H]; [discriminate|]
           | _ ∈ [] => apply elem_of_nil in H; destruct H
           end.
Qed.

Lemma required_checks_agree_witness :
  lit "This field is required"
    ∈ Validator.shownUnder
        (snd (Validator.validateField 0
                (Validator.sampleForm (lit "   ") (lit "hunter22") (lit "hunter22"))))
        {| Validator.value := lit "   "; Validator.type := "email";
           Validator.id := "email"; Validator.required := true;
           Validator.errorClass := false; Validator.parent := 10%nat |}.
Proof.
  apply (required_checks_agree 0
           (Validator.sampleForm (lit "   ") (lit "hunter22") (lit "hunter22"))
           _ [{| FormSubmit.value := lit "   "; FormSubmit.borderColor := None |}]
           0 _ eq_refl eq_refl eq_refl eq_refl eq_refl).
  reflexivity.
Defined.
